(** * Box blur: the stencil kernel, the row partitioner and the merger

    A shallow embedding of the blur routines of the box-blur repository
    (serial, OpenMP, MPI, OpenCL and CUDA variants) together with the
    properties its specification states about them, and of the code around
    them: the proposal's 3x3 convolution, the test image generators, the
    BMP and PGM readers and writers and the choice of the output encoder.

    Conventions of the embedding.
    - A C [int] is a [Z] kept in the 32-bit two's-complement range by
      [wrap]; every arithmetic operation of the source is one of [iadd],
      [isub], [imul], [ineg], [idiv].
    - Memory is a byte-addressed total map [mem]; a pointer is an address,
      [p[i]] is [load m p i], and a store narrows to [unsigned char].
    - A counted [for] loop is an iteration over the list of the values its
      counter takes ([range_lt], [range_le]); the counter never leaves the
      [int] range since it stays below an [int] bound.
    - A division by zero traps; the routines therefore return [option mem]
      and [None] is the trap.
    - The MPI and OpenCL calls are modelled by what they do to the buffers
      involved: [MPI_Bcast] and [MPI_Gatherv] copy bytes between the
      address spaces of the processes, a kernel launch runs the kernel
      once per work-item. *)

From stdpp Require Import base tactics numbers option list_numbers strings list.

Local Open Scope Z_scope.

(** ** Machine integers *)

Definition INT_MAX : Z := 2147483647.
Definition INT_MIN : Z := -2147483648.

Definition in_int (z : Z) : Prop := INT_MIN ≤ z ≤ INT_MAX.

Definition wrap (z : Z) : Z := (z + 2147483648) `mod` 4294967296 - 2147483648.

Definition iadd (a b : Z) : Z := wrap (a + b).
Definition isub (a b : Z) : Z := wrap (a - b).
Definition imul (a b : Z) : Z := wrap (a * b).
Definition ineg (a : Z) : Z := wrap (- a).
(** C division truncates toward zero: [Z.quot]. *)
Definition idiv (a b : Z) : Z := wrap (a ÷ b).

(** The cast [(unsigned char) v]. *)
Definition uchar (v : Z) : Z := v `mod` 256.

(** ** Memory *)

Definition mem : Type := Z → Z.

Definition load (m : mem) (p i : Z) : Z := m (p + i).
Definition store (m : mem) (p i v : Z) : mem :=
  λ a, if bool_decide (a = p + i) then uchar v else m a.

(** [memcpy] between two address spaces: [n] bytes from [sp] in [src] land
    at [dp] in [dst]. *)
Definition copy_bytes (src : mem) (sp : Z) (dst : mem) (dp n : Z) : mem :=
  λ a, if bool_decide (dp ≤ a < dp + n) then src (sp + (a - dp)) else dst a.

(** Reading [n] consecutive bytes. *)
Definition read_buf (m : mem) (p n : Z) : list Z := (λ i, load m p i) <$> seqZ 0 n.

(** Laying a byte sequence out at address [p]; every other cell holds
    [fill]. *)
Definition mem_of (fill : Z) (p : Z) (l : list Z) : mem :=
  λ a, if bool_decide (p ≤ a < p + Z.of_nat (length l))
       then default fill (l !! Z.to_nat (a - p)) else fill.

(** ** Counted loops *)

(** [for (i = lo; i < hi; i++)] and [for (i = lo; i <= hi; i++)]. *)
Definition range_lt (lo hi : Z) : list Z := seqZ lo (hi - lo).
Definition range_le (lo hi : Z) : list Z := seqZ lo (hi - lo + 1).

Definition for_each {S : Type} (l : list Z) (body : Z → S → S) (s : S) : S :=
  foldl (λ s i, body i s) s l.

Fixpoint for_eachM {I S : Type} (l : list I) (body : I → S → option S) (s : S)
  : option S :=
  match l with
  | [] => Some s
  | i :: l' => s' ← body i s; for_eachM l' body s'
  end.

(** ** The sequential backend
    [apply_box_blur_color], serial_c_box_blur_proposal_IT23400986.c. *)

Module Serial.

(** The two window loops over [m] and [n], accumulating [(sum, count)]. *)
Definition window (mm : mem) (input width height channels k_offset x y c : Z)
  : Z * Z :=
  for_each (range_le (ineg k_offset) k_offset) (λ m acc,
    for_each (range_le (ineg k_offset) k_offset) (λ n '(sum, count),
      let nx := iadd x n in
      let ny := iadd y m in
      if (0 <=? nx) && (nx <? width) && (0 <=? ny) && (ny <? height) then
        let src_idx :=
          iadd (imul (iadd (imul ny width) nx) channels)
               (if channels =? 1 then 0 else c) in
        (iadd sum (load mm input src_idx), iadd count 1)
      else (sum, count)) acc) (0, 0).

Definition apply_box_blur_color
    (mm : mem) (input output_rgb width height channels kernel_size : Z)
  : option mem :=
  let k_offset := idiv kernel_size 2 in
  for_eachM (range_lt 0 height) (λ y mm,
    for_eachM (range_lt 0 width) (λ x mm,
      for_eachM (range_lt 0 3) (λ c mm,
        let '(sum, count) := window mm input width height channels k_offset x y c in
        let dst_idx := iadd (imul (iadd (imul y width) x) 3) c in
        if count =? 0 then None
        else Some (store mm output_rgb dst_idx (idiv sum count))) mm) mm) mm.

End Serial.

(** ** The shared-memory backend
    [apply_box_blur_openmp].  The pragma [omp parallel for collapse(2)]
    hands the iterations [(y, x)] of the collapsed nest to the threads; an
    execution runs every iteration once, in an order the runtime picks.
    That order is the parameter [sched]. *)

Module OpenMP.

Definition window (mm : mem) (input width height channels k_offset x y c : Z)
  : Z * Z :=
  for_each (range_le (ineg k_offset) k_offset) (λ m acc,
    for_each (range_le (ineg k_offset) k_offset) (λ n '(sum, count),
      let nx := iadd x n in
      let ny := iadd y m in
      if (0 <=? nx) && (nx <? width) && (0 <=? ny) && (ny <? height) then
        let src_idx :=
          iadd (imul (iadd (imul ny width) nx) channels)
               (if channels =? 1 then 0 else c) in
        (iadd sum (load mm input src_idx), iadd count 1)
      else (sum, count)) acc) (0, 0).

(** The iteration space of the collapsed loops, in program order. *)
Definition collapsed (height width : Z) : list (Z * Z) :=
  y ← range_lt 0 height; x ← range_lt 0 width; [(y, x)].

(** A schedule runs each iteration of the collapsed nest exactly once. *)
Definition schedule (height width : Z) (sched : list (Z * Z)) : Prop :=
  sched ≡ₚ collapsed height width.

Definition apply_box_blur_openmp (sched : list (Z * Z))
    (mm : mem) (input output_rgb width height channels kernel_size : Z)
  : option mem :=
  let k_offset := idiv kernel_size 2 in
  for_eachM sched (λ '(y, x) mm,
    for_eachM (range_lt 0 3) (λ c mm,
      let '(sum, count) := window mm input width height channels k_offset x y c in
      let dst_idx := iadd (imul (iadd (imul y width) x) 3) c in
      if count =? 0 then None
      else Some (store mm output_rgb dst_idx (idiv sum count))) mm) mm.

End OpenMP.

(** ** The distributed backend, mpi_box_blur.c *)

Module MPI.

Definition window (mm : mem) (input width height channels k_offset x y c : Z)
  : Z * Z :=
  for_each (range_le (ineg k_offset) k_offset) (λ m acc,
    for_each (range_le (ineg k_offset) k_offset) (λ n '(sum, count),
      let nx := iadd x n in
      let ny := iadd y m in
      if (0 <=? nx) && (nx <? width) && (0 <=? ny) && (ny <? height) then
        let src_idx :=
          iadd (imul (iadd (imul ny width) nx) channels)
               (if channels =? 1 then 0 else c) in
        (iadd sum (load mm input src_idx), iadd count 1)
      else (sum, count)) acc) (0, 0).

Definition apply_box_blur_mpi
    (mm : mem) (input output_rgb width height channels kernel_size
     start_row end_row : Z)
  : option mem :=
  let k_offset := idiv kernel_size 2 in
  for_eachM (range_lt start_row end_row) (λ y mm,
    for_eachM (range_lt 0 width) (λ x mm,
      for_eachM (range_lt 0 3) (λ c mm,
        let '(sum, count) := window mm input width height channels k_offset x y c in
        let local_y := isub y start_row in
        let dst_idx := iadd (imul (iadd (imul local_y width) x) 3) c in
        if count =? 0 then None
        else Some (store mm output_rgb dst_idx (idiv sum count))) mm) mm) mm.

(** [main], lines 87-90: every process derives its rows from its rank. *)
Definition rows_per_process (height size : Z) : Z := idiv height size.
Definition start_row (height size rank : Z) : Z :=
  imul rank (rows_per_process height size).
Definition end_row (height size rank : Z) : Z :=
  if rank =? isub size 1 then height
  else iadd (start_row height size rank) (rows_per_process height size).
Definition my_rows (height size rank : Z) : Z :=
  isub (end_row height size rank) (start_row height size rank).

(** The partition table: the row range of every rank, in rank order. *)
Definition partition (height size : Z) : list (Z * Z) :=
  (λ rank, (start_row height size rank, end_row height size rank))
    <$> range_lt 0 size.

(** [main], lines 133-138: root recomputes every rank's byte count and
    displacement. *)
Definition recv_count (width height size i : Z) : Z :=
  let i_start := imul i (rows_per_process height size) in
  let i_end := if i =? isub size 1 then height
               else iadd i_start (rows_per_process height size) in
  imul (imul (isub i_end i_start) width) 3.
Definition displ (width height size i : Z) : Z :=
  let i_start := imul i (rows_per_process height size) in
  imul (imul i_start width) 3.
Definition recv_counts (width height size : Z) : list Z :=
  recv_count width height size <$> range_lt 0 size.
Definition displs (width height size : Z) : list Z :=
  displ width height size <$> range_lt 0 size.

(** A process has an address space of its own, with its copy of the image
    and its partial output. *)
Record process : Type := Process {
  memory : mem;
  input_rgb : Z;
  my_output : Z
}.

(** [MPI_Bcast] of [count] bytes of root's image into a process. *)
Definition MPI_Bcast (count : Z) (root p : process) : process :=
  {| memory := copy_bytes (memory root) (input_rgb root)
                          (memory p) (input_rgb p) count;
     input_rgb := input_rgb p;
     my_output := my_output p |}.

(** What a process hands to the gather: its address space, the send buffer
    and the send count. *)
Abbreviation contribution := (mem * Z * Z)%type.

(** [MPI_Gatherv] at root: the bytes of rank [i] land at
    [recvbuf + displs[i]]; a message longer than [recvcounts[i]] is a
    truncation error, and so is a missing count or displacement. *)
Fixpoint MPI_Gatherv (sends : list contribution) (recvcounts displs : list Z)
    (root : mem) (recvbuf : Z) : option mem :=
  match sends, recvcounts, displs with
  | [], _, _ => Some root
  | (sm, sendbuf, sendcount) :: sends', rc :: rcs, d :: ds =>
      if (sendcount <? 0) || (rc <? sendcount) then None
      else MPI_Gatherv sends' rcs ds
             (copy_bytes sm sendbuf root (recvbuf + d) sendcount) recvbuf
  | _, _, _ => None
  end.

(** [main], lines 87-90 and 123, on one process. *)
Definition rank_compute (width height channels kernel_size size rank : Z)
    (p : process) : option contribution :=
  mm ← apply_box_blur_mpi (memory p) (input_rgb p) (my_output p)
         width height channels kernel_size
         (start_row height size rank) (end_row height size rank);
  Some (mm, my_output p, imul (imul (my_rows height size rank) width) 3).

Fixpoint compute_all (width height channels kernel_size size rank : Z)
    (procs : list process) : option (list contribution) :=
  match procs with
  | [] => Some []
  | p :: ps =>
      r ← rank_compute width height channels kernel_size size rank p;
      rs ← compute_all width height channels kernel_size size (rank + 1) ps;
      Some (r :: rs)
  end.

(** [main], lines 87-143: broadcast, blur of the own rows, gather.  The
    head of [procs] is rank 0, the root; the result is root's memory. *)
Definition main (procs : list process) (output_rgb_root : Z)
    (width height channels kernel_size : Z) : option mem :=
  let size := Z.of_nat (length procs) in
  root ← head procs;
  let procs := MPI_Bcast (imul (imul width height) channels) root <$> procs in
  sends ← compute_all width height channels kernel_size size 0 procs;
  '(root_mem, _, _) ← head sends;
  MPI_Gatherv sends (recv_counts width height size) (displs width height size)
    root_mem output_rgb_root.

End MPI.

(** ** The accelerator backends *)

(** A device runs the work-items of a launch in an order of its choosing;
    that order is the parameter [order] of a launch. *)

Module OpenCL.

(** [box_blur_kernel] of [kernel_source], opencl_box_blur.c lines 20-49,
    for the work-item with global ids [gid0], [gid1]. *)
Definition window (mm : mem) (input width height channels k_offset x y c : Z)
  : Z * Z :=
  for_each (range_le (ineg k_offset) k_offset) (λ m acc,
    for_each (range_le (ineg k_offset) k_offset) (λ n '(sum, count),
      let ix := iadd x n in
      let iy := iadd y m in
      if (0 <=? ix) && (ix <? width) && (0 <=? iy) && (iy <? height) then
        let src_idx :=
          iadd (imul (iadd (imul iy width) ix) channels)
               (if channels =? 1 then 0 else c) in
        (iadd sum (load mm input src_idx), iadd count 1)
      else (sum, count)) acc) (0, 0).

Definition box_blur_kernel (gid0 gid1 : Z)
    (mm : mem) (input output width height channels kernel_size : Z)
  : option mem :=
  let x := wrap gid0 in
  let y := wrap gid1 in
  if (width <=? x) || (height <=? y) then Some mm
  else
    let k_offset := idiv kernel_size 2 in
    for_eachM (range_lt 0 3) (λ c mm,
      let '(sum, count) := window mm input width height channels k_offset x y c in
      let dst_idx := iadd (imul (iadd (imul y width) x) 3) c in
      if count =? 0 then None
      else Some (store mm output dst_idx (idiv sum count))) mm.

(** The work-items of a two-dimensional range. *)
Definition work_items (global0 global1 : Z) : list (Z * Z) :=
  g1 ← range_lt 0 global1; g0 ← range_lt 0 global0; [(g0, g1)].

(** [clEnqueueNDRangeKernel] with an explicit work-group size: OpenCL 1.2
    rejects a global size that the work-group size does not divide
    ([CL_INVALID_WORK_GROUP_SIZE]); [check_error] then exits. *)
Definition clEnqueueNDRangeKernel (order : list (Z * Z))
    (global0 global1 local0 local1 : Z)
    (kernel : Z → Z → mem → option mem) (dev : mem) : option mem :=
  if (global0 `mod` local0 =? 0) && (global1 `mod` local1 =? 0)
  then for_eachM order (λ '(g0, g1) d, kernel g0 g1 d) dev
  else None.

(** [apply_box_blur_opencl]: steps 7 to 11.  [host] and [dev] are the host
    and the device address space, [d_input] and [d_output] the buffers
    [clCreateBuffer] returned.  The result is the host memory. *)
Definition apply_box_blur_opencl (order : list (Z * Z)) (host dev : mem)
    (input_image output_image d_input d_output : Z)
    (width height channels kernel_size : Z) : option mem :=
  let image_size := imul (imul width height) channels in
  let output_size := imul (imul width height) 3 in
  let dev := copy_bytes host input_image dev d_input image_size in
  dev ← clEnqueueNDRangeKernel order width height 16 16
           (λ g0 g1 d, box_blur_kernel g0 g1 d d_input d_output
                         width height channels kernel_size) dev;
  Some (copy_bytes dev d_output host output_image output_size).

End OpenCL.

Module CUDA.

(** [box_blur_kernel], the CUDA source, lines 11-37. *)
Definition window (mm : mem) (input width height channels halfKernelSize x y c : Z)
  : Z * Z :=
  for_each (range_le (ineg halfKernelSize) halfKernelSize) (λ ky acc,
    for_each (range_le (ineg halfKernelSize) halfKernelSize) (λ kx '(sum, count),
      let ix := iadd x kx in
      let iy := iadd y ky in
      if (0 <=? ix) && (ix <? width) && (0 <=? iy) && (iy <? height) then
        let src_idx :=
          iadd (imul (iadd (imul iy width) ix) channels)
               (if channels =? 1 then 0 else c) in
        (iadd sum (load mm input src_idx), iadd count 1)
      else (sum, count)) acc) (0, 0).

Definition box_blur_kernel
    (blockIdx_x blockIdx_y blockDim_x blockDim_y threadIdx_x threadIdx_y : Z)
    (mm : mem) (input output width height channels kernelSize : Z)
  : option mem :=
  let x := wrap (blockIdx_x * blockDim_x + threadIdx_x) in
  let y := wrap (blockIdx_y * blockDim_y + threadIdx_y) in
  if (x <? width) && (y <? height) then
    let halfKernelSize := idiv kernelSize 2 in
    for_eachM (range_lt 0 3) (λ c mm,
      let '(sum, count) :=
        window mm input width height channels halfKernelSize x y c in
      let dst_idx := iadd (imul (iadd (imul y width) x) 3) c in
      if count =? 0 then None
      else Some (store mm output dst_idx (idiv sum count))) mm
  else Some mm.

(** [gridSize]: [(width + blockSize.x - 1) / blockSize.x], unsigned. *)
Definition grid_dim (extent blockDim : Z) : Z :=
  ((extent + blockDim - 1) `mod` 4294967296) `div` blockDim.

(** The threads of a launch: block indices and thread indices. *)
Definition threads (gridDim_x gridDim_y blockDim_x blockDim_y : Z)
  : list (Z * Z * Z * Z) :=
  by_ ← range_lt 0 gridDim_y; bx ← range_lt 0 gridDim_x;
  ty ← range_lt 0 blockDim_y; tx ← range_lt 0 blockDim_x;
  [(bx, by_, tx, ty)].

(** The launch configurations a device accepts: no dimension is zero, a
    block has at most 1024 threads, a grid at most [2^31 - 1] blocks along
    x and 65535 along y.  A launch with another configuration fails and
    runs no thread. *)
Definition launch_accepted (gridDim_x gridDim_y blockDim_x blockDim_y : Z)
  : bool :=
  (1 <=? gridDim_x) && (gridDim_x <=? 2147483647)
  && (1 <=? gridDim_y) && (gridDim_y <=? 65535)
  && (1 <=? blockDim_x) && (1 <=? blockDim_y)
  && (blockDim_x * blockDim_y <=? 1024).

(** [cuda_box_blur]: copy in, launch, copy out.  [dim3] holds unsigned
    values; a block size of zero makes the host divide by zero.  No result
    of a CUDA call is looked at (lines 46-59): after a launch that failed
    the copy out delivers the device buffer as it was.  [order] is the
    order in which the threads of an accepted launch ran. *)
Definition cuda_box_blur (order : list (Z * Z * Z * Z)) (host dev : mem)
    (h_input h_output d_input d_output : Z)
    (width height channels kernelSize blockDim : Z) : option mem :=
  let inputSize := imul (imul width height) channels in
  let outputSize := imul (imul width height) 3 in
  let dev := copy_bytes host h_input dev d_input inputSize in
  let blockSize := blockDim `mod` 4294967296 in
  if blockSize =? 0 then None
  else
    let gridSize_x := grid_dim width blockSize in
    let gridSize_y := grid_dim height blockSize in
    dev ← (if launch_accepted gridSize_x gridSize_y blockSize blockSize
           then for_eachM order (λ '(bx, by_, tx, ty) d,
                  box_blur_kernel bx by_ blockSize blockSize tx ty d
                    d_input d_output width height channels kernelSize) dev
           else Some dev);
    Some (copy_bytes dev d_output host h_output outputSize).

End CUDA.

(** ** The specification's vocabulary *)

(** A pixel buffer that exists in memory: positive extents, one of the
    three channel layouts, and byte sizes that are [int] values (the
    sources compute [width * height * channels] and [width * height * 3]
    in [int]). *)
Definition valid_dims (width height channels : Z) : Prop :=
  0 < width ∧ 0 < height ∧ (channels = 1 ∨ channels = 3 ∨ channels = 4) ∧
  width * height * channels ≤ INT_MAX ∧ width * height * 3 ≤ INT_MAX.

(** The samples of the buffer at [input] are bytes. *)
Definition is_image (m : mem) (input n : Z) : Prop :=
  ∀ i, 0 ≤ i < n → 0 ≤ load m input i ≤ 255.

(** Two address ranges that share no address. *)
Definition disjoint (p n q k : Z) : Prop := p + n ≤ q ∨ q + k ≤ p.

(** The offsets [-radius .. radius] and the window they span around
    [(x, y)], row by row. *)
Definition offsets (radius : Z) : list Z := range_le (- radius) radius.
Definition neighbors (x y radius : Z) : list (Z * Z) :=
  m ← offsets radius; (λ n, (x + n, y + m)) <$> offsets radius.

Definition inside (width height : Z) (p : Z * Z) : Prop :=
  (0 ≤ p.1 < width) ∧ (0 ≤ p.2 < height).

#[global] Instance inside_dec width height p : Decision (inside width height p).
Proof. unfold inside. apply _. Defined.

(** The window coordinates that lie inside the image. *)
Definition valid_neighbors (width height x y radius : Z) : list (Z * Z) :=
  filter (inside width height) (neighbors x y radius).

(** The input sample of channel [c] (channel 0 of a single-channel image)
    at a coordinate. *)
Definition sample (img : Z → Z) (width channels c : Z) (p : Z * Z) : Z :=
  img ((p.2 * width + p.1) * channels + (if channels =? 1 then 0 else c)).

Definition sumZ (l : list Z) : Z := foldr Z.add 0 l.

Definition window_sum (img : Z → Z) (width height channels x y radius c : Z) : Z :=
  sumZ (sample img width channels c <$> valid_neighbors width height x y radius).
Definition window_count (width height x y radius : Z) : Z :=
  Z.of_nat (length (valid_neighbors width height x y radius)).

(** The average the specification asks for: the sum over the valid
    neighbours divided by their number, truncated toward zero. *)
Definition box_average (img : Z → Z) (width height channels x y radius c : Z) : Z :=
  window_sum img width height channels x y radius c
    ÷ window_count width height x y radius.

(** The byte the kernels store: the accumulator is an [int]. *)
Definition blur_byte (img : Z → Z) (width height channels x y radius c : Z) : Z :=
  uchar (idiv (wrap (window_sum img width height channels x y radius c))
              (window_count width height x y radius)).

(** The address of byte [c] of pixel [(x, row)] of an RGB buffer. *)
Definition cell (out width row x c : Z) : Z := out + ((row * width + x) * 3 + c).

(** Row ranges that tile [0, height) exactly once: every range lies in
    [0, height] and every row belongs to exactly one of them. *)
Definition covering (ranges : list (Z * Z)) (row : Z) : list (Z * Z) :=
  filter (λ r, r.1 ≤ row < r.2) ranges.
Definition tiles (height : Z) (ranges : list (Z * Z)) : Prop :=
  Forall (λ r, 0 ≤ r.1 ≤ r.2 ∧ r.2 ≤ height) ranges ∧
  ∀ row, 0 ≤ row < height → length (covering ranges row) = 1%nat.

(** ** The vocabulary of the proofs *)

(** One iteration of the innermost loop, as all five sources write it. *)
Definition window_step (mm : mem) (input width height channels x y c m n : Z)
    (acc : Z * Z) : Z * Z :=
  let '(sum, count) := acc in
  let nx := iadd x n in
  let ny := iadd y m in
  if (0 <=? nx) && (nx <? width) && (0 <=? ny) && (ny <? height) then
    let src_idx :=
      iadd (imul (iadd (imul ny width) nx) channels)
           (if channels =? 1 then 0 else c) in
    (iadd sum (load mm input src_idx), iadd count 1)
  else (sum, count).

Definition in_span (lo hi base : Z) (d : Z) : Prop := lo ≤ base + d < hi.

#[global] Instance in_span_dec lo hi base d : Decision (in_span lo hi base d).
Proof. unfold in_span. apply _. Defined.

(** The offsets that keep one coordinate inside [0, extent). *)
Definition span_count (extent base radius : Z) : Z :=
  Z.of_nat (length (filter (in_span 0 extent base) (offsets radius))).

(** The loop over [c]: what every backend does for one pixel [(x, y)],
    writing to row [row] of its output buffer. *)
Definition pixel_step (input out width height channels k x y row : Z) (mm : mem)
  : option mem :=
  for_eachM (range_lt 0 3) (λ c mm,
    let '(sum, count) := Serial.window mm input width height channels k x y c in
    let dst_idx := iadd (imul (iadd (imul row width) x) 3) c in
    if count =? 0 then None
    else Some (store mm out dst_idx (idiv sum count))) mm.

(** Two memories hold the same [n] bytes at [p]. *)
Definition agree_on (m1 m2 : mem) (p n : Z) : Prop :=
  ∀ i, 0 ≤ i < n → m1 (p + i) = m2 (p + i).

(** [m'] is [m0] after the pixels of [L] were blurred into the buffer at
    [out], whose first row is image row [row0]. *)
Record blurred (m0 m' : mem) (input out width height channels k row0 : Z)
    (L : list (Z * Z)) : Prop := Blurred {
  blurred_value : ∀ x y c, (x, y) ∈ L → 0 ≤ c < 3 →
    m' (cell out width (y - row0) x c)
    = blur_byte (load m0 input) width height channels x y k c;
  blurred_frame : ∀ a,
    (∀ x y c, (x, y) ∈ L → 0 ≤ c < 3 → a ≠ cell out width (y - row0) x c) →
    m' a = m0 a
}.

(** The pixels a backend may be asked to blur into this buffer. *)
Definition pixel_ok (width row0 rows : Z) (p : Z * Z) : Prop :=
  0 ≤ p.1 < width ∧ row0 ≤ p.2 < row0 + rows.

(** [m'] is [m0] with the [rows] image rows from [row0] on blurred into
    the buffer at [out], and nothing else changed. *)
Record filled (m0 m' : mem) (input out width height channels k row0 rows : Z)
  : Prop := Filled {
  filled_value : ∀ x y c,
    0 ≤ x < width → row0 ≤ y < row0 + rows → 0 ≤ c < 3 →
    m' (cell out width (y - row0) x c)
    = blur_byte (load m0 input) width height channels x y k c;
  filled_frame : ∀ a, ¬ (out ≤ a < out + width * rows * 3) → m' a = m0 a
}.

(** The pixels of rows [row0 .. row0 + rows), as the loops over [y] and
    [x] enumerate them. *)
Definition row_major (width row0 rows : Z) : list (Z * Z) :=
  y ← range_lt row0 (row0 + rows); (λ x, (y, x)) <$> range_lt 0 width.

Definition swap (p : Z * Z) : Z * Z := (p.2, p.1).

(** The rank that owns a row. *)
Definition owner (height size row : Z) : Z :=
  if decide (height `div` size = 0) then size - 1
  else Z.min (row `div` (height `div` size)) (size - 1).

(** The bytes of contribution [i] land in [place recvbuf d sc]. *)
Definition place (recvbuf d sc : Z) (a : Z) : Prop :=
  recvbuf + d ≤ a < recvbuf + d + sc.

(** What root holds after a gather: outside every place nothing changed,
    and a place that no later contribution overlaps holds the bytes of
    its contribution. *)
Record gathered (sends : list MPI.contribution) (displs : list Z)
    (root root' : mem) (recvbuf : Z) : Prop := Gathered {
  gathered_frame : ∀ a,
    (∀ i sm sb sc d, sends !! i = Some (sm, sb, sc) → displs !! i = Some d →
       ¬ place recvbuf d sc a) →
    root' a = root a;
  gathered_value : ∀ a i sm sb sc d,
    sends !! i = Some (sm, sb, sc) → displs !! i = Some d →
    place recvbuf d sc a →
    (∀ j sm' sb' sc' d', (i < j)%nat →
       sends !! j = Some (sm', sb', sc') → displs !! j = Some d' →
       ¬ place recvbuf d' sc' a) →
    root' a = sm (sb + (a - (recvbuf + d)))
}.

(** The buffers of a process do not overlap: its image and the partial
    output of the rows of its rank. *)
Definition process_ok (width height channels size rank : Z) (p : MPI.process)
  : Prop :=
  disjoint (MPI.input_rgb p) (width * height * channels) (MPI.my_output p)
    (width * (MPI.end_row height size rank - MPI.start_row height size rank) * 3).

(** A process group: at most [INT_MAX] processes with buffers that do not
    overlap, and at root an output buffer apart from its image. *)
Definition group_ok (width height channels : Z) (procs : list MPI.process)
    (output_rgb_root : Z) : Prop :=
  Z.of_nat (length procs) ≤ INT_MAX
  ∧ (∀ i p, procs !! i = Some p →
       process_ok width height channels (Z.of_nat (length procs)) (Z.of_nat i) p)
  ∧ (∀ root, head procs = Some root →
       disjoint (MPI.input_rgb root) (width * height * channels)
         output_rgb_root (width * height * 3)).

(** The 4 x 4 single-channel image with samples 0 .. 15. *)
Definition scenario_input : list Z := seqZ 0 16.

(** Two processes on the 4 x 4 scenario image. *)
Definition scenario_root : MPI.process :=
  MPI.Process (mem_of 0 0 scenario_input) 0 100.

Definition scenario_worker : MPI.process := MPI.Process (λ _, 0) 0 100.

(** Five processes for the two rows of a 1 x 2 image. *)
Definition tiny_process (fill : Z) : MPI.process := MPI.Process (λ _, fill) 0 100.

Definition tiny_group : list MPI.process :=
  [tiny_process 9; tiny_process 0; tiny_process 0; tiny_process 0; tiny_process 0].

(** A 16 x 16 single-channel image with samples 0 .. 255, and two
    processes on it. *)
Definition ramp_input : list Z := seqZ 0 256.

Definition ramp_root : MPI.process :=
  MPI.Process (mem_of 0 0 ramp_input) 0 1000.

Definition ramp_worker : MPI.process := MPI.Process (λ _, 0) 0 1000.

(** A 2 x 1 RGBA image and a second one with another alpha channel. *)
Definition rgba_a : list Z := [10; 20; 30; 255; 40; 50; 60; 255].

Definition rgba_b : list Z := [10; 20; 30; 0; 40; 50; 60; 128].

(** ** The proposal's 3x3 convolution
    [initialize_image], [serial_convolution] and the first [main] of
    serial_c_box_blur_proposal_IT23400986.c.  The images are the static
    arrays [int input_image[HEIGHT][WIDTH]] and [output_image]; an access
    outside an array is undefined behaviour, [None] here.  The values the
    calls of the C function [rand] return are the sequence [rand]. *)

Module Proposal.

Definition WIDTH : Z := 1024.
Definition HEIGHT : Z := 1024.
Definition K_SIZE : Z := 3.

Definition image : Type := Z → Z → Z.

Definition in_array (r c : Z) : bool :=
  (0 <=? r) && (r <? HEIGHT) && (0 <=? c) && (c <? WIDTH).

Definition array_get (a : image) (r c : Z) : option Z :=
  if in_array r c then Some (a r c) else None.
Definition array_set (a : image) (r c v : Z) : option image :=
  if in_array r c
  then Some (λ r' c', if bool_decide (r' = r ∧ c' = c) then v else a r' c')
  else None.

Definition kernel : list (list Z) := [[1; 1; 1]; [1; 1; 1]; [1; 1; 1]].
Definition kernel_get (ki kj : Z) : option Z :=
  if (0 <=? ki) && (0 <=? kj)
  then row ← kernel !! Z.to_nat ki; row !! Z.to_nat kj
  else None.
Definition kernel_factor : Z := 9.

(** The loop state carries the number of calls of [rand] made so far. *)
Definition initialize_image (rand : Z → Z) (input_image : image) : option image :=
  fst <$> for_eachM (range_lt 0 HEIGHT) (λ i st,
    for_eachM (range_lt 0 WIDTH) (λ j '(img, calls),
      img' ← array_set img i j (Z.rem (rand calls) 256);
      Some (img', calls + 1)) st) (input_image, 0).

Definition serial_convolution (input_image output_image : image) : option image :=
  let k_center := idiv K_SIZE 2 in
  for_eachM (range_lt k_center (isub HEIGHT k_center)) (λ i out,
    for_eachM (range_lt k_center (isub WIDTH k_center)) (λ j out,
      sum ← for_eachM (range_lt 0 K_SIZE) (λ ki sum,
        for_eachM (range_lt 0 K_SIZE) (λ kj sum,
          let r := isub (iadd i ki) k_center in
          let c := isub (iadd j kj) k_center in
          p ← array_get input_image r c;
          w ← kernel_get ki kj;
          Some (iadd sum (imul p w))) sum) 0;
      if kernel_factor =? 0 then None
      else array_set out i j (idiv sum kernel_factor)) out) output_image.

(** Static arrays start out zeroed. *)
Definition zeroed : image := λ _ _, 0.

Definition main (rand : Z → Z) : option image :=
  input_image ← initialize_image rand zeroed;
  serial_convolution input_image zeroed.

End Proposal.

(** ** The test image generators, generate_test_image.c *)

Module Generate.

Definition generate_gradient (m : mem) (image width height : Z) : mem :=
  for_each (range_lt 0 height) (λ i m,
    for_each (range_lt 0 width) (λ j m,
      store m image (iadd (imul i width) j) (Z.rem (iadd i j) 256)) m) m.

Definition generate_checkerboard (m : mem) (image width height square_size : Z)
  : option mem :=
  for_eachM (range_lt 0 height) (λ i m,
    for_eachM (range_lt 0 width) (λ j m,
      if square_size =? 0 then None
      else if Z.rem (iadd (idiv i square_size) (idiv j square_size)) 2 =? 0
      then Some (store m image (iadd (imul i width) j) 255)
      else Some (store m image (iadd (imul i width) j) 0)) m) m.

Definition generate_circle (m : mem) (image width height : Z) : mem :=
  let cx := idiv width 2 in
  let cy := idiv height 2 in
  let radius := idiv (if width <? height then width else height) 3 in
  for_each (range_lt 0 height) (λ i m,
    for_each (range_lt 0 width) (λ j m,
      let dx := isub j cx in
      let dy := isub i cy in
      let dist_sq := iadd (imul dx dx) (imul dy dy) in
      if dist_sq <? imul radius radius
      then store m image (iadd (imul i width) j) 255
      else store m image (iadd (imul i width) j) 50) m) m.

(** The loop state carries the number of calls of [rand] made so far. *)
Definition generate_noise (rand : Z → Z) (m : mem) (image width height : Z) : mem :=
  fst (for_each (range_lt 0 height) (λ i st,
    for_each (range_lt 0 width) (λ j '(m, calls),
      (store m image (iadd (imul i width) j) (Z.rem (rand calls) 256),
       calls + 1)) st) (m, 0)).

End Generate.

(** ** Reading and writing 8-bit BMP files
    [read_image] and [write_image] of the image I/O unit.  A file is the
    list of its bytes; the packed header structs go to and from the file
    in the byte order of the machine, little-endian.  [fopen] and [malloc]
    can fail: whether the file could be opened, and the address [malloc]
    returns for a size, are parameters.  The results of [fwrite] and
    [fseek] are not looked at by the source; here they succeed. *)

Module BMP.

Definition NULL : Z := 0.

(** The [n] bytes of an integer, least significant first. *)
Definition le_bytes (n : Z) (v : Z) : list Z :=
  (λ i, (v ≫ (8 * i)) `mod` 256) <$> seqZ 0 n.
(** The unsigned integer a byte sequence holds. *)
Definition le_value (l : list Z) : Z := foldr (λ b acc, b + 256 * acc) 0 l.

Record BMPHeader := Header {
  header_type : Z;        (* uint16_t *)
  header_size : Z;        (* uint32_t *)
  header_reserved1 : Z;   (* uint16_t *)
  header_reserved2 : Z;   (* uint16_t *)
  header_offset : Z       (* uint32_t *)
}.

Record BMPInfoHeader := Info {
  info_size : Z;                (* uint32_t *)
  info_width : Z;               (* int32_t *)
  info_height : Z;              (* int32_t *)
  info_planes : Z;              (* uint16_t *)
  info_bits_per_pixel : Z;      (* uint16_t *)
  info_compression : Z;         (* uint32_t *)
  info_image_size : Z;          (* uint32_t *)
  info_x_pixels_per_meter : Z;  (* int32_t *)
  info_y_pixels_per_meter : Z;  (* int32_t *)
  info_colors_used : Z;         (* uint32_t *)
  info_important_colors : Z     (* uint32_t *)
}.

(** What [fwrite (&header, sizeof (BMPHeader), 1, file)] appends. *)
Definition header_bytes (h : BMPHeader) : list Z :=
  le_bytes 2 (header_type h) ++ le_bytes 4 (header_size h)
  ++ le_bytes 2 (header_reserved1 h) ++ le_bytes 2 (header_reserved2 h)
  ++ le_bytes 4 (header_offset h).
Definition info_bytes (i : BMPInfoHeader) : list Z :=
  le_bytes 4 (info_size i) ++ le_bytes 4 (info_width i)
  ++ le_bytes 4 (info_height i) ++ le_bytes 2 (info_planes i)
  ++ le_bytes 2 (info_bits_per_pixel i) ++ le_bytes 4 (info_compression i)
  ++ le_bytes 4 (info_image_size i) ++ le_bytes 4 (info_x_pixels_per_meter i)
  ++ le_bytes 4 (info_y_pixels_per_meter i) ++ le_bytes 4 (info_colors_used i)
  ++ le_bytes 4 (info_important_colors i).

(** The bytes [fread] delivers: up to [n] bytes from position [pos]. *)
Definition fread (file : list Z) (pos n : Z) : list Z :=
  take (Z.to_nat n) (drop (Z.to_nat pos) file).

Definition unsigned_at (file : list Z) (pos n : Z) : Z :=
  le_value (fread file pos n).
Definition signed_at (file : list Z) (pos n : Z) : Z :=
  wrap (le_value (fread file pos n)).

(** What [fread (&header, sizeof (BMPHeader), 1, file)] stores. *)
Definition header_of (file : list Z) (pos : Z) : BMPHeader :=
  Header (unsigned_at file pos 2) (unsigned_at file (pos + 2) 4)
         (unsigned_at file (pos + 6) 2) (unsigned_at file (pos + 8) 2)
         (unsigned_at file (pos + 10) 4).
Definition info_of (file : list Z) (pos : Z) : BMPInfoHeader :=
  Info (unsigned_at file pos 4) (signed_at file (pos + 4) 4)
       (signed_at file (pos + 8) 4) (unsigned_at file (pos + 12) 2)
       (unsigned_at file (pos + 14) 2) (unsigned_at file (pos + 16) 4)
       (unsigned_at file (pos + 20) 4) (signed_at file (pos + 24) 4)
       (signed_at file (pos + 28) 4) (unsigned_at file (pos + 32) 4)
       (unsigned_at file (pos + 36) 4).

(** Storing a byte sequence at an address. *)
Definition write_buf (m : mem) (p : Z) (l : list Z) : mem :=
  λ a, if bool_decide (p ≤ a < p + Z.of_nat (length l))
       then default 0 (l !! Z.to_nat (a - p)) else m a.

(** [for (int i = height - 1; i >= 0; i--)]. *)
Definition rows_down (height : Z) : list Z := reverse (range_le 0 (isub height 1)).

(** [(width + 3) & (~3)]. *)
Definition row_size_of (width : Z) : Z := Z.land (iadd width 3) (Z.lnot 3).

(** The row loop of [read_image]: [Some (true, _)] when every row was
    read, [Some (false, _)] when the file ended early, [None] for a read
    into memory the buffer does not have. *)
Fixpoint read_rows (file : list Z) (image width row_size : Z) (rows : list Z)
    (pos : Z) (m : mem) : option (bool * mem) :=
  match rows with
  | [] => Some (true, m)
  | i :: rows' =>
      if width <? 0
      then (if bool_decide (drop (Z.to_nat pos) file = []) then Some (false, m)
            else None)
      else
        let got := fread file pos width in
        let m' := write_buf m (image + imul i width) got in
        if bool_decide (Z.of_nat (length got) ≠ width) then Some (false, m')
        else read_rows file image width row_size rows'
               (pos + width + isub row_size width) m'
  end.

(** The value returned, the final contents of [*width] and [*height], and
    the memory. *)
Record result := Result {
  returned : Z; width_out : Z; height_out : Z; memory : mem
}.

Definition read_image (file : option (list Z)) (malloc : Z → Z) (m : mem)
    (width height : Z) : option result :=
  match file with
  | None => Some (Result NULL width height m)
  | Some file =>
    if Z.of_nat (length (fread file 0 14)) <? 14
    then Some (Result NULL width height m)
    else
      let header := header_of file 0 in
      if bool_decide (header_type header ≠ 19778)
      then Some (Result NULL width height m)
      else if Z.of_nat (length (fread file 14 40)) <? 40
      then Some (Result NULL width height m)
      else
        let info := info_of file 14 in
        let width := info_width info in
        let height := info_height info in
        if bool_decide (info_bits_per_pixel info ≠ 8)
        then Some (Result NULL width height m)
        else
          let row_size := row_size_of width in
          let image := malloc (imul width height) in
          if bool_decide (image = NULL)
          then Some (Result NULL width height m)
          else
            match read_rows file image width row_size (rows_down height)
                    (54 + 256 * 4) m with
            | Some (complete, m') =>
                Some (Result (if complete then image else NULL) width height m')
            | None => None
            end
  end.

(** The file the call leaves behind ([None] when it could not be
    created) and the value returned. *)
Definition write_image (fopen : bool) (m : mem) (image width height : Z)
  : option (Z * option (list Z)) :=
  if negb fopen then Some (-1, None)
  else
    let row_size := row_size_of width in
    let image_size := imul row_size height in
    let file_size := iadd (iadd 54 (imul 256 4)) image_size in
    let header := Header 19778 (file_size `mod` 4294967296) 0 0 (54 + 256 * 4) in
    let info := Info 40 width height 1 8 0 (image_size `mod` 4294967296)
                     2835 2835 256 256 in
    let file := header_bytes header ++ info_bytes info in
    let file := for_each (range_lt 0 256) (λ i file,
                  file ++ [uchar i; uchar i; uchar i; 0]) file in
    let pad_size := isub row_size width in
    file ← for_eachM (rows_down height) (λ i file,
      if width <? 0 then None
      else
        let file := file ++ read_buf m (image + imul i width) width in
        if 0 <? pad_size
        then (if 3 <? pad_size then None
              else Some (file ++ replicate (Z.to_nat pad_size) 0))
        else Some file) file;
    Some (0, Some file).

End BMP.

(** ** The PGM reader and writer, image_io_pgm_old.c
    A stream is the list of the bytes not read yet; [ungetc] puts one
    back in front.  As for the BMP unit, whether [fopen] succeeds and what
    [malloc] returns are parameters, writes to an open file succeed, and
    [None] is undefined behaviour. *)

Module PGM.

Definition EOF : Z := -1.
Definition NULL : Z := 0.

(** The bytes of a string literal. *)
Definition bytes (s : string) : list Z :=
  (λ a, Z.of_N (Ascii.N_of_ascii a)) <$> String.list_ascii_of_string s.

(** The source compares with ['\\n'], ['\\t'] and ['\\r']: character
    constants of two characters, a backslash and a letter.  Their value
    is the compiler's choice; GCC's is 256 times the first character plus
    the second. *)
Definition backslash_t : Z := 92 * 256 + 116.
Definition backslash_n : Z := 92 * 256 + 110.
Definition backslash_r : Z := 92 * 256 + 114.

Definition isspace (c : Z) : bool := (c =? 32) || ((9 <=? c) && (c <=? 13)).
Definition isdigit (c : Z) : bool := (48 <=? c) && (c <=? 57).

(** The white space every [fscanf] conversion skips first. *)
Fixpoint skip_space (s : list Z) : list Z :=
  match s with
  | c :: s' => if isspace c then skip_space s' else s
  | [] => []
  end.

(** [%2s]: at most [n] characters up to the next white space. *)
Fixpoint take_word (n : nat) (s : list Z) : list Z * list Z :=
  match n, s with
  | S n', c :: s' =>
      if isspace c then ([], s)
      else let '(word, rest) := take_word n' s' in (c :: word, rest)
  | _, _ => ([], s)
  end.

(** The C string an array of characters holds: up to the first zero. *)
Fixpoint c_string (word : list Z) : list Z :=
  match word with
  | c :: word' => if c =? 0 then [] else c :: c_string word'
  | [] => []
  end.

(** [while (ch != '\\n' && ch != EOF) ch = fgetc (file);] *)
Fixpoint skip_comment (s : list Z) (ch : Z) : Z * list Z :=
  if negb ((ch =? backslash_n) || (ch =? EOF)) then
    match s with
    | [] => (EOF, [])
    | c :: s' => skip_comment s' c
    end
  else (ch, s).

(** The [do ... while] loop over white space and comments; every
    iteration reads a character or ends the loop, so [fuel] above the
    length of the stream never runs out. *)
Fixpoint skip_header (fuel : nat) (s : list Z) : option (Z * list Z) :=
  match fuel with
  | O => None
  | S fuel' =>
      let '(ch, s) := match s with [] => (EOF, []) | c :: s' => (c, s') end in
      let '(ch, s) := if ch =? 35 then skip_comment s ch else (ch, s) in
      if (ch =? 32) || (ch =? backslash_t) || (ch =? backslash_n)
         || (ch =? backslash_r) || (ch =? 35)
      then skip_header fuel' s
      else Some (ch, s)
  end.

(** [%d]: white space, an optional sign, digits.  A value that does not
    fit an [int] is undefined behaviour. *)
Inductive scanned : Type :=
  | Matched (value : Z) (rest : list Z)
  | Mismatch
  | Overflow.

Fixpoint scan_digits (s : list Z) (acc : Z) : Z * list Z :=
  match s with
  | c :: s' => if isdigit c then scan_digits s' (10 * acc + (c - 48)) else (acc, s)
  | [] => (acc, [])
  end.

Definition scan_int (s : list Z) : scanned :=
  let s := skip_space s in
  let '(negative, s) :=
    match s with
    | c :: s' => if c =? 45 then (true, s') else if c =? 43 then (false, s')
                 else (false, s)
    | [] => (false, s)
    end in
  match s with
  | c :: _ =>
      if isdigit c then
        let '(value, rest) := scan_digits s 0 in
        let value := if negative then - value else value in
        if bool_decide (in_int value) then Matched value rest else Overflow
      else Mismatch
  | [] => Mismatch
  end.

(** [while (fgetc (file) != '\n' && !feof (file));] *)
Fixpoint skip_line (s : list Z) : list Z :=
  match s with
  | c :: s' => if c =? 10 then s' else skip_line s'
  | [] => []
  end.

(** Storing a byte sequence at an address. *)
Definition write_buf (m : mem) (p : Z) (l : list Z) : mem :=
  λ a, if bool_decide (p ≤ a < p + Z.of_nat (length l))
       then default 0 (l !! Z.to_nat (a - p)) else m a.

(** The loop of the ASCII format: [Some (false, _)] when a pixel could
    not be scanned. *)
Fixpoint read_ascii (indices : list Z) (s : list Z) (image : Z) (m : mem)
  : option (bool * mem) :=
  match indices with
  | [] => Some (true, m)
  | i :: indices' =>
      match scan_int s with
      | Matched pixel s' => read_ascii indices' s' image (store m image i pixel)
      | Mismatch => Some (false, m)
      | Overflow => None
      end
  end.

Record result := Result {
  returned : Z; width_out : Z; height_out : Z; memory : mem
}.

Definition read_image (file : option (list Z)) (malloc : Z → Z) (m : mem)
    (width height : Z) : option result :=
  match file with
  | None => Some (Result NULL width height m)
  | Some s =>
    let '(format, s) := take_word 2 (skip_space s) in
    if bool_decide (format = [])
       || (negb (bool_decide (c_string format = bytes "P5"))
           && negb (bool_decide (c_string format = bytes "P2")))
    then Some (Result NULL width height m)
    else
      match skip_header (S (length s)) s with
      | None => None
      | Some (ch, s) =>
        let s := if ch =? EOF then s else ch :: s in
        match scan_int s with
        | Overflow => None
        | Mismatch => Some (Result NULL width height m)
        | Matched width s =>
          match scan_int s with
          | Overflow => None
          | Mismatch => Some (Result NULL width height m)
          | Matched height s =>
            match scan_int s with
            | Overflow => None
            | Mismatch => Some (Result NULL width height m)
            | Matched max_val s =>
              if negb (max_val =? 255) then Some (Result NULL width height m)
              else
                let s := skip_line s in
                let count := imul width height in
                let image := malloc count in
                if image =? NULL then Some (Result NULL width height m)
                else if bool_decide (c_string format = bytes "P5") then
                  if count <? 0 then
                    (if bool_decide (s = []) then Some (Result NULL width height m)
                     else None)
                  else
                    let got := take (Z.to_nat count) s in
                    let m' := write_buf m image got in
                    if bool_decide (Z.of_nat (length got) ≠ count)
                    then Some (Result NULL width height m')
                    else Some (Result image width height m')
                else
                  match read_ascii (range_lt 0 count) s image m with
                  | None => None
                  | Some (complete, m') =>
                      Some (Result (if complete then image else NULL)
                                   width height m')
                  end
            end
          end
        end
      end
  end.

(** [%d] of [fprintf]; byte 10 is the newline. *)
Fixpoint print_digits (fuel : nat) (n : Z) : list Z :=
  match fuel with
  | O => []
  | S fuel' =>
      (if n <? 10 then [] else print_digits fuel' (n `div` 10))
      ++ [48 + n `mod` 10]
  end.
Definition print_int (z : Z) : list Z :=
  if z <? 0 then 45 :: print_digits 10 (- z) else print_digits 10 z.

Definition write_image (fopen : bool) (m : mem) (image width height : Z)
  : option (Z * option (list Z)) :=
  if negb fopen then Some (-1, None)
  else
    let file := bytes "P5" ++ [10] in
    let file := file ++ bytes "# Created by Box Blur Program" ++ [10] in
    let file := file ++ print_int width ++ bytes " " ++ print_int height
                ++ [10] in
    let file := file ++ bytes "255" ++ [10] in
    let count := imul width height in
    if count <? 0 then None
    else Some (0, Some (file ++ read_buf m image count)).

End PGM.

(** ** The output format
    Every [main] picks the encoder from the output file name with
    [strstr]; the serial program also accepts upper-case and [.jpeg]
    suffixes, the four parallel programs share one test. *)

(** [strstr (haystack, needle) != NULL]. *)
Fixpoint strstr (haystack needle : string) : bool :=
  String.prefix needle haystack
  || match haystack with
     | EmptyString => false
     | String _ rest => strstr rest needle
     end.

Inductive encoder : Type := stbi_write_png | stbi_write_jpg | stbi_write_bmp.

Definition serial_encoder (name : string) : encoder :=
  if strstr name ".png" || strstr name ".PNG" then stbi_write_png
  else if strstr name ".jpg" || strstr name ".JPG"
          || strstr name ".jpeg" || strstr name ".JPEG" then stbi_write_jpg
  else stbi_write_bmp.

Definition parallel_encoder (name : string) : encoder :=
  if strstr name ".png" then stbi_write_png
  else if strstr name ".jpg" then stbi_write_jpg
  else stbi_write_bmp.

(** The sum of the 3x3 neighbourhood of row [i], column [j]. *)
Definition nine (a : Z → Z → Z) (i j : Z) : Z :=
  sumZ ((λ p, a p.2 p.1) <$> neighbors j i 1).

(** The file [write_image] is to produce: both headers, the gray palette,
    then the rows from the last to the first, each padded with zeros to
    [row_size_of width] bytes. *)
Definition bmp_headers (width height : Z) : list Z :=
  let row_size := BMP.row_size_of width in
  let image_size := imul row_size height in
  let file_size := iadd (iadd 54 (imul 256 4)) image_size in
  BMP.header_bytes
    (BMP.Header 19778 (file_size `mod` 4294967296) 0 0 (54 + 256 * 4))
  ++ BMP.info_bytes
       (BMP.Info 40 width height 1 8 0 (image_size `mod` 4294967296)
                 2835 2835 256 256).
Definition bmp_palette : list Z :=
  i ← range_lt 0 256; [uchar i; uchar i; uchar i; 0].
Definition bmp_row (m : mem) (image width i : Z) : list Z :=
  read_buf m (image + i * width) width
  ++ replicate (Z.to_nat (BMP.row_size_of width - width)) 0.
Definition bmp_file (m : mem) (image width height : Z) : list Z :=
  bmp_headers width height ++ bmp_palette
  ++ (i ← reverse (seqZ 0 height); bmp_row m image width i).

(** A 2x2 image and its file. *)
Definition four_pixels : mem := mem_of 0 0 [10; 20; 30; 40].
Definition four_pixels_bmp : list Z := bmp_file four_pixels 0 2 2.

(** A binary PGM file without comment lines. *)
Definition plain_pgm (width height : Z) (data : list Z) : list Z :=
  PGM.bytes "P5" ++ 10 :: PGM.print_int width ++ 32 :: PGM.print_int height
  ++ 10 :: PGM.bytes "255" ++ 10 :: data.

(** * Properties *)

(** ** Machine integers *)

Lemma wrap_id z : in_int z → wrap z = z.
Proof.
  unfold in_int, INT_MIN, INT_MAX, wrap. intros Hz.
  rewrite Z.mod_small by lia. lia.
Qed.

Lemma wrap_range z : in_int (wrap z).
Proof.
  unfold in_int, INT_MIN, INT_MAX, wrap.
  pose proof (Z.mod_pos_bound (z + 2147483648) 4294967296). lia.
Qed.

Lemma wrap_add_l a b : wrap (wrap a + b) = wrap (a + b).
Proof.
  unfold wrap. f_equal.
  replace (a + b + 2147483648) with ((a + 2147483648) + b) by lia.
  rewrite (Zplus_mod (a + 2147483648) b).
  replace ((a + 2147483648) `mod` 4294967296 - 2147483648 + b + 2147483648)
    with ((a + 2147483648) `mod` 4294967296 + b) by lia.
  rewrite (Zplus_mod ((a + 2147483648) `mod` 4294967296) b).
  by rewrite Z.mod_mod.
Qed.

Lemma iadd_id a b : in_int (a + b) → iadd a b = a + b.
Proof. apply wrap_id. Qed.
Lemma isub_id a b : in_int (a - b) → isub a b = a - b.
Proof. apply wrap_id. Qed.
Lemma imul_id a b : in_int (a * b) → imul a b = a * b.
Proof. apply wrap_id. Qed.
Lemma ineg_id a : in_int (- a) → ineg a = - a.
Proof. apply wrap_id. Qed.
Lemma idiv_id a b : in_int (a ÷ b) → idiv a b = a ÷ b.
Proof. apply wrap_id. Qed.

(** Half of an [int] is an [int] of magnitude at most [2^30]. *)
Lemma idiv_2 k : in_int k → idiv k 2 = k ÷ 2 ∧ -1073741824 ≤ k ÷ 2 ≤ 1073741823.
Proof.
  unfold in_int, INT_MIN, INT_MAX. intros Hk.
  assert (-1073741824 ≤ k ÷ 2 ≤ 1073741823) as Hq.
  { Z.to_euclidean_division_equations. lia. }
  split; [|done]. apply idiv_id. unfold in_int, INT_MIN, INT_MAX. lia.
Qed.

(** ** Loops *)

Lemma for_each_nil {S} body (s : S) : for_each [] body s = s.
Proof. done. Qed.
Lemma for_each_cons {S} i l body (s : S) :
  for_each (i :: l) body s = for_each l body (body i s).
Proof. done. Qed.

Lemma for_eachM_app {I S} (l1 l2 : list I) (body : I → S → option S) s :
  for_eachM (l1 ++ l2) body s = s' ← for_eachM l1 body s; for_eachM l2 body s'.
Proof.
  revert s. induction l1 as [|i l1 IH]; intros s; simpl; [done|].
  destruct (body i s) as [s1|]; simpl; [apply IH|done].
Qed.

(** A loop nest is one loop over the pairs of its counters. *)
Lemma for_eachM_nest {I J S} (l1 : list I) (l2 : list J)
    (body : I → J → S → option S) s :
  for_eachM l1 (λ i s, for_eachM l2 (λ j s, body i j s) s) s
  = for_eachM (i ← l1; (λ j, (i, j)) <$> l2) (λ '(i, j) s, body i j s) s.
Proof.
  revert s. induction l1 as [|i l1 IH]; intros s; [done|].
  cbn [for_eachM mbind list_bind]. rewrite for_eachM_app.
  assert (∀ l s0, for_eachM l (λ j s1, body i j s1) s0
            = for_eachM ((λ j, (i, j)) <$> l) (λ '(i0, j) s1, body i0 j s1) s0) as Hin.
  { induction l as [|j l IHl]; intros s0; simpl; [done|].
    destruct (body i j s0); simpl; [apply IHl|done]. }
  rewrite <- Hin. destruct (for_eachM l2 _ s); simpl; [apply IH|done].
Qed.

Lemma for_eachM_fmap {I J S} (g : I → J) (l : list I) (body : J → S → option S) s :
  for_eachM (g <$> l) body s = for_eachM l (λ i s, body (g i) s) s.
Proof.
  revert s. induction l as [|i l IH]; intros s; simpl; [done|].
  destruct (body (g i) s); simpl; [apply IH|done].
Qed.

Lemma for_eachM_ext {I S} (l : list I) (f g : I → S → option S) s :
  (∀ i s, i ∈ l → f i s = g i s) → for_eachM l f s = for_eachM l g s.
Proof.
  revert s. induction l as [|i l IH]; intros s Hfg; simpl; [done|].
  rewrite Hfg by left. destruct (g i s); simpl; [|done].
  apply IH. intros. apply Hfg. by right.
Qed.

(** Iterations that leave the state alone can be dropped. *)
Lemma for_eachM_skip {I S} (P : I → Prop) `{∀ i, Decision (P i)}
    (l : list I) (body : I → S → option S) s :
  (∀ i s, ¬ P i → body i s = Some s) →
  for_eachM l body s = for_eachM (filter P l) body s.
Proof.
  intros Hskip. revert s. induction l as [|i l IH]; intros s; [done|].
  rewrite filter_cons. destruct (decide (P i)) as [Hi|Hi]; simpl.
  - destruct (body i s); simpl; [apply IH|done].
  - rewrite Hskip by done. simpl. apply IH.
Qed.

(** ** The window accumulation *)

Lemma serial_window_unfold mm input width height channels k x y c :
  Serial.window mm input width height channels k x y c
  = for_each (range_le (ineg k) k) (λ m acc,
      for_each (range_le (ineg k) k)
        (window_step mm input width height channels x y c m) acc) (0, 0).
Proof. reflexivity. Qed.

(** The other four backends accumulate with the same loops. *)
Lemma openmp_window_eq : OpenMP.window = Serial.window.
Proof. reflexivity. Qed.
Lemma mpi_window_eq : MPI.window = Serial.window.
Proof. reflexivity. Qed.
Lemma opencl_window_eq : OpenCL.window = Serial.window.
Proof. reflexivity. Qed.
Lemma cuda_window_eq : CUDA.window = Serial.window.
Proof. reflexivity. Qed.

Lemma sumZ_cons a l : sumZ (a :: l) = a + sumZ l.
Proof. done. Qed.
Lemma sumZ_app l1 l2 : sumZ (l1 ++ l2) = sumZ l1 + sumZ l2.
Proof. induction l1 as [|a l1 IH]; simpl; lia. Qed.

Section window.
Context (mm : mem) (input width height channels : Z).
Context (Hdims : valid_dims width height channels).
Context (x y c : Z) (Hx : 0 ≤ x < width) (Hy : 0 ≤ y < height) (Hc : 0 ≤ c < 3).

Local Abbreviation img := (load mm input).
Local Abbreviation small z := (-1073741824 ≤ z ≤ 1073741823).

(** Inside the image the source index is computed without overflow. *)
Lemma src_idx_exact nx ny :
  0 ≤ nx < width → 0 ≤ ny < height →
  iadd (imul (iadd (imul ny width) nx) channels) (if channels =? 1 then 0 else c)
  = (ny * width + nx) * channels + (if channels =? 1 then 0 else c)
  ∧ 0 ≤ (ny * width + nx) * channels + (if channels =? 1 then 0 else c)
      < width * height * channels.
Proof.
  intros Hnx Hny. destruct Hdims as (Hw & Hh & Hch & Hin & Hout).
  unfold INT_MAX in *.
  assert (0 ≤ ny * width + nx < width * height) as Hp by nia.
  assert (0 ≤ (if channels =? 1 then 0 else c) < channels) as Hcc.
  { destruct (Z.eqb_spec channels 1); lia. }
  assert (0 ≤ (ny * width + nx) * channels + (if channels =? 1 then 0 else c)
          < width * height * channels) as Hi by nia.
  split; [|done].
  rewrite (imul_id ny width) by (unfold in_int, INT_MIN, INT_MAX; nia).
  rewrite (iadd_id (ny * width) nx) by (unfold in_int, INT_MIN, INT_MAX; nia).
  rewrite imul_id by (unfold in_int, INT_MIN, INT_MAX; nia).
  rewrite iadd_id by (unfold in_int, INT_MIN, INT_MAX; nia).
  done.
Qed.

Lemma window_step_spec m n s cnt :
  small m → small n →
  window_step mm input width height channels x y c m n (wrap s, wrap cnt)
  = if decide (inside width height (x + n, y + m))
    then (wrap (s + sample img width channels c (x + n, y + m)), wrap (cnt + 1))
    else (wrap s, wrap cnt).
Proof.
  intros Hm Hn. destruct Hdims as (Hw & Hh & Hch & Hin & Hout).
  unfold INT_MAX in *. unfold window_step.
  assert (width ≤ 715827882) by nia. assert (height ≤ 715827882) by nia.
  rewrite (iadd_id x n) by (unfold in_int, INT_MIN, INT_MAX; lia).
  rewrite (iadd_id y m) by (unfold in_int, INT_MIN, INT_MAX; lia).
  destruct (decide (inside width height (x + n, y + m))) as [Hin'|Hout'].
  - destruct Hin' as [Hnx Hny]; simpl in Hnx, Hny.
    replace ((0 <=? x + n) && (x + n <? width) && (0 <=? y + m) && (y + m <? height))
      with true by (symmetry; repeat (apply andb_true_intro; split); lia).
    destruct (src_idx_exact (x + n) (y + m) Hnx Hny) as [-> _].
    unfold iadd. rewrite !wrap_add_l. done.
  - replace ((0 <=? x + n) && (x + n <? width) && (0 <=? y + m) && (y + m <? height))
      with false; [done|].
    symmetry. apply not_true_is_false. intros Ht.
    apply Hout'. unfold inside; simpl.
    repeat (apply andb_prop in Ht; destruct Ht as [Ht ?]). lia.
Qed.

Lemma window_row_spec m ns s cnt :
  small m → Forall (λ n, small n) ns →
  for_each ns (window_step mm input width height channels x y c m) (wrap s, wrap cnt)
  = (wrap (s + sumZ (sample img width channels c <$>
             filter (inside width height) ((λ n, (x + n, y + m)) <$> ns))),
     wrap (cnt + Z.of_nat (length (
             filter (inside width height) ((λ n, (x + n, y + m)) <$> ns))))).
Proof.
  intros Hm Hns. revert s cnt.
  induction Hns as [|n ns Hn Hns IH]; intros s cnt.
  { simpl. by rewrite !Z.add_0_r. }
  rewrite for_each_cons, window_step_spec by done.
  rewrite fmap_cons, filter_cons.
  destruct (decide (inside width height (x + n, y + m))).
  - rewrite IH, fmap_cons, sumZ_cons, length_cons, Nat2Z.inj_succ.
    f_equal; apply (f_equal wrap); lia.
  - apply IH.
Qed.

Lemma window_rows_spec ms ns s cnt :
  Forall (λ m, small m) ms → Forall (λ n, small n) ns →
  for_each ms (λ m acc,
    for_each ns (window_step mm input width height channels x y c m) acc)
    (wrap s, wrap cnt)
  = (wrap (s + sumZ (sample img width channels c <$>
             filter (inside width height)
               (m ← ms; (λ n, (x + n, y + m)) <$> ns))),
     wrap (cnt + Z.of_nat (length (
             filter (inside width height)
               (m ← ms; (λ n, (x + n, y + m)) <$> ns))))).
Proof.
  intros Hms Hns. revert s cnt.
  induction Hms as [|m ms Hm Hms IH]; intros s cnt.
  { simpl. by rewrite !Z.add_0_r. }
  rewrite for_each_cons, window_row_spec by done.
  rewrite IH. cbn [mbind list_bind].
  rewrite filter_app, fmap_app, sumZ_app, length_app, Nat2Z.inj_add.
  f_equal; apply (f_equal wrap); lia.
Qed.

(** The accumulators hold the window sum and the window count, as [int]s. *)
Lemma serial_window_spec k :
  0 ≤ k ≤ 1073741823 →
  Serial.window mm input width height channels k x y c
  = (wrap (window_sum img width height channels x y k c),
     wrap (window_count width height x y k)).
Proof.
  intros Hk. rewrite serial_window_unfold.
  rewrite ineg_id by (unfold in_int, INT_MIN, INT_MAX; lia).
  assert (Forall (λ n, small n) (range_le (- k) k)) as Hr.
  { apply Forall_seqZ. lia. }
  change (0, 0) with (wrap 0, wrap 0).
  rewrite window_rows_spec by done.
  done.
Qed.

End window.

(** ** Counting the valid neighbours *)

Lemma row_filter width height x y m ns :
  filter (inside width height) ((λ n, (x + n, y + m)) <$> ns)
  = if decide (0 ≤ y + m < height)
    then (λ n, (x + n, y + m)) <$> filter (in_span 0 width x) ns
    else [].
Proof.
  induction ns as [|n ns IH]; [by destruct (decide _)|].
  rewrite fmap_cons, !filter_cons, IH. unfold inside, in_span; simpl.
  destruct (decide (0 ≤ y + m < height)) as [Hm|Hm].
  - destruct (decide (0 ≤ x + n < width)) as [Hn|Hn].
    + rewrite decide_True by done. done.
    + rewrite decide_False by tauto. done.
  - rewrite decide_False by tauto. done.
Qed.

(** The valid neighbours form a rectangle: columns times rows. *)
Lemma valid_neighbors_length width height x y ms ns :
  length (filter (inside width height) (m ← ms; (λ n, (x + n, y + m)) <$> ns))
  = (length (filter (in_span 0 width x) ns)
     * length (filter (in_span 0 height y) ms))%nat.
Proof.
  induction ms as [|m ms IH]; [simpl; lia|].
  cbn [mbind list_bind]. rewrite filter_app, length_app, IH, row_filter.
  rewrite (filter_cons (in_span 0 height y)).
  destruct (decide (0 ≤ y + m < height)) as [Hm|Hm].
  - rewrite decide_True by done. rewrite length_fmap, length_cons. lia.
  - rewrite decide_False by done. simpl. lia.
Qed.

Lemma window_count_product width height x y radius :
  window_count width height x y radius
  = span_count width x radius * span_count height y radius.
Proof.
  unfold window_count, valid_neighbors, neighbors, span_count.
  rewrite valid_neighbors_length. lia.
Qed.

Lemma span_count_bounds extent base radius :
  0 ≤ base < extent → 0 ≤ radius → 1 ≤ span_count extent base radius ≤ extent.
Proof.
  intros Hb Hr. unfold span_count.
  set (l := filter (in_span 0 extent base) (offsets radius)).
  assert (0 ∈ l) as H0.
  { apply list_elem_of_filter. split; [unfold in_span; lia|].
    apply elem_of_seqZ. lia. }
  assert (l ⊆+ seqZ (- base) extent) as Hsub.
  { apply NoDup_submseteq.
    - apply NoDup_filter, NoDup_seqZ.
    - intros d [Hd _]%list_elem_of_filter. apply elem_of_seqZ.
      unfold in_span in Hd. lia. }
  apply submseteq_length in Hsub. rewrite length_seqZ in Hsub.
  destruct l; [by apply elem_of_nil in H0|]. simpl in *. lia.
Qed.

Lemma window_count_bounds width height x y radius :
  0 ≤ x < width → 0 ≤ y < height → 0 ≤ radius →
  1 ≤ window_count width height x y radius ≤ width * height.
Proof.
  intros Hx Hy Hr. rewrite window_count_product.
  pose proof (span_count_bounds width x radius Hx Hr).
  pose proof (span_count_bounds height y radius Hy Hr). nia.
Qed.

Lemma valid_neighbors_inside width height x y radius p :
  p ∈ valid_neighbors width height x y radius → inside width height p.
Proof. by intros [? _]%list_elem_of_filter. Qed.

(** Bytes sum to at most 255 times their number. *)
Lemma sumZ_bounds (f : Z * Z → Z) l :
  (∀ p, p ∈ l → 0 ≤ f p ≤ 255) →
  0 ≤ sumZ (f <$> l) ≤ 255 * Z.of_nat (length l).
Proof.
  induction l as [|p l IH]; intros Hl; [simpl; lia|].
  rewrite fmap_cons, sumZ_cons, length_cons, Nat2Z.inj_succ.
  pose proof (Hl p ltac:(left)).
  pose proof (IH (λ q Hq, Hl q ltac:(by right))). lia.
Qed.

Lemma sample_in_image m input width height channels c p :
  valid_dims width height channels → is_image m input (width * height * channels) →
  0 ≤ c < 3 → inside width height p →
  0 ≤ sample (load m input) width channels c p ≤ 255.
Proof.
  intros (Hw & Hh & Hch & _) Himg Hc [Hp1 Hp2]. unfold sample.
  apply Himg.
  assert (0 ≤ p.2 * width + p.1 < width * height) by nia.
  destruct (Z.eqb_spec channels 1); nia.
Qed.

Lemma window_sum_bounds m input width height channels x y radius c :
  valid_dims width height channels → is_image m input (width * height * channels) →
  0 ≤ c < 3 →
  0 ≤ window_sum (load m input) width height channels x y radius c
    ≤ 255 * window_count width height x y radius.
Proof.
  intros Hd Himg Hc. apply sumZ_bounds. intros p Hp.
  eapply sample_in_image; eauto using valid_neighbors_inside.
Qed.

(** The window sum reads the image only inside its bounds. *)
Lemma window_sum_ext img1 img2 width height channels x y radius c :
  valid_dims width height channels → 0 ≤ c < 3 →
  (∀ i, 0 ≤ i < width * height * channels → img1 i = img2 i) →
  window_sum img1 width height channels x y radius c
  = window_sum img2 width height channels x y radius c.
Proof.
  intros (Hw & Hh & Hch & _) Hc Heq. unfold window_sum. f_equal.
  apply list_fmap_ext. intros _ p Hp%list_elem_of_lookup_2.
  apply valid_neighbors_inside in Hp as [Hp1 Hp2]. unfold sample. apply Heq.
  assert (0 ≤ p.2 * width + p.1 < width * height) by nia.
  destruct (Z.eqb_spec channels 1); nia.
Qed.

Lemma blur_byte_ext img1 img2 width height channels x y radius c :
  valid_dims width height channels → 0 ≤ c < 3 →
  (∀ i, 0 ≤ i < width * height * channels → img1 i = img2 i) →
  blur_byte img1 width height channels x y radius c
  = blur_byte img2 width height channels x y radius c.
Proof.
  intros Hd Hc Heq. unfold blur_byte.
  by rewrite (window_sum_ext img1 img2) by done.
Qed.

(** ** One pixel, and any sequence of pixels *)

Lemma cell_inj out width row x c row' x' c' :
  0 ≤ x < width → 0 ≤ x' < width → 0 ≤ c < 3 → 0 ≤ c' < 3 →
  cell out width row x c = cell out width row' x' c' →
  row = row' ∧ x = x' ∧ c = c'.
Proof.
  unfold cell. intros Hx Hx' Hc Hc' Heq.
  assert (c = c') as -> by lia.
  assert (row * width + x = row' * width + x') as Hp by lia.
  assert (row = row') as ->.
  { destruct (Z.lt_trichotomy row row') as [Hlt|[Heq'|Hgt]]; [|done|]; nia. }
  lia.
Qed.

Lemma cell_range out width rows row x c :
  0 ≤ row < rows → 0 ≤ x < width → 0 ≤ c < 3 →
  out ≤ cell out width row x c < out + width * rows * 3.
Proof. unfold cell. intros. nia. Qed.

(** Every address of the buffer is the cell of one pixel and channel. *)
Lemma cell_decode out width rows a :
  0 < width → out ≤ a < out + width * rows * 3 →
  ∃ row x c, 0 ≤ row < rows ∧ 0 ≤ x < width ∧ 0 ≤ c < 3 ∧
             a = cell out width row x c.
Proof.
  intros Hw Ha.
  exists (((a - out) `div` 3) `div` width), (((a - out) `div` 3) `mod` width),
         ((a - out) `mod` 3).
  unfold cell.
  pose proof (Z.div_mod (a - out) 3 ltac:(lia)).
  pose proof (Z.mod_pos_bound (a - out) 3 ltac:(lia)).
  pose proof (Z.div_mod ((a - out) `div` 3) width ltac:(lia)).
  pose proof (Z.mod_pos_bound ((a - out) `div` 3) width ltac:(lia)).
  repeat split; try lia.
  - apply Z.div_pos; [|lia]. apply Z.div_pos; lia.
  - apply Z.div_lt_upper_bound; [lia|]. apply Z.div_lt_upper_bound; lia.
Qed.

(** A destination index is computed without overflow. *)
Lemma dst_idx_exact width height channels row x c :
  valid_dims width height channels →
  0 ≤ row < height → 0 ≤ x < width → 0 ≤ c < 3 →
  iadd (imul (iadd (imul row width) x) 3) c = (row * width + x) * 3 + c.
Proof.
  intros (Hw & Hh & _ & _ & Hout) Hr Hx Hc. unfold INT_MAX in Hout.
  assert (0 ≤ (row * width + x) * 3 + c < width * height * 3) by nia.
  rewrite (imul_id row width) by (unfold in_int, INT_MIN, INT_MAX; nia).
  rewrite (iadd_id (row * width) x) by (unfold in_int, INT_MIN, INT_MAX; nia).
  rewrite imul_id by (unfold in_int, INT_MIN, INT_MAX; nia).
  apply iadd_id. unfold in_int, INT_MIN, INT_MAX; nia.
Qed.

Section pixels.
Context (m0 : mem) (input out width height channels k row0 rows : Z).
Context (Hdims : valid_dims width height channels).
Context (Hk : 0 ≤ k ≤ 1073741823).
Context (Hrows : 0 ≤ row0 ∧ 0 ≤ rows ∧ row0 + rows ≤ height).
Context (Hdisj : disjoint input (width * height * channels) out (width * rows * 3)).

Local Abbreviation img0 := (load m0 input).
Local Abbreviation n_in := (width * height * channels).

Lemma store_agree mm row x c v :
  0 ≤ row < rows → 0 ≤ x < width → 0 ≤ c < 3 →
  agree_on mm m0 input n_in →
  agree_on (store mm out ((row * width + x) * 3 + c) v) m0 input n_in.
Proof.
  intros Hr Hx Hc Hag i Hi. unfold store.
  pose proof (cell_range out width rows row x c Hr Hx Hc) as Hcell.
  unfold cell in Hcell. rewrite bool_decide_false; [by apply Hag|].
  unfold disjoint in Hdisj. lia.
Qed.

(** One channel of one pixel. *)
Lemma channel_step mm x y row c :
  0 ≤ x < width → 0 ≤ y < height → 0 ≤ row < rows → 0 ≤ c < 3 →
  agree_on mm m0 input n_in →
  (let '(sum, count) := Serial.window mm input width height channels k x y c in
   let dst_idx := iadd (imul (iadd (imul row width) x) 3) c in
   if count =? 0 then None
   else Some (store mm out dst_idx (idiv sum count)))
  = Some (store mm out ((row * width + x) * 3 + c)
            (idiv (wrap (window_sum img0 width height channels x y k c))
                  (window_count width height x y k))).
Proof.
  intros Hx Hy Hr Hc Hag.
  rewrite serial_window_spec by done.
  pose proof (window_count_bounds width height x y k Hx Hy ltac:(lia)) as Hcnt.
  assert (wrap (window_count width height x y k) = window_count width height x y k)
    as ->.
  { apply wrap_id. destruct Hdims as (? & ? & ? & ? & ?).
    unfold in_int, INT_MIN, INT_MAX in *. nia. }
  rewrite (dst_idx_exact width height channels) by (done || lia).
  destruct (Z.eqb_spec (window_count width height x y k) 0); [lia|].
  rewrite (window_sum_ext (load mm input) img0) by done. done.
Qed.

Lemma pixel_step_spec mm x y row :
  0 ≤ x < width → 0 ≤ y < height → 0 ≤ row < rows →
  agree_on mm m0 input n_in →
  ∃ mm', pixel_step input out width height channels k x y row mm = Some mm'
    ∧ agree_on mm' m0 input n_in
    ∧ (∀ c, 0 ≤ c < 3 →
         mm' (cell out width row x c) = blur_byte img0 width height channels x y k c)
    ∧ (∀ a, (∀ c, 0 ≤ c < 3 → a ≠ cell out width row x c) → mm' a = mm a).
Proof.
  intros Hx Hy Hr Hag. unfold pixel_step.
  change (range_lt 0 3) with [0; 1; 2]. cbn [for_eachM].
  rewrite channel_step by (done || lia). cbn [mbind option_bind].
  rewrite channel_step by (done || lia || (apply store_agree; (done || lia))).
  cbn [mbind option_bind].
  rewrite channel_step
    by (done || lia || (repeat apply store_agree; (done || lia))).
  cbn [mbind option_bind]. eexists; split; [done|]. split; [|split].
  - repeat apply store_agree; (done || lia).
  - intros c Hc. unfold store, cell, blur_byte.
    assert (c = 0 ∨ c = 1 ∨ c = 2) as [->|[->| ->]] by lia;
      repeat (rewrite bool_decide_false by lia); rewrite bool_decide_true by lia; done.
  - intros a Ha. unfold store.
    pose proof (Ha 0 ltac:(lia)). pose proof (Ha 1 ltac:(lia)).
    pose proof (Ha 2 ltac:(lia)). unfold cell in *.
    by rewrite !bool_decide_false by lia.
Qed.

End pixels.

Section pixel_list.
Context (m0 : mem) (input out width height channels k row0 rows : Z).
Context (Hdims : valid_dims width height channels).
Context (Hk : 0 ≤ k ≤ 1073741823).
Context (Hrows : 0 ≤ row0 ∧ 0 ≤ rows ∧ row0 + rows ≤ height).
Context (Hdisj : disjoint input (width * height * channels) out (width * rows * 3)).

Lemma blurred_nil : blurred m0 m0 input out width height channels k row0 [].
Proof. split; [by intros ??? ?%elem_of_nil|done]. Qed.

Lemma blurred_agree m' L :
  Forall (pixel_ok width row0 rows) L →
  blurred m0 m' input out width height channels k row0 L →
  agree_on m' m0 input (width * height * channels).
Proof.
  intros HL [_ Hframe] i Hi. apply Hframe.
  intros x y c Hin Hc Heq.
  rewrite Forall_forall in HL. destruct (HL _ Hin) as [Hx Hy]; simpl in *.
  pose proof (cell_range out width rows (y - row0) x c ltac:(lia) Hx Hc).
  unfold disjoint in Hdisj. lia.
Qed.

Lemma blurred_snoc m m' L x y :
  Forall (pixel_ok width row0 rows) L → pixel_ok width row0 rows (x, y) →
  blurred m0 m input out width height channels k row0 L →
  (∀ c, 0 ≤ c < 3 →
     m' (cell out width (y - row0) x c)
     = blur_byte (load m0 input) width height channels x y k c) →
  (∀ a, (∀ c, 0 ≤ c < 3 → a ≠ cell out width (y - row0) x c) → m' a = m a) →
  blurred m0 m' input out width height channels k row0 (L ++ [(x, y)]).
Proof.
  intros HL [Hx Hy] [Hval Hframe] Hnew Hold; simpl in *.
  rewrite Forall_forall in HL. split.
  - intros x' y' c' Hin Hc'.
    destruct (decide ((x', y') = (x, y))) as [[= -> ->]|Hne]; [by apply Hnew|].
    apply elem_of_app in Hin as [Hin|Hin%list_elem_of_singleton]; [|done].
    rewrite Hold; [by apply Hval|].
    intros c Hc Heq. destruct (HL _ Hin) as [Hx' Hy']; simpl in *.
    apply cell_inj in Heq as (? & ? & ?); [|done..].
    apply Hne. f_equal; lia.
  - intros a Ha. rewrite Hold.
    + apply Hframe. intros x' y' c' Hin Hc'. apply Ha; [|done].
      apply elem_of_app. by left.
    + intros c Hc. apply Ha; [|done]. apply elem_of_app. right. by left.
Qed.

Lemma pixels_run_from done L m :
  Forall (pixel_ok width row0 rows) done → Forall (pixel_ok width row0 rows) L →
  blurred m0 m input out width height channels k row0 done →
  ∃ m', for_eachM L (λ '(x, y) mm,
          pixel_step input out width height channels k x y (y - row0) mm) m
        = Some m'
    ∧ blurred m0 m' input out width height channels k row0 (done ++ L).
Proof.
  intros Hdone HL. revert done m Hdone.
  induction HL as [|[x y] L Hp HL IH]; intros done m Hdone Hb.
  { exists m. by rewrite app_nil_r. }
  pose proof Hp as [Hx Hy]; simpl in Hx, Hy.
  destruct (pixel_step_spec m0 input out width height channels k row0 rows
              Hdims Hk Hrows Hdisj m x y (y - row0))
    as (m1 & Hstep & _ & Hval & Hframe); [done|lia|lia|by eapply blurred_agree|].
  cbn [for_eachM]. rewrite Hstep. cbn [mbind option_bind].
  destruct (IH (done ++ [(x, y)]) m1) as (m' & Hrun & Hb').
  - apply Forall_app. split; [done|by apply Forall_singleton].
  - by eapply blurred_snoc.
  - exists m'. split; [done|]. by rewrite <- app_assoc in Hb'.
Qed.

(** Blurring any sequence of admissible pixels, in any order and with any
    repetition, succeeds and leaves each of them blurred. *)
Lemma pixels_run L :
  Forall (pixel_ok width row0 rows) L →
  ∃ m', for_eachM L (λ '(x, y) mm,
          pixel_step input out width height channels k x y (y - row0) mm) m0
        = Some m'
    ∧ blurred m0 m' input out width height channels k row0 L.
Proof. intros HL. by apply (pixels_run_from [] L m0); [|done|apply blurred_nil]. Qed.

End pixel_list.

(** ** A filled output buffer *)

Lemma blurred_filled m0 m' input out width height channels k row0 rows L :
  Forall (pixel_ok width row0 rows) L →
  (∀ x y, 0 ≤ x < width → row0 ≤ y < row0 + rows → (x, y) ∈ L) →
  blurred m0 m' input out width height channels k row0 L →
  filled m0 m' input out width height channels k row0 rows.
Proof.
  intros HL Hall [Hval Hframe]. split.
  - intros x y c Hx Hy Hc. apply Hval; auto.
  - intros a Ha. apply Hframe. intros x y c Hin Hc ->. apply Ha.
    rewrite Forall_forall in HL. destruct (HL _ Hin) as [Hx Hy]; simpl in *.
    apply cell_range; lia.
Qed.

Lemma elem_of_row_major width row0 rows y x :
  (y, x) ∈ row_major width row0 rows ↔ row0 ≤ y < row0 + rows ∧ 0 ≤ x < width.
Proof.
  unfold row_major, range_lt. rewrite list_elem_of_bind. split.
  - intros (y' & Hx & Hy). apply list_elem_of_fmap in Hx as (x' & [= -> ->] & Hx).
    apply elem_of_seqZ in Hx, Hy. lia.
  - intros [Hy Hx]. exists y. split.
    + apply list_elem_of_fmap. exists x. split; [done|]. apply elem_of_seqZ. lia.
    + apply elem_of_seqZ. lia.
Qed.

(** Pixels given as [(y, x)] pairs, in any order that covers the rows. *)
Lemma pixels_yx_run m0 input out width height channels k row0 rows L :
  valid_dims width height channels → 0 ≤ k ≤ 1073741823 →
  0 ≤ row0 ∧ 0 ≤ rows ∧ row0 + rows ≤ height →
  disjoint input (width * height * channels) out (width * rows * 3) →
  (∀ y x, (y, x) ∈ L ↔ row0 ≤ y < row0 + rows ∧ 0 ≤ x < width) →
  ∃ m', for_eachM L (λ '(y, x) mm,
          pixel_step input out width height channels k x y (y - row0) mm) m0
        = Some m'
    ∧ filled m0 m' input out width height channels k row0 rows.
Proof.
  intros Hdims Hk Hrows Hdisj HL.
  assert (Forall (pixel_ok width row0 rows) (swap <$> L)) as Hok.
  { apply Forall_fmap, Forall_forall. intros [y x] Hin.
    apply HL in Hin. unfold pixel_ok, swap; simpl. lia. }
  destruct (pixels_run m0 input out width height channels k row0 rows
              Hdims Hk Hrows Hdisj _ Hok) as (m' & Hrun & Hb).
  exists m'. split.
  - rewrite for_eachM_fmap in Hrun. rewrite <- Hrun.
    apply for_eachM_ext. by intros [y x] mm _.
  - eapply blurred_filled; [done| |done].
    intros x y Hx Hy. apply list_elem_of_fmap. exists (y, x).
    split; [done|]. by apply HL.
Qed.

(** ** The shape of the loop nests *)

(** Each backend runs [pixel_step] over its pixels. *)
Lemma serial_shape m input out width height channels kernel_size :
  Serial.apply_box_blur_color m input out width height channels kernel_size
  = for_eachM (row_major width 0 height) (λ '(y, x) mm,
      pixel_step input out width height channels (idiv kernel_size 2)
        x y (y - 0) mm) m.
Proof.
  unfold Serial.apply_box_blur_color, row_major.
  rewrite <- for_eachM_nest.
  apply for_eachM_ext. intros y mm Hy. apply for_eachM_ext. intros x mm' Hx.
  change (pixel_step input out width height channels (idiv kernel_size 2) x y y mm'
          = pixel_step input out width height channels (idiv kernel_size 2) x y
            (y - 0) mm').
  by rewrite Z.sub_0_r.
Qed.

Lemma mpi_shape m input out width height channels kernel_size row0 row1 :
  valid_dims width height channels → 0 ≤ row0 ≤ row1 ∧ row1 ≤ height →
  MPI.apply_box_blur_mpi m input out width height channels kernel_size row0 row1
  = for_eachM (row_major width row0 (row1 - row0)) (λ '(y, x) mm,
      pixel_step input out width height channels (idiv kernel_size 2)
        x y (y - row0) mm) m.
Proof.
  intros Hdims Hrows. unfold MPI.apply_box_blur_mpi, row_major.
  replace (row0 + (row1 - row0)) with row1 by lia.
  rewrite <- for_eachM_nest.
  apply for_eachM_ext. intros y mm Hy. apply for_eachM_ext. intros x mm' Hx.
  apply elem_of_seqZ in Hy.
  change (pixel_step input out width height channels (idiv kernel_size 2) x y
            (isub y row0) mm'
          = pixel_step input out width height channels (idiv kernel_size 2) x y
            (y - row0) mm').
  rewrite isub_id; [done|]. destruct Hdims as (? & ? & ? & ? & ?).
  unfold in_int, INT_MIN, INT_MAX in *. nia.
Qed.

Lemma openmp_shape sched m input out width height channels kernel_size :
  OpenMP.apply_box_blur_openmp sched m input out width height channels kernel_size
  = for_eachM sched (λ '(y, x) mm,
      pixel_step input out width height channels (idiv kernel_size 2)
        x y (y - 0) mm) m.
Proof.
  unfold OpenMP.apply_box_blur_openmp.
  apply for_eachM_ext. intros [y x] mm _.
  change (pixel_step input out width height channels (idiv kernel_size 2) x y y mm
          = pixel_step input out width height channels (idiv kernel_size 2) x y
            (y - 0) mm).
  by rewrite Z.sub_0_r.
Qed.

Lemma elem_of_collapsed height width y x :
  (y, x) ∈ OpenMP.collapsed height width ↔ 0 ≤ y < 0 + height ∧ 0 ≤ x < width.
Proof.
  unfold OpenMP.collapsed.
  assert (∀ (y0 : Z) (l2 : list Z),
            (x0 ← l2; [(y0, x0)]) = (λ x0, (y0, x0)) <$> l2) as Hin.
  { intros y0 l2. induction l2 as [|b l2 IH]; [done|].
    cbn [mbind list_bind fmap list_fmap app]. by f_equal. }
  assert (∀ (l1 l2 : list Z),
            (y0 ← l1; x0 ← l2; [(y0, x0)]) = (y0 ← l1; (λ x0, (y0, x0)) <$> l2))
    as ->.
  { intros l1 l2. induction l1 as [|a l1 IH]; [done|]. cbn [mbind list_bind].
    cbn [mbind list_bind] in IH. by rewrite IH, Hin. }
  apply (elem_of_row_major width 0 height).
Qed.

(** ** Writes stay inside the output buffer *)

(** Whatever the kernel size, a pixel step that returns has written only
    to the three cells of its pixel. *)
Lemma pixel_step_frame input out width height channels k x y row mm mm' :
  valid_dims width height channels → 0 ≤ row < height → 0 ≤ x < width →
  pixel_step input out width height channels k x y row mm = Some mm' →
  ∀ a, (∀ c, 0 ≤ c < 3 → a ≠ cell out width row x c) → mm' a = mm a.
Proof.
  intros Hdims Hrow Hx Hstep a Ha. unfold pixel_step in Hstep.
  change (range_lt 0 3) with [0; 1; 2] in Hstep. cbn [for_eachM] in Hstep.
  rewrite !(dst_idx_exact width height channels) in Hstep by (done || lia).
  pose proof (Ha 0 ltac:(lia)). pose proof (Ha 1 ltac:(lia)).
  pose proof (Ha 2 ltac:(lia)). unfold cell in *.
  destruct (Serial.window mm _ _ _ _ _ _ _ 0) as [s0 c0].
  destruct (c0 =? 0); [done|]. cbn [mbind option_bind] in Hstep.
  destruct (Serial.window _ _ _ _ _ _ _ _ 1) as [s1 c1].
  destruct (c1 =? 0); [done|]. cbn [mbind option_bind] in Hstep.
  destruct (Serial.window _ _ _ _ _ _ _ _ 2) as [s2 c2].
  destruct (c2 =? 0); [done|]. cbn [mbind option_bind] in Hstep.
  injection Hstep as <-. unfold store.
  by rewrite !bool_decide_false by lia.
Qed.

Lemma pixels_frame input out width height channels k row0 rows L m m' :
  valid_dims width height channels →
  0 ≤ row0 ∧ 0 ≤ rows ∧ row0 + rows ≤ height →
  (∀ y x, (y, x) ∈ L → row0 ≤ y < row0 + rows ∧ 0 ≤ x < width) →
  for_eachM L (λ '(y, x) mm,
    pixel_step input out width height channels k x y (y - row0) mm) m = Some m' →
  ∀ a, ¬ (out ≤ a < out + width * rows * 3) → m' a = m a.
Proof.
  intros Hdims Hrows HL Hrun a Ha. revert m Hrun.
  induction L as [|[y x] L IH]; intros m Hrun.
  { by injection Hrun as <-. }
  cbn [for_eachM] in Hrun.
  destruct (pixel_step _ _ _ _ _ _ _ _ _ m) as [m1|] eqn:Hstep; [|done].
  cbn [mbind option_bind] in Hrun.
  destruct (HL y x ltac:(left)) as [Hy Hx].
  rewrite (IH (λ y' x' Hin, HL y' x' ltac:(by right)) m1 Hrun).
  eapply pixel_step_frame; [done| | |done|]; [lia|done|].
  intros c Hc ->. apply Ha. apply cell_range; lia.
Qed.

(** Bytes outside the output buffer include the whole input buffer. *)
Lemma frame_agree (m m' : mem) input n_in out n_out :
  disjoint input n_in out n_out →
  (∀ a, ¬ (out ≤ a < out + n_out) → m' a = m a) →
  agree_on m' m input n_in.
Proof.
  intros Hdisj Hframe i Hi. apply Hframe. unfold disjoint in Hdisj. lia.
Qed.

(** ** The backends fill their buffers *)

(** The radius of an [int] kernel size. *)
Lemma k_offset_range kernel_size :
  in_int kernel_size → 0 ≤ kernel_size ÷ 2 →
  idiv kernel_size 2 = kernel_size ÷ 2 ∧ 0 ≤ kernel_size ÷ 2 ≤ 1073741823.
Proof. intros Hk Hr. destruct (idiv_2 kernel_size Hk). lia. Qed.

Lemma mpi_rows_run m0 input out width height channels kernel_size row0 row1 :
  valid_dims width height channels →
  in_int kernel_size → 0 ≤ kernel_size ÷ 2 →
  0 ≤ row0 ≤ row1 ∧ row1 ≤ height →
  disjoint input (width * height * channels) out (width * (row1 - row0) * 3) →
  ∃ m', MPI.apply_box_blur_mpi m0 input out width height channels kernel_size
          row0 row1 = Some m'
    ∧ filled m0 m' input out width height channels (kernel_size ÷ 2)
        row0 (row1 - row0).
Proof.
  intros Hdims Hks Hr Hrows Hdisj.
  destruct (k_offset_range kernel_size Hks Hr) as [Hk Hkr].
  rewrite mpi_shape, Hk by done.
  apply pixels_yx_run; [done|done|lia|done|apply elem_of_row_major].
Qed.

Lemma serial_run m0 input out width height channels kernel_size :
  valid_dims width height channels →
  in_int kernel_size → 0 ≤ kernel_size ÷ 2 →
  disjoint input (width * height * channels) out (width * height * 3) →
  ∃ m', Serial.apply_box_blur_color m0 input out width height channels kernel_size
        = Some m'
    ∧ filled m0 m' input out width height channels (kernel_size ÷ 2) 0 height.
Proof.
  intros Hdims Hks Hr Hdisj.
  destruct (k_offset_range kernel_size Hks Hr) as [Hk Hkr].
  pose proof Hdims as (Hw & Hh & _).
  rewrite serial_shape, Hk.
  apply pixels_yx_run; [done|done|lia|done|apply elem_of_row_major].
Qed.

Lemma openmp_run sched m0 input out width height channels kernel_size :
  valid_dims width height channels →
  in_int kernel_size → 0 ≤ kernel_size ÷ 2 →
  disjoint input (width * height * channels) out (width * height * 3) →
  OpenMP.schedule height width sched →
  ∃ m', OpenMP.apply_box_blur_openmp sched m0 input out width height channels
          kernel_size = Some m'
    ∧ filled m0 m' input out width height channels (kernel_size ÷ 2) 0 height.
Proof.
  intros Hdims Hks Hr Hdisj Hsched.
  destruct (k_offset_range kernel_size Hks Hr) as [Hk Hkr].
  pose proof Hdims as (Hw & Hh & _).
  rewrite openmp_shape, Hk.
  apply pixels_yx_run; [done|done|lia|done|].
  intros y x. unfold OpenMP.schedule in Hsched. rewrite Hsched.
  apply elem_of_collapsed.
Qed.

(** ** The stencil kernel computes the average over the valid neighbours *)

(** When the accumulator holds the window sum, the stored byte is the
    truncated average. *)
Lemma blur_byte_average m input width height channels x y radius c :
  valid_dims width height channels →
  is_image m input (width * height * channels) →
  0 ≤ x < width → 0 ≤ y < height → 0 ≤ radius → 0 ≤ c < 3 →
  window_sum (load m input) width height channels x y radius c ≤ INT_MAX →
  blur_byte (load m input) width height channels x y radius c
  = box_average (load m input) width height channels x y radius c
  ∧ 0 ≤ box_average (load m input) width height channels x y radius c ≤ 255.
Proof.
  intros Hdims Himg Hx Hy Hr Hc Hfit.
  pose proof (window_sum_bounds m input width height channels x y radius c
                Hdims Himg Hc) as Hsum.
  pose proof (window_count_bounds width height x y radius Hx Hy Hr) as Hcnt.
  unfold blur_byte, box_average.
  set (S := window_sum (load m input) width height channels x y radius c) in *.
  set (C := window_count width height x y radius) in *.
  assert (0 ≤ S ÷ C ≤ 255) as Havg.
  { rewrite Z.quot_div_nonneg by lia. split.
    - apply Z.div_pos; lia.
    - apply Z.div_le_upper_bound; lia. }
  split; [|done].
  rewrite (wrap_id S) by (unfold in_int, INT_MIN, INT_MAX in *; lia).
  rewrite idiv_id by (unfold in_int, INT_MIN, INT_MAX; lia).
  unfold uchar. apply Z.mod_small. lia.
Qed.

(** C1, as amended.  For a valid buffer, an in-bounds pixel, a radius
    [kernel_size / 2 >= 0] and an output channel [c], the sequential blur
    stores at [(x, y, c)] the sum of the input samples of channel [c]
    (channel 0 of a single-channel image) over the window coordinates
    inside the image, divided by their number, truncated toward zero,
    provided that sum does not exceed [INT_MAX], the range of the [int]
    accumulator. *)
Theorem stencil_average m input out width height channels kernel_size x y c :
  valid_dims width height channels →
  is_image m input (width * height * channels) →
  disjoint input (width * height * channels) out (width * height * 3) →
  in_int kernel_size → 0 ≤ kernel_size ÷ 2 →
  0 ≤ x < width → 0 ≤ y < height → 0 ≤ c < 3 →
  window_sum (load m input) width height channels x y (kernel_size ÷ 2) c
    ≤ INT_MAX →
  ∃ m', Serial.apply_box_blur_color m input out width height channels
          kernel_size = Some m'
    ∧ m' (cell out width y x c)
      = box_average (load m input) width height channels x y (kernel_size ÷ 2) c.
Proof.
  intros Hdims Himg Hdisj Hks Hr Hx Hy Hc Hfit.
  destruct (serial_run m input out width height channels kernel_size)
    as (m' & Hrun & [Hval _]); [done..|].
  exists m'. split; [done|].
  specialize (Hval x y c Hx ltac:(lia) Hc). rewrite Z.sub_0_r in Hval.
  rewrite Hval. by apply blur_byte_average.
Qed.

(** The sum fits whenever [255 * (2 * radius + 1)^2] does. *)
Lemma span_count_le_window extent base radius :
  0 ≤ radius → span_count extent base radius ≤ 2 * radius + 1.
Proof.
  intros Hr. unfold span_count, offsets, range_le.
  pose proof (length_filter (in_span 0 extent base) (seqZ (- radius) (radius - - radius + 1))) as Hl.
  rewrite length_seqZ in Hl. lia.
Qed.

Lemma window_sum_fits m input width height channels x y radius c :
  valid_dims width height channels →
  is_image m input (width * height * channels) →
  0 ≤ radius → 0 ≤ c < 3 →
  255 * ((2 * radius + 1) * (2 * radius + 1)) ≤ INT_MAX →
  window_sum (load m input) width height channels x y radius c ≤ INT_MAX.
Proof.
  intros Hdims Himg Hr Hc Hfit.
  pose proof (window_sum_bounds m input width height channels x y radius c
                Hdims Himg Hc) as Hsum.
  rewrite window_count_product in Hsum.
  pose proof (span_count_le_window width x radius Hr).
  pose proof (span_count_le_window height y radius Hr).
  assert (0 ≤ span_count width x radius) by (unfold span_count; lia).
  assert (0 ≤ span_count height y radius) by (unfold span_count; lia).
  nia.
Qed.

Lemma is_image_mem_of fill p l n :
  0 ≤ fill ≤ 255 → Forall (λ b, 0 ≤ b ≤ 255) l → is_image (mem_of fill p l) p n.
Proof.
  intros Hfill Hl i _. unfold load, mem_of.
  destruct (bool_decide _); [|done].
  destruct (l !! Z.to_nat (p + i - p)) as [b|] eqn:Hb; [|done]. simpl.
  rewrite Forall_lookup in Hl. by apply (Hl _ _ Hb).
Qed.

Lemma scenario_is_image n : is_image (mem_of 0 0 scenario_input) 0 n.
Proof.
  apply is_image_mem_of; [lia|]. apply Forall_seqZ. lia.
Qed.

Lemma stencil_average_witness :
  ∃ m', Serial.apply_box_blur_color (mem_of 0 0 scenario_input) 0 16 4 4 1 3
        = Some m'
    ∧ m' (cell 16 4 0 0 0)
      = box_average (load (mem_of 0 0 scenario_input) 0) 4 4 1 0 0 (3 ÷ 2) 0.
Proof.
  apply (stencil_average (mem_of 0 0 scenario_input) 0 16 4 4 1 3 0 0 0).
  - unfold valid_dims, INT_MAX. lia.
  - apply scenario_is_image.
  - unfold disjoint. lia.
  - unfold in_int, INT_MIN, INT_MAX. lia.
  - by vm_compute.
  - lia.
  - lia.
  - lia.
  - by vm_compute.
Defined.

(** *** An accumulator that overflows *)

Lemma window_sum_flat v p width height channels x y radius c :
  window_sum (load (λ _, v) p) width height channels x y radius c
  = v * window_count width height x y radius.
Proof.
  unfold window_sum, window_count.
  induction (valid_neighbors width height x y radius) as [|q l IH]; [simpl; lia|].
  rewrite fmap_cons, sumZ_cons, length_cons, Nat2Z.inj_succ, IH.
  unfold sample, load. lia.
Qed.

(** An all-white 2903 x 2903 single-channel image, kernel size 2903: the
    window of the centre pixel is the whole image, 8427409 samples of 255. *)
Lemma white_window_count : window_count 2903 2903 1451 1451 1451 = 8427409.
Proof.
  rewrite window_count_product.
  assert (span_count 2903 1451 1451 = 2903) as -> by (by vm_compute).
  done.
Qed.

Lemma white_window :
  window_sum (load (λ _, 255) 0) 2903 2903 1 1451 1451 1451 0 = 2148989295
  ∧ blur_byte (load (λ _, 255) 0) 2903 2903 1 1451 1451 1451 0 = 2
  ∧ box_average (load (λ _, 255) 0) 2903 2903 1 1451 1451 1451 0 = 255.
Proof.
  unfold blur_byte, box_average.
  rewrite window_sum_flat, white_window_count. by vm_compute.
Qed.

Lemma white_dims : valid_dims 2903 2903 1.
Proof. unfold valid_dims, INT_MAX. lia. Qed.

(** C1, the counterexample: on that image the sum 2148989295 exceeds
    [INT_MAX]; the sequential blur stores 2 at the centre pixel where the
    truncated average is 255. *)
Lemma stencil_average_overflow :
  ∃ m', Serial.apply_box_blur_color (λ _, 255) 0 100000000 2903 2903 1 2903
        = Some m'
    ∧ m' (cell 100000000 2903 1451 1451 0) = 2
    ∧ box_average (load (λ _, 255) 0) 2903 2903 1 1451 1451 (2903 ÷ 2) 0 = 255.
Proof.
  destruct (serial_run (λ _, 255) 0 100000000 2903 2903 1 2903)
    as (m' & Hrun & [Hval _]).
  - apply white_dims.
  - unfold in_int, INT_MIN, INT_MAX. lia.
  - by vm_compute.
  - unfold disjoint. lia.
  - exists m'. split; [done|].
    specialize (Hval 1451 1451 0 ltac:(lia) ltac:(lia) ltac:(lia)).
    change (1451 - 0) with 1451 in Hval. change (2903 ÷ 2) with 1451 in *.
    rewrite Hval. split; apply white_window.
Qed.

(** ** The division is safe *)

(** C10, as amended.  For an in-bounds pixel and a radius
    [kernel_size / 2 >= 0], the count the window loops of the sequential
    and of the OpenMP kernel accumulate is the number of valid neighbours
    and is at least 1, so the division never divides by zero; and when
    the samples are bytes and their window sum does not exceed [INT_MAX],
    the quotient lies in [0, 255] and the cast to [unsigned char] keeps
    it. *)
Theorem division_safe m input width height channels kernel_size x y c sum count :
  valid_dims width height channels →
  in_int kernel_size → 0 ≤ kernel_size ÷ 2 →
  0 ≤ x < width → 0 ≤ y < height → 0 ≤ c < 3 →
  Serial.window m input width height channels (idiv kernel_size 2) x y c
    = (sum, count)
  ∨ OpenMP.window m input width height channels (idiv kernel_size 2) x y c
    = (sum, count) →
  count = window_count width height x y (kernel_size ÷ 2) ∧ 1 ≤ count
  ∧ (is_image m input (width * height * channels) →
     window_sum (load m input) width height channels x y (kernel_size ÷ 2) c
       ≤ INT_MAX →
     0 ≤ idiv sum count ≤ 255 ∧ uchar (idiv sum count) = idiv sum count).
Proof.
  intros Hdims Hks Hr Hx Hy Hc Hwin.
  destruct (k_offset_range kernel_size Hks Hr) as [Hk Hkr].
  rewrite openmp_window_eq, Hk in Hwin.
  assert (Serial.window m input width height channels (kernel_size ÷ 2) x y c
          = (sum, count)) as Hw by (by destruct Hwin).
  rewrite serial_window_spec in Hw by done.
  pose proof (window_count_bounds width height x y (kernel_size ÷ 2) Hx Hy Hr)
    as Hcnt.
  rewrite (wrap_id (window_count _ _ _ _ _)) in Hw.
  2:{ destruct Hdims as (? & ? & ? & ? & ?).
      unfold in_int, INT_MIN, INT_MAX in *. nia. }
  injection Hw as <- <-. split; [done|]. split; [lia|].
  intros Himg Hfit.
  destruct (blur_byte_average m input width height channels x y
              (kernel_size ÷ 2) c) as [Hbyte Havg]; [done..|].
  unfold blur_byte, box_average in *.
  pose proof (window_sum_bounds m input width height channels x y
                (kernel_size ÷ 2) c Hdims Himg Hc) as Hsum.
  rewrite (wrap_id (window_sum _ _ _ _ _ _ _ _)) in *
    by (unfold in_int, INT_MIN, INT_MAX in *; lia).
  rewrite idiv_id in * by (unfold in_int, INT_MIN, INT_MAX; lia).
  done.
Qed.

Lemma division_safe_witness :
  6 = window_count 4 4 1 0 (3 ÷ 2) ∧ 1 ≤ 6
  ∧ (is_image (mem_of 0 0 scenario_input) 0 (4 * 4 * 1) →
     window_sum (load (mem_of 0 0 scenario_input) 0) 4 4 1 1 0 (3 ÷ 2) 0
       ≤ INT_MAX →
     0 ≤ idiv 18 6 ≤ 255 ∧ uchar (idiv 18 6) = idiv 18 6).
Proof.
  apply (division_safe (mem_of 0 0 scenario_input) 0 4 4 1 3 1 0 0 18 6).
  - unfold valid_dims, INT_MAX. lia.
  - unfold in_int, INT_MIN, INT_MAX. lia.
  - by vm_compute.
  - lia.
  - lia.
  - lia.
  - left. by vm_compute.
Defined.

(** C10, the counterexample: on the all-white 2903 x 2903 image with
    kernel size 2903 the sum accumulated for the centre pixel has wrapped
    to -2145978001; the quotient is -254, outside [0, 255], and the cast
    turns it into 2. *)
Lemma division_overflow :
  Serial.window (λ _, 255) 0 2903 2903 1 (idiv 2903 2) 1451 1451 0
  = (-2145978001, 8427409)
  ∧ idiv (-2145978001) 8427409 = -254
  ∧ uchar (idiv (-2145978001) 8427409) = 2.
Proof.
  split; [|by vm_compute].
  change (idiv 2903 2) with 1451.
  rewrite serial_window_spec; [|apply white_dims|lia..].
  destruct white_window as (-> & _). rewrite white_window_count.
  by vm_compute.
Qed.

(** ** The concrete scenario *)

(** C7.  For the 4 x 4 single-channel image with samples 0 .. 15 in
    row-major order and kernel size 3, the valid neighbours of pixel
    (0, 0) are (0,0), (1,0), (0,1), (1,1), their samples are 0, 1, 4, 5,
    and the sequential blur stores their truncated average 2 in all three
    output channels of pixel (0, 0). *)
Theorem scenario_corner m input out :
  (∀ i, 0 ≤ i < 16 → load m input i = i) →
  disjoint input 16 out 48 →
  valid_neighbors 4 4 0 0 (3 ÷ 2) = [(0, 0); (1, 0); (0, 1); (1, 1)]
  ∧ sample (load m input) 4 1 0 <$> valid_neighbors 4 4 0 0 (3 ÷ 2) = [0; 1; 4; 5]
  ∧ (0 + 1 + 4 + 5) ÷ 4 = 2
  ∧ ∃ m', Serial.apply_box_blur_color m input out 4 4 1 3 = Some m'
      ∧ ∀ c, 0 ≤ c < 3 → m' (cell out 4 0 0 c) = 2.
Proof.
  intros Himg Hdisj.
  assert (valid_neighbors 4 4 0 0 (3 ÷ 2) = [(0, 0); (1, 0); (0, 1); (1, 1)])
    as Hn by (by vm_compute).
  split; [done|]. rewrite Hn. split.
  { unfold sample; simpl. by rewrite !Himg by lia. }
  split; [by vm_compute|].
  assert (valid_dims 4 4 1) as Hdims by (unfold valid_dims, INT_MAX; lia).
  destruct (serial_run m input out 4 4 1 3) as (m' & Hrun & [Hval _]);
    [done|unfold in_int, INT_MIN, INT_MAX; lia|by vm_compute|done|].
  exists m'. split; [done|]. intros c Hc.
  specialize (Hval 0 0 c ltac:(lia) ltac:(lia) Hc). rewrite Z.sub_0_r in Hval.
  rewrite Hval.
  rewrite (blur_byte_ext _ (λ i, i)); [|done|done|apply Himg].
  assert (c = 0 ∨ c = 1 ∨ c = 2) as [->|[->| ->]] by lia; by vm_compute.
Qed.

Lemma scenario_load i :
  0 ≤ i < 16 → load (mem_of 0 0 scenario_input) 0 i = i.
Proof.
  intros Hi.
  assert (i = 0 ∨ i = 1 ∨ i = 2 ∨ i = 3 ∨ i = 4 ∨ i = 5 ∨ i = 6 ∨ i = 7 ∨
          i = 8 ∨ i = 9 ∨ i = 10 ∨ i = 11 ∨ i = 12 ∨ i = 13 ∨ i = 14 ∨ i = 15)
    as Hcases by lia.
  repeat (destruct Hcases as [->|Hcases]; [done|]). by subst.
Qed.

Lemma scenario_corner_witness :
  valid_neighbors 4 4 0 0 (3 ÷ 2) = [(0, 0); (1, 0); (0, 1); (1, 1)]
  ∧ sample (load (mem_of 0 0 scenario_input) 0) 4 1 0
      <$> valid_neighbors 4 4 0 0 (3 ÷ 2) = [0; 1; 4; 5]
  ∧ (0 + 1 + 4 + 5) ÷ 4 = 2
  ∧ ∃ m', Serial.apply_box_blur_color (mem_of 0 0 scenario_input) 0 16 4 4 1 3
          = Some m'
      ∧ ∀ c, 0 ≤ c < 3 → m' (cell 16 4 0 0 c) = 2.
Proof.
  apply (scenario_corner (mem_of 0 0 scenario_input) 0 16).
  - apply scenario_load.
  - unfold disjoint. lia.
Defined.

(** ** The partition formula *)

Section partition.
Context (height size : Z).
Context (Hheight : 1 ≤ height ≤ INT_MAX) (Hsize : 1 ≤ size ≤ INT_MAX).

Local Abbreviation base := (height `div` size).

Lemma base_bounds : 0 ≤ base ∧ size * base ≤ height < size * base + size.
Proof.
  pose proof (Z.div_mod height size ltac:(lia)).
  pose proof (Z.mod_pos_bound height size ltac:(lia)).
  split; [apply Z.div_pos; lia|lia].
Qed.

Lemma rows_per_process_eq : MPI.rows_per_process height size = base.
Proof.
  unfold MPI.rows_per_process. rewrite idiv_id.
  - apply Z.quot_div_nonneg; lia.
  - rewrite Z.quot_div_nonneg by lia. pose proof base_bounds.
    unfold in_int, INT_MIN, INT_MAX in *. nia.
Qed.

Lemma start_row_eq rank :
  0 ≤ rank < size → MPI.start_row height size rank = rank * base.
Proof.
  intros Hr. unfold MPI.start_row. rewrite rows_per_process_eq.
  apply imul_id. pose proof base_bounds.
  unfold in_int, INT_MIN, INT_MAX in *. nia.
Qed.

Lemma end_row_eq rank :
  0 ≤ rank < size →
  MPI.end_row height size rank
  = if decide (rank = size - 1) then height else (rank + 1) * base.
Proof.
  intros Hr. unfold MPI.end_row.
  rewrite isub_id by (unfold in_int, INT_MIN, INT_MAX in *; lia).
  destruct (Z.eqb_spec rank (size - 1)) as [->|Hne].
  - by rewrite decide_True.
  - rewrite decide_False by done.
    rewrite start_row_eq, rows_per_process_eq by done.
    pose proof base_bounds.
    rewrite iadd_id by (unfold in_int, INT_MIN, INT_MAX in *; nia). lia.
Qed.

Lemma my_rows_eq rank :
  0 ≤ rank < size →
  MPI.my_rows height size rank
  = MPI.end_row height size rank - MPI.start_row height size rank
  ∧ 0 ≤ MPI.start_row height size rank ≤ MPI.end_row height size rank
  ∧ MPI.end_row height size rank ≤ height.
Proof.
  intros Hr. unfold MPI.my_rows. rewrite start_row_eq, end_row_eq by done.
  pose proof base_bounds.
  assert (0 ≤ rank * base ≤ (if decide (rank = size - 1) then height
                             else (rank + 1) * base)
          ∧ (if decide (rank = size - 1) then height else (rank + 1) * base)
            ≤ height) as Hb.
  { destruct (decide (rank = size - 1)) as [->|]; nia. }
  split; [|done]. apply isub_id. unfold in_int, INT_MIN, INT_MAX in *. lia.
Qed.

(** Consecutive ranges meet. *)
Lemma end_row_next rank :
  0 ≤ rank < size - 1 →
  MPI.end_row height size rank = MPI.start_row height size (rank + 1).
Proof.
  intros Hr. rewrite end_row_eq, start_row_eq by lia.
  by rewrite decide_False by lia.
Qed.

(** Ranges are ordered: an earlier one ends before a later one starts. *)
Lemma end_row_le_start i j :
  0 ≤ i → i < j → j < size →
  MPI.end_row height size i ≤ MPI.start_row height size j.
Proof.
  intros Hi Hij Hj. rewrite end_row_eq, start_row_eq by lia.
  rewrite decide_False by lia. pose proof base_bounds. nia.
Qed.

Lemma owner_spec row :
  0 ≤ row < height →
  0 ≤ owner height size row < size
  ∧ MPI.start_row height size (owner height size row) ≤ row
      < MPI.end_row height size (owner height size row).
Proof.
  intros Hrow. pose proof base_bounds as [Hb0 Hb]. unfold owner.
  destruct (decide (base = 0)) as [Hz|Hnz].
  - split; [lia|]. rewrite start_row_eq, end_row_eq by lia.
    rewrite decide_True by done. rewrite Hz. lia.
  - pose proof (Z.div_mod row base Hnz).
    pose proof (Z.mod_pos_bound row base ltac:(lia)).
    assert (0 ≤ row `div` base) by (apply Z.div_pos; lia).
    split; [lia|]. rewrite start_row_eq, end_row_eq by lia.
    destruct (Z.min_spec (row `div` base) (size - 1)) as [[Hlt ->]|[Hge ->]].
    + rewrite decide_False by lia. nia.
    + rewrite decide_True by done. nia.
Qed.

Lemma owner_unique row rank :
  0 ≤ rank < size →
  MPI.start_row height size rank ≤ row < MPI.end_row height size rank →
  rank = owner height size row.
Proof.
  intros Hr Hin.
  assert (0 ≤ row < height) as Hrow.
  { destruct (my_rows_eq rank Hr) as (_ & ? & ?). lia. }
  destruct (owner_spec row Hrow) as [Ho Hin'].
  destruct (Z.lt_trichotomy rank (owner height size row)) as [Hlt|[->|Hgt]];
    [|done|].
  - pose proof (end_row_le_start rank (owner height size row)). lia.
  - pose proof (end_row_le_start (owner height size row) rank). lia.
Qed.

End partition.

(** ** The gather *)

Lemma gatherv_run sends recvcounts displs root recvbuf :
  length recvcounts = length sends → length displs = length sends →
  (∀ i sm sb sc rc, sends !! i = Some (sm, sb, sc) → recvcounts !! i = Some rc →
     0 ≤ sc ≤ rc) →
  ∃ root', MPI.MPI_Gatherv sends recvcounts displs root recvbuf = Some root'
    ∧ gathered sends displs root root' recvbuf.
Proof.
  revert recvcounts displs root.
  induction sends as [|[[sm sb] sc] sends IH]; intros rcs ds root Hlr Hld Hcnt.
  { exists root. split; [done|]. split; [done|].
    intros a i sm sb sc d Hs. by rewrite lookup_nil in Hs. }
  destruct rcs as [|rc rcs]; [done|]. destruct ds as [|d ds]; [done|].
  simpl in Hlr, Hld.
  pose proof (Hcnt 0%nat sm sb sc rc eq_refl eq_refl) as Hsc.
  cbn [MPI.MPI_Gatherv].
  replace ((sc <? 0) || (rc <? sc)) with false
    by (symmetry; apply orb_false_intro; lia).
  destruct (IH rcs ds (copy_bytes sm sb root (recvbuf + d) sc))
    as (root' & Hrun & [Hframe Hval]); [lia|lia| |].
  { intros i sm' sb' sc' rc' Hs Hr. by apply (Hcnt (S i) sm' sb' sc' rc'). }
  exists root'. split; [done|]. split.
  - intros a Ha. rewrite Hframe.
    + unfold copy_bytes. rewrite bool_decide_false; [done|].
      apply (Ha 0%nat sm sb sc d eq_refl eq_refl).
    + intros i sm' sb' sc' d' Hs Hd. by apply (Ha (S i) sm' sb' sc' d').
  - intros a [|i] sm' sb' sc' d' Hs Hd Hin Hlater.
    + injection Hs as -> -> ->. injection Hd as ->.
      rewrite Hframe.
      * unfold copy_bytes. by rewrite bool_decide_true.
      * intros j smj sbj scj dj Hs Hd.
        apply (Hlater (S j) smj sbj scj dj); [lia|done|done].
    + apply (Hval a i sm' sb' sc' d' Hs Hd Hin).
      intros j sm'' sb'' sc'' d'' Hij Hs' Hd'.
      apply (Hlater (S j) sm'' sb'' sc'' d''); [lia|done|done].
Qed.

(** ** All ranks compute *)

Lemma compute_all_run width height channels kernel_size size rank procs
    (post : Z → MPI.process → mem → Prop) :
  (∀ i p, procs !! i = Some p →
     ∃ m', MPI.apply_box_blur_mpi (MPI.memory p) (MPI.input_rgb p) (MPI.my_output p)
             width height channels kernel_size
             (MPI.start_row height size (rank + Z.of_nat i))
             (MPI.end_row height size (rank + Z.of_nat i)) = Some m'
       ∧ post (rank + Z.of_nat i) p m') →
  ∃ sends, MPI.compute_all width height channels kernel_size size rank procs
           = Some sends
    ∧ length sends = length procs
    ∧ ∀ i p, procs !! i = Some p →
        ∃ m', sends !! i
              = Some (m', MPI.my_output p,
                      imul (imul (MPI.my_rows height size (rank + Z.of_nat i))
                              width) 3)
          ∧ post (rank + Z.of_nat i) p m'.
Proof.
  revert rank. induction procs as [|p procs IH]; intros rank Hall.
  { exists []. split; [done|]. split; [done|].
    intros i p Hp. by rewrite lookup_nil in Hp. }
  destruct (Hall 0%nat p eq_refl) as (m' & Hrun & Hpost).
  destruct (IH (rank + 1)) as (sends & Hsends & Hlen & Hrest).
  { intros i q Hq. destruct (Hall (S i) q Hq) as (mq & Hmq & Hpq).
    replace (rank + 1 + Z.of_nat i) with (rank + Z.of_nat (S i)) by lia. eauto. }
  cbn [MPI.compute_all]. unfold MPI.rank_compute.
  rewrite Z.add_0_r in Hrun. rewrite Hrun. cbn [mbind option_bind].
  rewrite Hsends. cbn [mbind option_bind].
  eexists. split; [done|]. split; [simpl; lia|].
  intros [|i] q Hq.
  - injection Hq as <-. exists m'. split; [|done]. simpl. by rewrite Z.add_0_r.
  - destruct (Hrest i q Hq) as (mq & Hmq & Hpq). exists mq.
    replace (rank + Z.of_nat (S i)) with (rank + 1 + Z.of_nat i) by lia.
    by split.
Qed.

(** ** The distributed run *)

Lemma valid_dims_height width height channels :
  valid_dims width height channels → 1 ≤ height ≤ INT_MAX ∧ 1 ≤ width ≤ INT_MAX.
Proof. intros (? & ? & ? & ? & ?). unfold INT_MAX in *. nia. Qed.

Lemma image_size_eq width height channels :
  valid_dims width height channels →
  imul (imul width height) channels = width * height * channels
  ∧ imul (imul width height) 3 = width * height * 3.
Proof.
  intros (? & ? & ? & ? & ?). unfold INT_MAX in *.
  rewrite (imul_id width height) by (unfold in_int, INT_MIN, INT_MAX; nia).
  split; apply imul_id; unfold in_int, INT_MIN, INT_MAX; nia.
Qed.

Section counts.
Context (width height channels size : Z).
Context (Hdims : valid_dims width height channels).
Context (Hsize : 1 ≤ size ≤ INT_MAX).

Local Abbreviation start i := (MPI.start_row height size i).
Local Abbreviation stop i := (MPI.end_row height size i).

Lemma rows_bytes rank :
  0 ≤ rank < size →
  imul (imul (MPI.my_rows height size rank) width) 3
  = (stop rank - start rank) * width * 3
  ∧ 0 ≤ (stop rank - start rank) * width * 3
  ∧ start rank * width * 3 + (stop rank - start rank) * width * 3
    ≤ width * height * 3.
Proof.
  intros Hr. destruct (valid_dims_height _ _ _ Hdims) as [Hh Hw].
  destruct (my_rows_eq height size Hh Hsize rank Hr) as (-> & Hs & He).
  destruct Hdims as (? & ? & ? & ? & ?). unfold INT_MAX in *.
  rewrite (imul_id _ width) by (unfold in_int, INT_MIN, INT_MAX; nia).
  rewrite imul_id by (unfold in_int, INT_MIN, INT_MAX; nia).
  split; [done|]. nia.
Qed.

Lemma recv_count_eq rank :
  MPI.recv_count width height size rank
  = imul (imul (MPI.my_rows height size rank) width) 3.
Proof. reflexivity. Qed.

Lemma displ_eq rank :
  0 ≤ rank < size → MPI.displ width height size rank = start rank * width * 3.
Proof.
  intros Hr. destruct (valid_dims_height _ _ _ Hdims) as [Hh Hw].
  destruct (my_rows_eq height size Hh Hsize rank Hr) as (_ & Hs & He).
  unfold MPI.displ. fold (MPI.start_row height size rank).
  destruct Hdims as (? & ? & ? & ? & ?). unfold INT_MAX in *.
  rewrite (imul_id _ width) by (unfold in_int, INT_MIN, INT_MAX; nia).
  apply imul_id. unfold in_int, INT_MIN, INT_MAX; nia.
Qed.

Lemma lookup_recv_counts i :
  Z.of_nat i < size →
  MPI.recv_counts width height size !! i
  = Some (MPI.recv_count width height size (Z.of_nat i)).
Proof.
  intros Hi. unfold MPI.recv_counts, range_lt.
  rewrite list_lookup_fmap, lookup_seqZ_lt by lia. done.
Qed.

Lemma lookup_displs i :
  Z.of_nat i < size →
  MPI.displs width height size !! i
  = Some (MPI.displ width height size (Z.of_nat i)).
Proof.
  intros Hi. unfold MPI.displs, range_lt.
  rewrite list_lookup_fmap, lookup_seqZ_lt by lia. done.
Qed.

(** The place of a rank in root's buffer holds exactly the cells of its
    rows. *)
Lemma place_rows out rank x y c :
  0 ≤ rank < size → 0 ≤ x < width → 0 ≤ y < height → 0 ≤ c < 3 →
  place out (start rank * width * 3) ((stop rank - start rank) * width * 3)
    (cell out width y x c)
  ↔ start rank ≤ y < stop rank.
Proof.
  intros Hr Hx Hy Hc. unfold place, cell.
  destruct (valid_dims_height _ _ _ Hdims) as [Hh Hw].
  destruct (my_rows_eq height size Hh Hsize rank Hr) as (_ & Hs & He).
  split; intros Hin; [split|]; nia.
Qed.

End counts.

Lemma bcast_image n root p i :
  0 ≤ i < n →
  load (MPI.memory (MPI.MPI_Bcast n root p)) (MPI.input_rgb (MPI.MPI_Bcast n root p)) i
  = load (MPI.memory root) (MPI.input_rgb root) i.
Proof.
  intros Hi. unfold load, MPI.MPI_Bcast, copy_bytes; simpl.
  rewrite bool_decide_true by lia. f_equal. lia.
Qed.

Lemma bcast_root n root a :
  MPI.memory (MPI.MPI_Bcast n root root) a = MPI.memory root a.
Proof.
  unfold MPI.MPI_Bcast, copy_bytes; simpl.
  destruct (bool_decide _); [f_equal; lia|done].
Qed.

Lemma mpi_main_run root procs out_root width height channels kernel_size :
  valid_dims width height channels →
  in_int kernel_size → 0 ≤ kernel_size ÷ 2 →
  group_ok width height channels (root :: procs) out_root →
  ∃ m', MPI.main (root :: procs) out_root width height channels kernel_size
        = Some m'
    ∧ (∀ x y c, 0 ≤ x < width → 0 ≤ y < height → 0 ≤ c < 3 →
         m' (cell out_root width y x c)
         = blur_byte (load (MPI.memory root) (MPI.input_rgb root))
             width height channels x y (kernel_size ÷ 2) c)
    ∧ (∀ a, ¬ (out_root ≤ a < out_root + width * height * 3) →
         ¬ (MPI.my_output root ≤ a
            < MPI.my_output root
              + width * (MPI.end_row height (Z.of_nat (length (root :: procs))) 0
                         - MPI.start_row height (Z.of_nat (length (root :: procs))) 0)
                * 3) →
         m' a = MPI.memory root a).
Proof.
  intros Hdims Hks Hr (Hmax & Hprocs & Hroot).
  set (size := Z.of_nat (length (root :: procs))) in *.
  assert (1 ≤ size ≤ INT_MAX) as Hsize.
  { split; [|done]. unfold size. rewrite length_cons. lia. }
  destruct (valid_dims_height _ _ _ Hdims) as [Hh Hw].
  destruct (image_size_eq _ _ _ Hdims) as [Hn _].
  specialize (Hroot root eq_refl).
  unfold MPI.main. fold size. cbn [head mbind option_bind]. rewrite Hn.
  set (n := width * height * channels) in *.
  set (bc := MPI.MPI_Bcast n root <$> root :: procs).
  (* every rank blurs its rows *)
  destruct (compute_all_run width height channels kernel_size size 0 bc
    (λ rank p m', filled (MPI.memory p) m' (MPI.input_rgb p) (MPI.my_output p)
                    width height channels (kernel_size ÷ 2)
                    (MPI.start_row height size rank)
                    (MPI.end_row height size rank - MPI.start_row height size rank)))
    as (sends & Hsends & Hlen & Hsend).
  { intros i p' Hp'. unfold bc in Hp'. rewrite list_lookup_fmap in Hp'.
    destruct ((root :: procs) !! i) as [p|] eqn:Hp; [|done].
    injection Hp' as <-. rewrite Z.add_0_l.
    assert (0 ≤ Z.of_nat i < size) as Hi.
    { apply lookup_lt_Some in Hp. unfold size. lia. }
    destruct (my_rows_eq height size Hh Hsize _ Hi) as (_ & Hs & He).
    apply mpi_rows_run; [done|done|done|lia|]. apply (Hprocs i p Hp). }
  rewrite Hsends. cbn [mbind option_bind].
  assert (length bc = length (root :: procs)) as Hbc
    by (unfold bc; by rewrite length_fmap).
  destruct (Hsend 0%nat (MPI.MPI_Bcast n root root) eq_refl)
    as (m0 & Hs0 & Hfill0).
  rewrite Z.add_0_l in Hs0, Hfill0. change (Z.of_nat 0) with 0 in Hs0, Hfill0.
  assert (head sends = Some (m0, MPI.my_output (MPI.MPI_Bcast n root root),
            imul (imul (MPI.my_rows height size 0) width) 3)) as Hhead.
  { destruct sends; [done|]. simpl in Hs0. by injection Hs0 as ->. }
  rewrite Hhead. cbn [mbind option_bind].
  (* what every contribution is *)
  assert (∀ i sm sb sc, sends !! i = Some (sm, sb, sc) →
    0 ≤ Z.of_nat i < size
    ∧ sc = (MPI.end_row height size (Z.of_nat i)
            - MPI.start_row height size (Z.of_nat i)) * width * 3
    ∧ ∃ p, (root :: procs) !! i = Some p ∧ sb = MPI.my_output p
      ∧ filled (MPI.memory (MPI.MPI_Bcast n root p)) sm
          (MPI.input_rgb p) (MPI.my_output p)
          width height channels (kernel_size ÷ 2)
          (MPI.start_row height size (Z.of_nat i))
          (MPI.end_row height size (Z.of_nat i)
           - MPI.start_row height size (Z.of_nat i))) as Hcontrib.
  { intros i sm sb sc Hs.
    assert (0 ≤ Z.of_nat i < size) as Hi.
    { apply lookup_lt_Some in Hs. rewrite Hlen, Hbc in Hs. unfold size. lia. }
    destruct (bc !! i) as [p'|] eqn:Hp'.
    2:{ apply lookup_ge_None in Hp'. unfold size in Hi. lia. }
    destruct (Hsend i p' Hp') as (m' & Hs' & Hfill').
    rewrite Hs in Hs'. injection Hs' as -> -> ->.
    rewrite Z.add_0_l in Hfill'.
    unfold bc in Hp'. rewrite list_lookup_fmap in Hp'.
    destruct ((root :: procs) !! i) as [p|] eqn:Hp; [|done].
    injection Hp' as <-. split; [done|]. rewrite Z.add_0_l.
    destruct (rows_bytes width height channels size Hdims Hsize _ Hi) as (-> & _).
    split; [done|]. by exists p. }
  (* the gather *)
  destruct (gatherv_run sends (MPI.recv_counts width height size)
              (MPI.displs width height size) m0 out_root)
    as (m' & Hgather & [Hframe Hval]).
  { unfold MPI.recv_counts, range_lt. rewrite length_fmap, length_seqZ, Hlen, Hbc.
    unfold size. lia. }
  { unfold MPI.displs, range_lt. rewrite length_fmap, length_seqZ, Hlen, Hbc.
    unfold size. lia. }
  { intros i sm sb sc rc Hs Hrc.
    destruct (Hcontrib i sm sb sc Hs) as (Hi & -> & _).
    rewrite lookup_recv_counts in Hrc by lia. injection Hrc as <-.
    rewrite recv_count_eq.
    destruct (rows_bytes width height channels size Hdims Hsize _ Hi)
      as (-> & ? & _). lia. }
  exists m'. split; [done|]. split.
  - (* the cell of a pixel holds the bytes of the rank that owns its row *)
    intros x y c Hx Hy Hc.
    destruct (owner_spec height size Hh Hsize y Hy) as [Ho Hin].
    set (o := owner height size y) in *.
    destruct (lookup_lt_is_Some_2 sends (Z.to_nat o)) as [[[sm sb] sc] Hs].
    { rewrite Hlen, Hbc. unfold size in Ho. lia. }
    destruct (Hcontrib _ sm sb sc Hs) as (_ & Hsc & p & Hp & -> & [Hfv _]).
    rewrite Z2Nat.id in Hsc, Hfv by lia.
    rewrite (Hval (cell out_root width y x c) (Z.to_nat o) sm (MPI.my_output p) sc
               (MPI.start_row height size o * width * 3) Hs).
    + replace (MPI.my_output p
               + (cell out_root width y x c
                  - (out_root + MPI.start_row height size o * width * 3)))
        with (cell (MPI.my_output p) width (y - MPI.start_row height size o) x c)
        by (unfold cell; lia).
      rewrite Hfv by (done || lia).
      apply blur_byte_ext; [done|done|]. intros i Hi. by apply bcast_image.
    + rewrite lookup_displs by lia. rewrite Z2Nat.id by lia.
      by rewrite (displ_eq width height channels size Hdims Hsize) by done.
    + rewrite Hsc.
      by apply (place_rows width height channels size Hdims Hsize).
    + intros j smj sbj scj dj Hoj Hsj Hdj.
      destruct (Hcontrib _ smj sbj scj Hsj) as (Hj & -> & _).
      rewrite lookup_displs in Hdj by lia. injection Hdj as <-.
      rewrite (displ_eq width height channels size Hdims Hsize) by done.
      rewrite (place_rows width height channels size Hdims Hsize) by done.
      intros Hyj.
      pose proof (owner_unique height size Hh Hsize y (Z.of_nat j) Hj Hyj).
      fold o in H. lia.
  - (* elsewhere root's memory is what its own blur left *)
    intros a Hout Hmy. rewrite Hframe.
    + destruct Hfill0 as [_ Hf0]. simpl in Hf0. rewrite Hf0 by done.
      apply bcast_root.
    + intros i sm sb sc d Hs Hd.
      destruct (Hcontrib _ sm sb sc Hs) as (Hi & -> & _).
      rewrite lookup_displs in Hd by lia. injection Hd as <-.
      rewrite (displ_eq width height channels size Hdims Hsize) by done.
      destruct (rows_bytes width height channels size Hdims Hsize _ Hi)
        as (_ & ? & ?).
      destruct (my_rows_eq height size Hh Hsize _ Hi) as (_ & ? & ?).
      unfold place. lia.
Qed.

(** ** The accelerator launches *)

(** A launch whose threads blur the pixel of their coordinates when it is
    inside the image, and do nothing otherwise, fills the buffer as soon
    as every pixel has a thread. *)
Lemma launch_run {T} (coords : T → Z * Z) (order : list T)
    (kernel : T → mem → option mem) dev input out width height channels k :
  valid_dims width height channels → 0 ≤ k ≤ 1073741823 →
  disjoint input (width * height * channels) out (width * height * 3) →
  (∀ t d, t ∈ order →
     kernel t d = if decide (inside width height (coords t))
                  then pixel_step input out width height channels k
                         (coords t).1 (coords t).2 ((coords t).2 - 0) d
                  else Some d) →
  (∀ x y, 0 ≤ x < width → 0 ≤ y < height → ∃ t, t ∈ order ∧ coords t = (x, y)) →
  ∃ dev', for_eachM order kernel dev = Some dev'
    ∧ filled dev dev' input out width height channels k 0 height.
Proof.
  intros Hdims Hk Hdisj Hkernel Hcover.
  set (L := coords <$> filter (λ t, inside width height (coords t)) order).
  assert (Forall (pixel_ok width 0 height) L) as Hok.
  { apply Forall_fmap, Forall_forall. intros t [Hin _]%list_elem_of_filter.
    destruct Hin as [Hx Hy]. unfold pixel_ok; simpl. lia. }
  destruct (valid_dims_height _ _ _ Hdims) as [Hh Hw].
  destruct (pixels_run dev input out width height channels k 0 height
              Hdims Hk ltac:(lia) Hdisj L Hok) as (dev' & Hrun & Hb).
  exists dev'. split.
  - rewrite (for_eachM_ext order kernel _ dev Hkernel).
    rewrite (for_eachM_skip (λ t, inside width height (coords t))).
    2:{ intros t d Ht. by rewrite decide_False. }
    unfold L in Hrun. rewrite for_eachM_fmap in Hrun. rewrite <- Hrun.
    apply for_eachM_ext. intros t d [Hin _]%list_elem_of_filter.
    rewrite decide_True by done. by destruct (coords t).
  - eapply blurred_filled; [done| |done].
    intros x y Hx Hy. destruct (Hcover x y Hx ltac:(lia)) as (t & Ht & Hc).
    apply list_elem_of_fmap. exists t. split; [done|].
    apply list_elem_of_filter. split; [|done]. rewrite Hc. split; simpl; lia.
Qed.

Lemma elem_of_work_items global0 global1 g0 g1 :
  (g0, g1) ∈ OpenCL.work_items global0 global1
  ↔ 0 ≤ g0 < global0 ∧ 0 ≤ g1 < global1.
Proof.
  unfold OpenCL.work_items, range_lt. rewrite list_elem_of_bind. split.
  - intros (i1 & Hin & H1). apply list_elem_of_bind in Hin as (i0 & Hin & H0).
    apply list_elem_of_singleton in Hin as [= -> ->].
    apply elem_of_seqZ in H0, H1. lia.
  - intros [H0 H1]. exists g1. split; [|apply elem_of_seqZ; lia].
    apply list_elem_of_bind. exists g0. split; [by left|apply elem_of_seqZ; lia].
Qed.

Lemma opencl_kernel_spec g0 g1 d input out width height channels kernel_size :
  valid_dims width height channels →
  in_int kernel_size → 0 ≤ kernel_size ÷ 2 →
  0 ≤ g0 ≤ INT_MAX → 0 ≤ g1 ≤ INT_MAX →
  OpenCL.box_blur_kernel g0 g1 d input out width height channels kernel_size
  = if decide (inside width height (g0, g1))
    then pixel_step input out width height channels (kernel_size ÷ 2)
           g0 g1 (g1 - 0) d
    else Some d.
Proof.
  intros Hdims Hks Hr H0 H1.
  destruct (k_offset_range kernel_size Hks Hr) as [Hk Hkr].
  unfold OpenCL.box_blur_kernel.
  rewrite !wrap_id by (unfold in_int, INT_MIN, INT_MAX in *; lia).
  rewrite Hk, Z.sub_0_r. unfold inside; simpl.
  destruct (decide ((0 ≤ g0 < width) ∧ (0 ≤ g1 < height))) as [Hin|Hout].
  - replace ((width <=? g0) || (height <=? g1)) with false; [done|].
    symmetry. apply orb_false_intro; lia.
  - replace ((width <=? g0) || (height <=? g1)) with true; [done|].
    symmetry. apply orb_true_intro.
    destruct (Z.leb_spec width g0); [by left|].
    destruct (Z.leb_spec height g1); [by right|]. lia.
Qed.

Lemma copy_out_filled host dev dev' input_image output_image d_input d_output
    width height channels k n_in n_out :
  valid_dims width height channels →
  n_in = width * height * channels → n_out = width * height * 3 →
  filled (copy_bytes host input_image dev d_input n_in) dev'
    d_input d_output width height channels k 0 height →
  filled host (copy_bytes dev' d_output host output_image n_out)
    input_image output_image width height channels k 0 height.
Proof.
  intros Hdims -> -> [Hval Hframe]. split.
  - intros x y c Hx Hy Hc. unfold copy_bytes at 1.
    pose proof (cell_range output_image width height (y - 0) x c
                  ltac:(lia) Hx Hc) as Hcell.
    rewrite bool_decide_true by done.
    replace (d_output + (cell output_image width (y - 0) x c - output_image))
      with (cell d_output width (y - 0) x c) by (unfold cell; lia).
    rewrite Hval by done.
    apply blur_byte_ext; [done|done|]. intros i Hi.
    unfold load, copy_bytes. rewrite bool_decide_true by lia. f_equal. lia.
  - intros a Ha. unfold copy_bytes at 1. by rewrite bool_decide_false.
Qed.

Lemma opencl_run order host dev input_image output_image d_input d_output
    width height channels kernel_size :
  valid_dims width height channels →
  in_int kernel_size → 0 ≤ kernel_size ÷ 2 →
  disjoint d_input (width * height * channels) d_output (width * height * 3) →
  order ≡ₚ OpenCL.work_items width height →
  width `mod` 16 = 0 → height `mod` 16 = 0 →
  ∃ host', OpenCL.apply_box_blur_opencl order host dev input_image output_image
             d_input d_output width height channels kernel_size = Some host'
    ∧ filled host host' input_image output_image width height channels
        (kernel_size ÷ 2) 0 height.
Proof.
  intros Hdims Hks Hr Hdisj Horder Hw16 Hh16.
  destruct (k_offset_range kernel_size Hks Hr) as [Hk Hkr].
  destruct (image_size_eq _ _ _ Hdims) as [Hn Hout].
  destruct (valid_dims_height _ _ _ Hdims) as [Hh Hw].
  unfold OpenCL.apply_box_blur_opencl, OpenCL.clEnqueueNDRangeKernel.
  rewrite Hn, Hout, Hw16, Hh16. cbn [Z.eqb andb].
  destruct (launch_run (λ t : Z * Z, t) order
    (λ '(g0, g1) d, OpenCL.box_blur_kernel g0 g1 d d_input d_output
                      width height channels kernel_size)
    (copy_bytes host input_image dev d_input (width * height * channels))
    d_input d_output width height channels (kernel_size ÷ 2))
    as (dev' & Hrun & Hfill); [done|done|done| | |].
  - intros [g0 g1] d Hin. rewrite Horder in Hin.
    apply elem_of_work_items in Hin.
    apply opencl_kernel_spec; [done|done|done|simpl; lia|simpl; lia].
  - intros x y Hx Hy. exists (x, y). split; [|done].
    rewrite Horder. by apply elem_of_work_items.
  - rewrite Hrun. cbn [mbind option_bind]. eexists. split; [done|].
    apply (copy_out_filled host dev dev' input_image output_image d_input
             d_output width height channels (kernel_size ÷ 2) _ _
             Hdims eq_refl eq_refl Hfill).
Qed.

Lemma elem_of_threads gx gy bdx bdy bx by_ tx ty :
  (bx, by_, tx, ty) ∈ CUDA.threads gx gy bdx bdy
  ↔ (0 ≤ bx < gx ∧ 0 ≤ by_ < gy) ∧ (0 ≤ tx < bdx ∧ 0 ≤ ty < bdy).
Proof.
  unfold CUDA.threads, range_lt. rewrite list_elem_of_bind. split.
  - intros (b1 & Hin & H1). apply list_elem_of_bind in Hin as (b0 & Hin & H0).
    apply list_elem_of_bind in Hin as (t1 & Hin & H3).
    apply list_elem_of_bind in Hin as (t0 & Hin & H2).
    apply list_elem_of_singleton in Hin as [= -> -> -> ->].
    apply elem_of_seqZ in H0, H1, H2, H3. lia.
  - intros [[H0 H1] [H2 H3]]. exists by_. split; [|apply elem_of_seqZ; lia].
    apply list_elem_of_bind. exists bx. split; [|apply elem_of_seqZ; lia].
    apply list_elem_of_bind. exists ty. split; [|apply elem_of_seqZ; lia].
    apply list_elem_of_bind. exists tx. split; [by left|apply elem_of_seqZ; lia].
Qed.

(** The grid covers the extent and overshoots it by less than a block. *)
Lemma grid_dim_spec extent blockDim :
  1 ≤ extent ≤ INT_MAX → 1 ≤ blockDim ≤ 32 →
  0 ≤ CUDA.grid_dim extent blockDim
  ∧ extent ≤ CUDA.grid_dim extent blockDim * blockDim ≤ extent + blockDim - 1.
Proof.
  unfold INT_MAX, CUDA.grid_dim. intros He Hb.
  rewrite (Z.mod_small (extent + blockDim - 1)) by lia.
  pose proof (Z.div_mod (extent + blockDim - 1) blockDim ltac:(lia)).
  pose proof (Z.mod_pos_bound (extent + blockDim - 1) blockDim ltac:(lia)).
  split; [apply Z.div_pos; lia|lia].
Qed.

(** The launch of [cuda_box_blur] is accepted when the image is at most
    [65535 * blockDim] rows high. *)
Lemma launch_accepted_spec width height blockDim :
  1 ≤ width ≤ INT_MAX → 1 ≤ height ≤ INT_MAX → 1 ≤ blockDim ≤ 32 →
  height ≤ 65535 * blockDim →
  CUDA.launch_accepted (CUDA.grid_dim width blockDim)
    (CUDA.grid_dim height blockDim) blockDim blockDim = true.
Proof.
  intros Hw Hh Hbd Hgrid.
  destruct (grid_dim_spec width blockDim Hw Hbd) as [Hgx0 Hgx].
  destruct (grid_dim_spec height blockDim Hh Hbd) as [Hgy0 Hgy].
  set (gx := CUDA.grid_dim width blockDim) in *.
  set (gy := CUDA.grid_dim height blockDim) in *.
  assert (1 ≤ gx) as Hgx1.
  { destruct (decide (gx = 0)) as [Hz|]; [|lia]. rewrite Hz in Hgx. lia. }
  assert (1 ≤ gy) as Hgy1.
  { destruct (decide (gy = 0)) as [Hz|]; [|lia]. rewrite Hz in Hgy. lia. }
  assert (gx - 1 ≤ (gx - 1) * blockDim) as Hgxb by nia.
  assert (gy < 65536) as Hgy2.
  { apply (Z.mul_lt_mono_pos_r blockDim); lia. }
  assert (blockDim * blockDim ≤ 1024) as Hthreads by nia.
  unfold INT_MAX in *. unfold CUDA.launch_accepted.
  repeat (apply andb_true_intro; split); apply Z.leb_le; lia.
Qed.

Lemma cuda_kernel_spec bx by_ bd tx ty d input out width height channels kernelSize :
  valid_dims width height channels →
  in_int kernelSize → 0 ≤ kernelSize ÷ 2 →
  0 ≤ bx * bd + tx ≤ INT_MAX → 0 ≤ by_ * bd + ty ≤ INT_MAX →
  CUDA.box_blur_kernel bx by_ bd bd tx ty d input out width height channels
    kernelSize
  = if decide (inside width height (bx * bd + tx, by_ * bd + ty))
    then pixel_step input out width height channels (kernelSize ÷ 2)
           (bx * bd + tx) (by_ * bd + ty) (by_ * bd + ty - 0) d
    else Some d.
Proof.
  intros Hdims Hks Hr H0 H1.
  destruct (k_offset_range kernelSize Hks Hr) as [Hk Hkr].
  unfold CUDA.box_blur_kernel.
  rewrite !wrap_id by (unfold in_int, INT_MIN, INT_MAX in *; lia).
  rewrite Hk, Z.sub_0_r. unfold inside; simpl.
  destruct (decide ((0 ≤ bx * bd + tx < width) ∧ (0 ≤ by_ * bd + ty < height)))
    as [Hin|Hout].
  - replace ((bx * bd + tx <? width) && (by_ * bd + ty <? height)) with true;
      [done|]. symmetry. apply andb_true_intro. lia.
  - replace ((bx * bd + tx <? width) && (by_ * bd + ty <? height)) with false;
      [done|]. symmetry. apply andb_false_iff.
    destruct (Z.ltb_spec (bx * bd + tx) width); [|by left].
    destruct (Z.ltb_spec (by_ * bd + ty) height); [|by right]. lia.
Qed.

Lemma cuda_run order host dev h_input h_output d_input d_output
    width height channels kernelSize blockDim :
  valid_dims width height channels →
  in_int kernelSize → 0 ≤ kernelSize ÷ 2 →
  disjoint d_input (width * height * channels) d_output (width * height * 3) →
  1 ≤ blockDim ≤ 32 → height ≤ 65535 * blockDim →
  order ≡ₚ CUDA.threads (CUDA.grid_dim width blockDim)
             (CUDA.grid_dim height blockDim) blockDim blockDim →
  ∃ host', CUDA.cuda_box_blur order host dev h_input h_output d_input d_output
             width height channels kernelSize blockDim = Some host'
    ∧ filled host host' h_input h_output width height channels
        (kernelSize ÷ 2) 0 height.
Proof.
  intros Hdims Hks Hr Hdisj Hbd Hgrid Horder.
  destruct (k_offset_range kernelSize Hks Hr) as [Hk Hkr].
  destruct (image_size_eq _ _ _ Hdims) as [Hn Hout].
  destruct (valid_dims_height _ _ _ Hdims) as [Hh Hw].
  destruct (grid_dim_spec width blockDim Hw Hbd) as [Hgx0 Hgx].
  destruct (grid_dim_spec height blockDim Hh Hbd) as [Hgy0 Hgy].
  assert (width ≤ 715827882 ∧ height ≤ 715827882) as [Hw' Hh'].
  { destruct Hdims as (? & ? & ? & ? & ?). unfold INT_MAX in *. nia. }
  unfold CUDA.cuda_box_blur. rewrite Hn, Hout. cbv zeta.
  rewrite (Z.mod_small blockDim) by lia.
  destruct (Z.eqb_spec blockDim 0) as [|_]; [lia|].
  rewrite (launch_accepted_spec width height blockDim Hw Hh Hbd Hgrid).
  destruct (launch_run
    (λ t : Z * Z * Z * Z, (t.1.1.1 * blockDim + t.1.2, t.1.1.2 * blockDim + t.2))
    order
    (λ '(bx, by_, tx, ty) d,
       CUDA.box_blur_kernel bx by_ blockDim blockDim tx ty d d_input d_output
         width height channels kernelSize)
    (copy_bytes host h_input dev d_input (width * height * channels))
    d_input d_output width height channels (kernelSize ÷ 2))
    as (dev' & Hrun & Hfill); [done|done|done| | |].
  - intros [[[bx by_] tx] ty] d Hin. rewrite Horder in Hin.
    apply elem_of_threads in Hin. simpl.
    apply cuda_kernel_spec; [done|done|done| |]; unfold INT_MAX; nia.
  - intros x y Hx Hy.
    exists (x `div` blockDim, y `div` blockDim, x `mod` blockDim, y `mod` blockDim).
    pose proof (Z.div_mod x blockDim ltac:(lia)).
    pose proof (Z.mod_pos_bound x blockDim ltac:(lia)).
    pose proof (Z.div_mod y blockDim ltac:(lia)).
    pose proof (Z.mod_pos_bound y blockDim ltac:(lia)).
    assert (0 ≤ x `div` blockDim) by (apply Z.div_pos; lia).
    assert (0 ≤ y `div` blockDim) by (apply Z.div_pos; lia).
    split; [|simpl; f_equal; lia].
    rewrite Horder. apply elem_of_threads. repeat split; try lia; nia.
  - rewrite Hrun. cbn [mbind option_bind]. eexists. split; [done|].
    apply (copy_out_filled host dev dev' h_input h_output d_input
             d_output width height channels (kernelSize ÷ 2) _ _
             Hdims eq_refl eq_refl Hfill).
Qed.

(** ** The partition tiles the rows *)

Lemma length_filter_fmap {A B} (P : B → Prop) `{∀ b, Decision (P b)}
    (f : A → B) (l : list A) :
  length (filter P (f <$> l)) = length (filter (λ a, P (f a)) l).
Proof.
  induction l as [|a l IH]; [done|].
  rewrite fmap_cons, !filter_cons.
  destruct (decide (P (f a))); simpl; by rewrite IH.
Qed.

Lemma length_filter_unique (P : Z → Prop) `{∀ i, Decision (P i)} (l : list Z) o :
  NoDup l → (∀ i, i ∈ l ∧ P i ↔ i = o) → length (filter P l) = 1%nat.
Proof.
  intros Hnd Ho.
  assert (filter P l ≡ₚ [o]) as ->; [|done].
  apply NoDup_Permutation.
  - by apply NoDup_filter.
  - apply NoDup_singleton.
  - intros i. rewrite list_elem_of_filter, list_elem_of_singleton.
    specialize (Ho i). tauto.
Qed.

Lemma partition_tiles height size :
  1 ≤ height ≤ INT_MAX → 1 ≤ size ≤ INT_MAX →
  tiles height (MPI.partition height size).
Proof.
  intros Hh Hs. unfold tiles, MPI.partition, range_lt. split.
  - apply Forall_fmap, Forall_seqZ. intros i Hi; simpl.
    destruct (my_rows_eq height size Hh Hs i ltac:(lia)) as (_ & ? & ?). lia.
  - intros row Hrow. unfold covering.
    rewrite (length_filter_fmap (λ r : Z * Z, r.1 ≤ row < r.2)).
    apply (length_filter_unique _ _ (owner height size row)).
    { apply NoDup_seqZ. }
    intros i. rewrite elem_of_seqZ; simpl. split.
    + intros [Hi Hin]. apply (owner_unique height size Hh Hs); [lia|done].
    + intros ->. destruct (owner_spec height size Hh Hs row Hrow). lia.
Qed.

(** C3.  For [height >= 1] and [size >= 1] workers the partition formula
    gives [row_start_i = i * (height / size)] and
    [row_end_i = (i + 1) * (height / size)], or [height] for the last
    worker; the ranges are ordered, contiguous, pairwise disjoint, their
    union is [0, height), every worker but the last gets
    [height / size] rows and the last gets those plus the remainder. *)
Theorem partition_tiling height size :
  1 ≤ height ≤ INT_MAX → 1 ≤ size ≤ INT_MAX →
  let start := MPI.start_row height size in
  let stop := MPI.end_row height size in
  let base := height `div` size in
  (∀ i, 0 ≤ i < size →
     start i = i * base
     ∧ stop i = if decide (i = size - 1) then height else (i + 1) * base)
  ∧ (∀ i, 0 ≤ i < size → 0 ≤ start i ≤ stop i ∧ stop i ≤ height)
  ∧ (start 0 = 0 ∧ stop (size - 1) = height
     ∧ ∀ i, 0 ≤ i < size - 1 → stop i = start (i + 1))
  ∧ (∀ i j, 0 ≤ i → i < j → j < size → stop i ≤ start j)
  ∧ (∀ row, 0 ≤ row < height ↔ ∃ i, 0 ≤ i < size ∧ start i ≤ row < stop i)
  ∧ (∀ row i j, 0 ≤ i < size → 0 ≤ j < size →
       start i ≤ row < stop i → start j ≤ row < stop j → i = j)
  ∧ (∀ i, 0 ≤ i < size - 1 → stop i - start i = base)
  ∧ stop (size - 1) - start (size - 1) = base + height `mod` size
  ∧ tiles height (MPI.partition height size).
Proof.
  intros Hh Hs start stop base. unfold start, stop, base.
  pose proof (base_bounds height size Hh Hs) as [Hb0 Hb].
  pose proof (Z.div_mod height size ltac:(lia)) as Hdm.
  assert (∀ i, 0 ≤ i < size →
            0 ≤ MPI.start_row height size i ≤ MPI.end_row height size i
            ∧ MPI.end_row height size i ≤ height) as Hord.
  { intros i Hi. by destruct (my_rows_eq height size Hh Hs i Hi) as (_ & ? & ?). }
  split. { intros i Hi. split; [by apply start_row_eq|by apply end_row_eq]. }
  split. { done. }
  split.
  { split; [rewrite start_row_eq by lia; lia|]. split; [|by apply end_row_next].
    rewrite end_row_eq by lia. by rewrite decide_True. }
  split. { by apply end_row_le_start. }
  split.
  { intros row. split.
    - intros Hrow. exists (owner height size row). by apply owner_spec.
    - intros (i & Hi & Hin). specialize (Hord i Hi). lia. }
  split.
  { intros row i j Hi Hj Hini Hinj.
    rewrite (owner_unique height size Hh Hs row i Hi Hini).
    by rewrite (owner_unique height size Hh Hs row j Hj Hinj). }
  split.
  { intros i Hi. rewrite start_row_eq, end_row_eq by lia.
    rewrite decide_False by lia. lia. }
  split.
  { rewrite start_row_eq, end_row_eq by lia. rewrite decide_True by done. lia. }
  by apply partition_tiles.
Qed.

Lemma partition_tiling_witness :
  let start := MPI.start_row 10 3 in
  let stop := MPI.end_row 10 3 in
  let base := 10 `div` 3 in
  (∀ i, 0 ≤ i < 3 →
     start i = i * base
     ∧ stop i = if decide (i = 3 - 1) then 10 else (i + 1) * base)
  ∧ (∀ i, 0 ≤ i < 3 → 0 ≤ start i ≤ stop i ∧ stop i ≤ 10)
  ∧ (start 0 = 0 ∧ stop (3 - 1) = 10
     ∧ ∀ i, 0 ≤ i < 3 - 1 → stop i = start (i + 1))
  ∧ (∀ i j, 0 ≤ i → i < j → j < 3 → stop i ≤ start j)
  ∧ (∀ row, 0 ≤ row < 10 ↔ ∃ i, 0 ≤ i < 3 ∧ start i ≤ row < stop i)
  ∧ (∀ row i j, 0 ≤ i < 3 → 0 ≤ j < 3 →
       start i ≤ row < stop i → start j ≤ row < stop j → i = j)
  ∧ (∀ i, 0 ≤ i < 3 - 1 → stop i - start i = base)
  ∧ stop (3 - 1) - start (3 - 1) = base + 10 `mod` 3
  ∧ tiles 10 (MPI.partition 10 3).
Proof.
  apply (partition_tiling 10 3); unfold INT_MAX; lia.
Defined.

(** ** Merged output and sequential output *)

(** Two buffers whose cells hold the same values read the same. *)
Lemma same_output (m1 : mem) out1 (m2 : mem) out2 width height
    (V : Z → Z → Z → Z) :
  0 < width →
  (∀ x y c, 0 ≤ x < width → 0 ≤ y < height → 0 ≤ c < 3 →
     m1 (cell out1 width y x c) = V x y c) →
  (∀ x y c, 0 ≤ x < width → 0 ≤ y < height → 0 ≤ c < 3 →
     m2 (cell out2 width y x c) = V x y c) →
  read_buf m1 out1 (width * height * 3) = read_buf m2 out2 (width * height * 3).
Proof.
  intros Hw H1 H2. unfold read_buf. apply list_fmap_ext.
  intros _ i Hi%list_elem_of_lookup_2. apply elem_of_seqZ in Hi.
  destruct (cell_decode out1 width height (out1 + i) Hw ltac:(lia))
    as (row & x & c & Hrow & Hx & Hc & Heq).
  unfold load. rewrite Heq, H1 by done.
  replace (out2 + i) with (cell out2 width row x c) by (unfold cell in *; lia).
  by rewrite H2.
Qed.

Lemma filled_values m0 m' input out width height channels k x y c :
  filled m0 m' input out width height channels k 0 height →
  0 ≤ x < width → 0 ≤ y < height → 0 ≤ c < 3 →
  m' (cell out width y x c)
  = blur_byte (load m0 input) width height channels x y k c.
Proof.
  intros [Hval _] Hx Hy Hc. specialize (Hval x y c Hx ltac:(lia) Hc).
  by rewrite Z.sub_0_r in Hval.
Qed.

Lemma mpi_equals_serial root procs out_root out width height channels kernel_size :
  valid_dims width height channels →
  in_int kernel_size → 0 ≤ kernel_size ÷ 2 →
  group_ok width height channels (root :: procs) out_root →
  disjoint (MPI.input_rgb root) (width * height * channels) out (width * height * 3) →
  ∃ m_mpi m_seq,
    MPI.main (root :: procs) out_root width height channels kernel_size
      = Some m_mpi
    ∧ Serial.apply_box_blur_color (MPI.memory root) (MPI.input_rgb root) out
        width height channels kernel_size = Some m_seq
    ∧ read_buf m_mpi out_root (width * height * 3)
      = read_buf m_seq out (width * height * 3).
Proof.
  intros Hdims Hks Hr Hgroup Hdisj.
  destruct (mpi_main_run root procs out_root width height channels kernel_size)
    as (m_mpi & Hmpi & Hval & _); [done..|].
  destruct (serial_run (MPI.memory root) (MPI.input_rgb root) out
              width height channels kernel_size)
    as (m_seq & Hseq & Hfill); [done..|].
  exists m_mpi, m_seq. split; [done|]. split; [done|].
  eapply same_output; [by destruct Hdims|exact Hval|].
  intros x y c Hx Hy Hc. by eapply filled_values.
Qed.

(** C4.  For any number of processes, blurring on every process only the
    rows of its rank and gathering the partial results at the byte
    offsets [row_start * width * 3], which root recomputes from the
    partition formula together with the byte counts, gives at root
    exactly the output buffer of the sequential blur of the whole image;
    the case of one process ([procs = []]) is included. *)
Theorem merge_reconstructs root procs out_root out width height channels
    kernel_size :
  valid_dims width height channels →
  in_int kernel_size → 0 ≤ kernel_size ÷ 2 →
  group_ok width height channels (root :: procs) out_root →
  disjoint (MPI.input_rgb root) (width * height * channels) out (width * height * 3) →
  let size := Z.of_nat (length (root :: procs)) in
  (∀ rank, 0 ≤ rank < size →
     MPI.displ width height size rank = MPI.start_row height size rank * width * 3
     ∧ MPI.recv_count width height size rank
       = (MPI.end_row height size rank - MPI.start_row height size rank)
         * width * 3)
  ∧ ∃ m_mpi m_seq,
      MPI.main (root :: procs) out_root width height channels kernel_size
        = Some m_mpi
      ∧ Serial.apply_box_blur_color (MPI.memory root) (MPI.input_rgb root) out
          width height channels kernel_size = Some m_seq
      ∧ read_buf m_mpi out_root (width * height * 3)
        = read_buf m_seq out (width * height * 3).
Proof.
  intros Hdims Hks Hr Hgroup Hdisj size. split; [|by apply mpi_equals_serial].
  intros rank Hrank.
  assert (1 ≤ size ≤ INT_MAX) as Hsize.
  { destruct Hgroup as (Hmax & _). unfold size in *.
    rewrite length_cons in *. lia. }
  split; [by apply (displ_eq width height channels)|].
  rewrite recv_count_eq.
  by destruct (rows_bytes width height channels size Hdims Hsize rank Hrank)
    as (-> & _).
Qed.

Lemma scenario_dims : valid_dims 4 4 1.
Proof. unfold valid_dims, INT_MAX. lia. Qed.

Lemma scenario_group : group_ok 4 4 1 [scenario_root; scenario_worker] 200.
Proof.
  split; [by vm_compute|]. split.
  - intros [|[|i]] p Hp; [| |done]; injection Hp as <-;
      vm_compute; left; discriminate.
  - intros root [= <-]. unfold disjoint; simpl. lia.
Qed.

Lemma merge_reconstructs_witness :
  let size := Z.of_nat (length [scenario_root; scenario_worker]) in
  (∀ rank, 0 ≤ rank < size →
     MPI.displ 4 4 size rank = MPI.start_row 4 size rank * 4 * 3
     ∧ MPI.recv_count 4 4 size rank
       = (MPI.end_row 4 size rank - MPI.start_row 4 size rank) * 4 * 3)
  ∧ ∃ m_mpi m_seq,
      MPI.main [scenario_root; scenario_worker] 200 4 4 1 3 = Some m_mpi
      ∧ Serial.apply_box_blur_color (MPI.memory scenario_root)
          (MPI.input_rgb scenario_root) 300 4 4 1 3 = Some m_seq
      ∧ read_buf m_mpi 200 (4 * 4 * 3) = read_buf m_seq 300 (4 * 4 * 3).
Proof.
  apply (merge_reconstructs scenario_root [scenario_worker] 200 300 4 4 1 3).
  - apply scenario_dims.
  - unfold in_int, INT_MIN, INT_MAX. lia.
  - by vm_compute.
  - apply scenario_group.
  - unfold disjoint; simpl. lia.
Defined.

(** ** More processes than rows *)

(** C6, as amended.  With more processes than rows the partition formula
    gives every process except the last the empty range [0, 0), which
    contributes zero bytes, and gives the last process all rows
    [0, height); the ranges still tile [0, height) exactly once and the
    gathered output is the output of the sequential blur. *)
Theorem over_partitioning root procs out_root out width height channels
    kernel_size :
  valid_dims width height channels →
  in_int kernel_size → 0 ≤ kernel_size ÷ 2 →
  group_ok width height channels (root :: procs) out_root →
  disjoint (MPI.input_rgb root) (width * height * channels) out (width * height * 3) →
  height < Z.of_nat (length (root :: procs)) →
  let size := Z.of_nat (length (root :: procs)) in
  (∀ i, 0 ≤ i < size - 1 →
     MPI.start_row height size i = 0 ∧ MPI.end_row height size i = 0
     ∧ MPI.recv_count width height size i = 0)
  ∧ (MPI.start_row height size (size - 1) = 0
     ∧ MPI.end_row height size (size - 1) = height
     ∧ MPI.recv_count width height size (size - 1) = height * width * 3)
  ∧ tiles height (MPI.partition height size)
  ∧ ∃ m_mpi m_seq,
      MPI.main (root :: procs) out_root width height channels kernel_size
        = Some m_mpi
      ∧ Serial.apply_box_blur_color (MPI.memory root) (MPI.input_rgb root) out
          width height channels kernel_size = Some m_seq
      ∧ read_buf m_mpi out_root (width * height * 3)
        = read_buf m_seq out (width * height * 3).
Proof.
  intros Hdims Hks Hr Hgroup Hdisj Hover size. fold size in Hover.
  assert (1 ≤ size ≤ INT_MAX) as Hsize.
  { destruct Hgroup as (Hmax & _). unfold size in *.
    rewrite length_cons in *. lia. }
  destruct (valid_dims_height _ _ _ Hdims) as [Hh Hw].
  assert (height `div` size = 0) as Hbase by (apply Z.div_small; lia).
  assert (∀ i, 0 ≤ i < size →
            MPI.recv_count width height size i
            = (MPI.end_row height size i - MPI.start_row height size i)
              * width * 3) as Hcount.
  { intros i Hi. rewrite recv_count_eq.
    by destruct (rows_bytes width height channels size Hdims Hsize i Hi)
      as (-> & _). }
  split; [|split; [|split]].
  - intros i Hi. rewrite Hcount by lia.
    rewrite start_row_eq, end_row_eq by lia.
    rewrite decide_False by lia. rewrite Hbase. lia.
  - rewrite Hcount by lia. rewrite start_row_eq, end_row_eq by lia.
    rewrite decide_True by done. rewrite Hbase. lia.
  - by apply partition_tiles.
  - by apply mpi_equals_serial.
Qed.

Lemma tiny_group_ok : group_ok 1 2 1 tiny_group 200.
Proof.
  split; [by vm_compute|]. split.
  - intros i p Hp.
    assert (p = tiny_process 9 ∨ p = tiny_process 0) as Hcases.
    { do 5 (destruct i as [|i]; [injection Hp as <-; auto|]). done. }
    assert (MPI.input_rgb p = 0 ∧ MPI.my_output p = 100) as [Hin Hout]
      by (by destruct Hcases as [-> | ->]).
    assert (Z.of_nat i < 5) as Hi by (apply lookup_lt_Some in Hp; simpl in Hp; lia).
    unfold process_ok, disjoint. rewrite Hin, Hout.
    change (Z.of_nat (length tiny_group)) with 5.
    destruct (my_rows_eq 2 5 ltac:(unfold INT_MAX; lia) ltac:(unfold INT_MAX; lia)
                (Z.of_nat i) ltac:(lia)) as (_ & ? & ?).
    lia.
  - intros root [= <-]. unfold disjoint; simpl. lia.
Qed.

Lemma over_partitioning_witness :
  let size := Z.of_nat (length tiny_group) in
  (∀ i, 0 ≤ i < size - 1 →
     MPI.start_row 2 size i = 0 ∧ MPI.end_row 2 size i = 0
     ∧ MPI.recv_count 1 2 size i = 0)
  ∧ (MPI.start_row 2 size (size - 1) = 0
     ∧ MPI.end_row 2 size (size - 1) = 2
     ∧ MPI.recv_count 1 2 size (size - 1) = 2 * 1 * 3)
  ∧ tiles 2 (MPI.partition 2 size)
  ∧ ∃ m_mpi m_seq,
      MPI.main tiny_group 200 1 2 1 3 = Some m_mpi
      ∧ Serial.apply_box_blur_color (MPI.memory (tiny_process 9))
          (MPI.input_rgb (tiny_process 9)) 300 1 2 1 3 = Some m_seq
      ∧ read_buf m_mpi 200 (1 * 2 * 3) = read_buf m_seq 300 (1 * 2 * 3).
Proof.
  apply (over_partitioning (tiny_process 9)
           [tiny_process 0; tiny_process 0; tiny_process 0; tiny_process 0]
           200 300 1 2 1 3).
  - unfold valid_dims, INT_MAX. lia.
  - unfold in_int, INT_MIN, INT_MAX. lia.
  - by vm_compute.
  - apply tiny_group_ok.
  - unfold disjoint; simpl. lia.
  - by vm_compute.
Defined.

(** C6, the counterexample: with two processes and one row the empty
    range is that of the first process and the last holds row 0; with
    five processes and two rows the first four ranges are empty and the
    last one, [0, 2), is not: no trailing run of workers is empty. *)
Lemma over_partitioning_last_not_empty :
  MPI.partition 1 2 = [(0, 0); (0, 1)]
  ∧ MPI.partition 2 5 = [(0, 0); (0, 0); (0, 0); (0, 0); (0, 2)]
  ∧ ¬ ∃ j, 0 ≤ j < 5
        ∧ ∀ i, j ≤ i < 5 → MPI.start_row 2 5 i = MPI.end_row 2 5 i.
Proof.
  split; [by vm_compute|]. split; [by vm_compute|].
  intros (j & Hj & Hempty). specialize (Hempty 4 ltac:(lia)).
  by vm_compute in Hempty.
Qed.

(** ** The input buffer is only read *)

Lemma copy_bytes_frame src sp dst dp n a :
  ¬ (dp ≤ a < dp + n) → copy_bytes src sp dst dp n a = dst a.
Proof. intros Ha. unfold copy_bytes. by rewrite bool_decide_false. Qed.

(** C5.  Whatever the kernel size, a blur that returns has changed no
    byte outside its output buffer; the input buffer, which is apart from
    it, holds after the blur the bytes it held before.  This holds for
    the sequential blur, for the MPI blur of any row range, for the
    OpenMP blur under any schedule, and for the host buffers of the
    OpenCL and CUDA blurs.  For a radius [kernel_size / 2 >= 0] the
    sequential, MPI and OpenMP blurs do return. *)
Theorem input_preserved width height channels kernel_size :
  valid_dims width height channels → in_int kernel_size →
  let n_in := width * height * channels in
  let n_out := width * height * 3 in
  (∀ m input out m',
     disjoint input n_in out n_out →
     Serial.apply_box_blur_color m input out width height channels kernel_size
       = Some m' →
     agree_on m' m input n_in ∧ ∀ a, ¬ (out ≤ a < out + n_out) → m' a = m a)
  ∧ (∀ m input out row0 row1 m',
       0 ≤ row0 ≤ row1 ∧ row1 ≤ height →
       disjoint input n_in out (width * (row1 - row0) * 3) →
       MPI.apply_box_blur_mpi m input out width height channels kernel_size
         row0 row1 = Some m' →
       agree_on m' m input n_in
       ∧ ∀ a, ¬ (out ≤ a < out + width * (row1 - row0) * 3) → m' a = m a)
  ∧ (∀ sched m input out m',
       OpenMP.schedule height width sched →
       disjoint input n_in out n_out →
       OpenMP.apply_box_blur_openmp sched m input out width height channels
         kernel_size = Some m' →
       agree_on m' m input n_in ∧ ∀ a, ¬ (out ≤ a < out + n_out) → m' a = m a)
  ∧ (∀ order host dev input_image output_image d_input d_output host',
       disjoint input_image n_in output_image n_out →
       OpenCL.apply_box_blur_opencl order host dev input_image output_image
         d_input d_output width height channels kernel_size = Some host' →
       agree_on host' host input_image n_in)
  ∧ (∀ order host dev h_input h_output d_input d_output blockDim host',
       disjoint h_input n_in h_output n_out →
       CUDA.cuda_box_blur order host dev h_input h_output d_input d_output
         width height channels kernel_size blockDim = Some host' →
       agree_on host' host h_input n_in)
  ∧ (0 ≤ kernel_size ÷ 2 →
     (∀ m input out, disjoint input n_in out n_out →
        is_Some (Serial.apply_box_blur_color m input out width height channels
                   kernel_size))
     ∧ (∀ m input out row0 row1,
          0 ≤ row0 ≤ row1 ∧ row1 ≤ height →
          disjoint input n_in out (width * (row1 - row0) * 3) →
          is_Some (MPI.apply_box_blur_mpi m input out width height channels
                     kernel_size row0 row1))
     ∧ (∀ sched m input out,
          OpenMP.schedule height width sched → disjoint input n_in out n_out →
          is_Some (OpenMP.apply_box_blur_openmp sched m input out width height
                     channels kernel_size))).
Proof.
  intros Hdims Hks n_in n_out. unfold n_in, n_out.
  destruct (valid_dims_height _ _ _ Hdims) as [Hh Hw].
  destruct (image_size_eq _ _ _ Hdims) as [Hn Hout].
  split; [|split; [|split; [|split; [|split]]]].
  - intros m input out m' Hdisj Hrun. rewrite serial_shape in Hrun.
    assert (∀ a, ¬ (out ≤ a < out + width * height * 3) → m' a = m a) as Hframe.
    { eapply pixels_frame; [done| |apply elem_of_row_major|exact Hrun]. lia. }
    split; [by eapply frame_agree|done].
  - intros m input out row0 row1 m' Hrows Hdisj Hrun.
    rewrite mpi_shape in Hrun by done.
    assert (∀ a, ¬ (out ≤ a < out + width * (row1 - row0) * 3) → m' a = m a)
      as Hframe.
    { eapply pixels_frame; [done| |apply elem_of_row_major|exact Hrun]. lia. }
    split; [by eapply frame_agree|done].
  - intros sched m input out m' Hsched Hdisj Hrun. rewrite openmp_shape in Hrun.
    assert (∀ a, ¬ (out ≤ a < out + width * height * 3) → m' a = m a) as Hframe.
    { eapply pixels_frame; [done| | |exact Hrun]; [lia|].
      intros y x. unfold OpenMP.schedule in Hsched. rewrite Hsched.
      apply elem_of_collapsed. }
    split; [by eapply frame_agree|done].
  - intros order host dev input_image output_image d_input d_output host'
      Hdisj Hrun.
    unfold OpenCL.apply_box_blur_opencl in Hrun. rewrite Hn, Hout in Hrun.
    destruct (OpenCL.clEnqueueNDRangeKernel _ _ _ _ _ _ _) as [dev'|]; [|done].
    injection Hrun as <-. eapply frame_agree; [done|].
    intros a Ha. by apply copy_bytes_frame.
  - intros order host dev h_input h_output d_input d_output blockDim host'
      Hdisj Hrun.
    unfold CUDA.cuda_box_blur in Hrun. rewrite Hn, Hout in Hrun.
    cbv zeta in Hrun.
    destruct (blockDim `mod` 4294967296 =? 0); [done|].
    destruct (if CUDA.launch_accepted _ _ _ _ then _ else _) as [dev'|]; [|done].
    injection Hrun as <-. eapply frame_agree; [done|].
    intros a Ha. by apply copy_bytes_frame.
  - intros Hr. split; [|split].
    + intros m input out Hdisj.
      destruct (serial_run m input out width height channels kernel_size)
        as (m' & -> & _); done.
    + intros m input out row0 row1 Hrows Hdisj.
      destruct (mpi_rows_run m input out width height channels kernel_size
                  row0 row1) as (m' & -> & _); done.
    + intros sched m input out Hsched Hdisj.
      destruct (openmp_run sched m input out width height channels kernel_size)
        as (m' & -> & _); done.
Qed.

Lemma input_preserved_witness :
  ∃ m', Serial.apply_box_blur_color (mem_of 0 0 scenario_input) 0 16 4 4 1 3
        = Some m'
    ∧ agree_on m' (mem_of 0 0 scenario_input) 0 (4 * 4 * 1).
Proof.
  destruct (input_preserved 4 4 1 3) as (Hserial & _ & _ & _ & _ & Hreturns).
  - unfold valid_dims, INT_MAX. lia.
  - unfold in_int, INT_MIN, INT_MAX. lia.
  - assert (disjoint 0 (4 * 4 * 1) 16 (4 * 4 * 3)) as Hdisj
      by (unfold disjoint; lia).
    destruct Hreturns as (Hs & _); [by vm_compute|].
    destruct (Hs (mem_of 0 0 scenario_input) 0 16 Hdisj) as [m' Hm'].
    exists m'. split; [done|].
    by destruct (Hserial (mem_of 0 0 scenario_input) 0 16 m' Hdisj Hm').
Defined.

(** ** The alpha channel *)

(** With four channels the window sum of an output channel reads the
    samples of channels 0, 1, 2 only. *)
Lemma blur_byte_rgb img1 img2 width height x y radius c :
  0 < width → 0 < height → 0 ≤ c < 3 →
  (∀ i c', 0 ≤ i < width * height → 0 ≤ c' < 3 →
     img1 (i * 4 + c') = img2 (i * 4 + c')) →
  blur_byte img1 width height 4 x y radius c
  = blur_byte img2 width height 4 x y radius c.
Proof.
  intros Hw Hh Hc Hrgb. unfold blur_byte, window_sum.
  assert (sample img1 width 4 c <$> valid_neighbors width height x y radius
          = sample img2 width 4 c <$> valid_neighbors width height x y radius)
    as ->; [|done].
  apply list_fmap_ext. intros _ p Hp%list_elem_of_lookup_2.
  apply valid_neighbors_inside in Hp as [Hp1 Hp2]. unfold sample.
  change (4 =? 1) with false. cbn match. apply Hrgb; [nia|done].
Qed.

(** C9.  Two four-channel images of the same extents that agree on
    channels 0, 1 and 2 of every pixel, whatever their fourth channel
    holds, are blurred to the same output buffer; and for every channel
    layout the blur writes exactly the [width * height * 3] bytes of the
    output buffer: each of them holds the blurred byte of its pixel and
    channel, and no byte outside them changes. *)
Theorem alpha_ignored width height kernel_size :
  in_int kernel_size → 0 ≤ kernel_size ÷ 2 →
  (∀ m1 input1 out1 m2 input2 out2,
     valid_dims width height 4 →
     disjoint input1 (width * height * 4) out1 (width * height * 3) →
     disjoint input2 (width * height * 4) out2 (width * height * 3) →
     (∀ i c, 0 ≤ i < width * height → 0 ≤ c < 3 →
        load m1 input1 (i * 4 + c) = load m2 input2 (i * 4 + c)) →
     ∃ m1' m2',
       Serial.apply_box_blur_color m1 input1 out1 width height 4 kernel_size
         = Some m1'
       ∧ Serial.apply_box_blur_color m2 input2 out2 width height 4 kernel_size
         = Some m2'
       ∧ read_buf m1' out1 (width * height * 3)
         = read_buf m2' out2 (width * height * 3))
  ∧ (∀ channels m input out,
       valid_dims width height channels →
       disjoint input (width * height * channels) out (width * height * 3) →
       ∃ m',
         Serial.apply_box_blur_color m input out width height channels
           kernel_size = Some m'
         ∧ length (read_buf m' out (width * height * 3))
           = Z.to_nat (width * height * 3)
         ∧ (∀ x y c, 0 ≤ x < width → 0 ≤ y < height → 0 ≤ c < 3 →
              m' (cell out width y x c)
              = blur_byte (load m input) width height channels x y
                  (kernel_size ÷ 2) c)
         ∧ (∀ a, ¬ (out ≤ a < out + width * height * 3) → m' a = m a)).
Proof.
  intros Hks Hr. split.
  - intros m1 input1 out1 m2 input2 out2 Hdims Hd1 Hd2 Hrgb.
    destruct (serial_run m1 input1 out1 width height 4 kernel_size)
      as (m1' & Hrun1 & Hfill1); [done..|].
    destruct (serial_run m2 input2 out2 width height 4 kernel_size)
      as (m2' & Hrun2 & Hfill2); [done..|].
    exists m1', m2'. split; [done|]. split; [done|].
    pose proof Hdims as (Hw & Hh & _).
    eapply same_output; [done| |].
    + intros x y c Hx Hy Hc. by eapply filled_values.
    + intros x y c Hx Hy Hc. rewrite (filled_values _ _ _ _ _ _ _ _ _ _ _ Hfill2)
        by done.
      symmetry. by apply blur_byte_rgb.
  - intros channels m input out Hdims Hdisj.
    destruct (serial_run m input out width height channels kernel_size)
      as (m' & Hrun & Hfill); [done..|].
    exists m'. split; [done|]. split.
    { unfold read_buf. by rewrite length_fmap, length_seqZ. }
    split.
    + intros x y c Hx Hy Hc. by eapply filled_values.
    + by destruct Hfill.
Qed.

Lemma alpha_ignored_witness :
  ∃ m1' m2',
    Serial.apply_box_blur_color (mem_of 0 0 rgba_a) 0 8 2 1 4 3 = Some m1'
    ∧ Serial.apply_box_blur_color (mem_of 0 0 rgba_b) 0 8 2 1 4 3 = Some m2'
    ∧ read_buf m1' 8 (2 * 1 * 3) = read_buf m2' 8 (2 * 1 * 3).
Proof.
  destruct (alpha_ignored 2 1 3) as [Halpha _].
  - unfold in_int, INT_MIN, INT_MAX. lia.
  - by vm_compute.
  - apply (Halpha (mem_of 0 0 rgba_a) 0 8 (mem_of 0 0 rgba_b) 0 8).
    + unfold valid_dims, INT_MAX. lia.
    + unfold disjoint. lia.
    + unfold disjoint. lia.
    + intros i c Hi Hc.
      assert (i = 0 ∨ i = 1) as [-> | ->] by lia;
        assert (c = 0 ∨ c = 1 ∨ c = 2) as [->|[->| ->]] by lia; reflexivity.
Defined.

(** ** The backends against each other *)

(** The OpenCL launch is refused unless 16 divides both extents. *)
Lemma opencl_rejects order host dev input_image output_image d_input d_output
    width height channels kernel_size :
  width `mod` 16 ≠ 0 ∨ height `mod` 16 ≠ 0 →
  OpenCL.apply_box_blur_opencl order host dev input_image output_image
    d_input d_output width height channels kernel_size = None.
Proof.
  intros Hnot. unfold OpenCL.apply_box_blur_opencl, OpenCL.clEnqueueNDRangeKernel.
  replace ((width `mod` 16 =? 0) && (height `mod` 16 =? 0)) with false; [done|].
  symmetry. apply andb_false_iff.
  destruct Hnot as [Hw|Hh]; [left|right]; by apply Z.eqb_neq.
Qed.

(** C2, the failing input.  On the 4 x 4 scenario image with the kernel
    size 5 of the sources, the OpenCL backend enqueues a 4 x 4 range with
    16 x 16 work-groups; the launch is refused and no output is produced,
    while the sequential backend returns its output buffer. *)
Theorem opencl_launch_refused :
  OpenCL.apply_box_blur_opencl (OpenCL.work_items 4 4)
    (mem_of 0 0 scenario_input) (λ _, 0) 0 16 0 16 4 4 1 5 = None
  ∧ ∃ m', Serial.apply_box_blur_color (mem_of 0 0 scenario_input) 0 16 4 4 1 5
          = Some m'.
Proof.
  split.
  - apply opencl_rejects. left. by vm_compute.
  - destruct (serial_run (mem_of 0 0 scenario_input) 0 16 4 4 1 5)
      as (m' & Hrun & _).
    + apply scenario_dims.
    + unfold in_int, INT_MIN, INT_MAX. lia.
    + by vm_compute.
    + unfold disjoint. lia.
    + by exists m'.
Qed.

(** Wherever each backend returns the blurred image, the output buffers
    are byte-identical: the sequential, OpenMP and MPI backends always do,
    the CUDA backend does when the device accepts its grid (block size 1
    to 32 and at most [65535 * blockDim] rows), the OpenCL backend when 16
    divides both extents. *)
Theorem backends_agree m input out my_output width height channels kernel_size
    sched procs out_root order_cuda dev output_h d_input d_output blockDim :
  valid_dims width height channels →
  in_int kernel_size → 0 ≤ kernel_size ÷ 2 →
  disjoint input (width * height * channels) out (width * height * 3) →
  OpenMP.schedule height width sched →
  group_ok width height channels (MPI.Process m input my_output :: procs) out_root →
  disjoint d_input (width * height * channels) d_output (width * height * 3) →
  1 ≤ blockDim ≤ 32 → height ≤ 65535 * blockDim →
  order_cuda ≡ₚ CUDA.threads (CUDA.grid_dim width blockDim)
                  (CUDA.grid_dim height blockDim) blockDim blockDim →
  let n := width * height * 3 in
  ∃ m_seq m_omp m_mpi m_cuda,
    Serial.apply_box_blur_color m input out width height channels kernel_size
      = Some m_seq
    ∧ OpenMP.apply_box_blur_openmp sched m input out width height channels
        kernel_size = Some m_omp
    ∧ MPI.main (MPI.Process m input my_output :: procs) out_root
        width height channels kernel_size = Some m_mpi
    ∧ CUDA.cuda_box_blur order_cuda m dev input output_h d_input d_output
        width height channels kernel_size blockDim = Some m_cuda
    ∧ read_buf m_omp out n = read_buf m_seq out n
    ∧ read_buf m_mpi out_root n = read_buf m_seq out n
    ∧ read_buf m_cuda output_h n = read_buf m_seq out n
    ∧ (∀ order_cl, order_cl ≡ₚ OpenCL.work_items width height →
         width `mod` 16 = 0 → height `mod` 16 = 0 →
         ∃ m_cl,
           OpenCL.apply_box_blur_opencl order_cl m dev input output_h
             d_input d_output width height channels kernel_size = Some m_cl
           ∧ read_buf m_cl output_h n = read_buf m_seq out n).
Proof.
  intros Hdims Hks Hr Hdisj Hsched Hgroup Hdev Hbd Hgrid Hcuda n. unfold n.
  pose proof Hdims as (Hw & _).
  destruct (serial_run m input out width height channels kernel_size)
    as (m_seq & Hseq & Hfseq); [done..|].
  destruct (openmp_run sched m input out width height channels kernel_size)
    as (m_omp & Homp & Hfomp); [done..|].
  destruct (mpi_main_run (MPI.Process m input my_output) procs out_root
              width height channels kernel_size)
    as (m_mpi & Hmpi & Hvmpi & _); [done..|].
  destruct (cuda_run order_cuda m dev input output_h d_input d_output
              width height channels kernel_size blockDim)
    as (m_cuda & Hcu & Hfcu); [done..|].
  pose proof (λ x y c, filled_values _ _ _ _ _ _ _ _ x y c Hfseq) as Hvseq.
  exists m_seq, m_omp, m_mpi, m_cuda.
  repeat (split; [done|]). split; [|split; [|split]].
  - eapply same_output; [done| |exact Hvseq].
    intros x y c. by apply filled_values.
  - eapply same_output; [done|exact Hvmpi|exact Hvseq].
  - eapply same_output; [done| |exact Hvseq].
    intros x y c. by apply filled_values.
  - intros order_cl Hcl Hw16 Hh16.
    destruct (opencl_run order_cl m dev input output_h d_input d_output
                width height channels kernel_size)
      as (m_cl & Hrun & Hfcl); [done..|].
    exists m_cl. split; [done|].
    eapply same_output; [done| |exact Hvseq].
    intros x y c. by apply filled_values.
Qed.

Lemma ramp_group : group_ok 16 16 1 [ramp_root; ramp_worker] 2000.
Proof.
  split; [by vm_compute|]. split.
  - intros [|[|i]] p Hp; [| |done]; injection Hp as <-;
      vm_compute; left; discriminate.
  - intros root [= <-]. unfold disjoint; simpl. lia.
Qed.

Lemma backends_agree_witness :
  let n := 16 * 16 * 3 in
  ∃ m_seq m_omp m_mpi m_cuda m_cl,
    Serial.apply_box_blur_color (mem_of 0 0 ramp_input) 0 3000 16 16 1 5
      = Some m_seq
    ∧ OpenMP.apply_box_blur_openmp (OpenMP.collapsed 16 16)
        (mem_of 0 0 ramp_input) 0 3000 16 16 1 5 = Some m_omp
    ∧ MPI.main [ramp_root; ramp_worker] 2000 16 16 1 5 = Some m_mpi
    ∧ CUDA.cuda_box_blur
        (CUDA.threads (CUDA.grid_dim 16 8) (CUDA.grid_dim 16 8) 8 8)
        (mem_of 0 0 ramp_input) (λ _, 0) 0 4000 0 1000 16 16 1 5 8
      = Some m_cuda
    ∧ OpenCL.apply_box_blur_opencl (OpenCL.work_items 16 16)
        (mem_of 0 0 ramp_input) (λ _, 0) 0 4000 0 1000 16 16 1 5 = Some m_cl
    ∧ read_buf m_omp 3000 n = read_buf m_seq 3000 n
    ∧ read_buf m_mpi 2000 n = read_buf m_seq 3000 n
    ∧ read_buf m_cuda 4000 n = read_buf m_seq 3000 n
    ∧ read_buf m_cl 4000 n = read_buf m_seq 3000 n.
Proof.
  assert (valid_dims 16 16 1) as Hdims by (unfold valid_dims, INT_MAX; lia).
  assert (in_int 5) as Hks by (unfold in_int, INT_MIN, INT_MAX; lia).
  assert (0 ≤ 5 ÷ 2) as Hr by (by vm_compute).
  assert (disjoint 0 (16 * 16 * 1) 3000 (16 * 16 * 3)) as Hdisj
    by (unfold disjoint; lia).
  assert (OpenMP.schedule 16 16 (OpenMP.collapsed 16 16)) as Hsched
    by (unfold OpenMP.schedule; reflexivity).
  assert (disjoint 0 (16 * 16 * 1) 1000 (16 * 16 * 3)) as Hdev
    by (unfold disjoint; lia).
  assert (1 ≤ 8 ≤ 32) as Hbd by lia.
  assert (16 ≤ 65535 * 8) as Hgrid by lia.
  pose proof (backends_agree (mem_of 0 0 ramp_input) 0 3000 1000 16 16 1 5
                (OpenMP.collapsed 16 16) [ramp_worker] 2000
                (CUDA.threads (CUDA.grid_dim 16 8) (CUDA.grid_dim 16 8) 8 8)
                (λ _, 0) 4000 0 1000 8
                Hdims Hks Hr Hdisj Hsched ramp_group Hdev Hbd Hgrid
                (reflexivity _)) as Hagree.
  cbv zeta in Hagree.
  destruct Hagree
    as (m_seq & m_omp & m_mpi & m_cuda & Hseq & Homp & Hmpi & Hcuda
        & Eomp & Empi & Ecuda & Hcl).
  destruct (Hcl (OpenCL.work_items 16 16) (reflexivity _) eq_refl eq_refl)
    as (m_cl & Hclrun & Ecl).
  exists m_seq, m_omp, m_mpi, m_cuda, m_cl.
  split; [exact Hseq|]. split; [exact Homp|]. split; [exact Hmpi|].
  split; [exact Hcuda|]. split; [exact Hclrun|]. split; [exact Eomp|].
  split; [exact Empi|]. split; [exact Ecuda|exact Ecl].
Defined.

(** ** A launch the device refuses *)

(** An image of more than [65535 * blockDim]
    rows needs more than 65535 blocks along y: the launch fails, no thread
    runs, and since no CUDA call is checked the copy out hands the host the
    device buffer as it was before the launch, not the blurred image.
    Nothing else in the host memory changes. *)
Theorem cuda_tall_image order host dev h_input h_output d_input d_output
    width height channels kernelSize blockDim :
  valid_dims width height channels →
  disjoint d_input (width * height * channels) d_output (width * height * 3) →
  1 ≤ blockDim ≤ 32 → 65535 * blockDim < height →
  ∃ host', CUDA.cuda_box_blur order host dev h_input h_output d_input d_output
             width height channels kernelSize blockDim = Some host'
    ∧ (∀ i, 0 ≤ i < width * height * 3 →
         host' (h_output + i) = dev (d_output + i))
    ∧ (∀ a, ¬ (h_output ≤ a < h_output + width * height * 3) →
         host' a = host a).
Proof.
  intros Hdims Hdisj Hbd Htall.
  destruct (image_size_eq _ _ _ Hdims) as [Hn Hout].
  destruct (valid_dims_height _ _ _ Hdims) as [Hh Hw].
  destruct (grid_dim_spec height blockDim Hh Hbd) as [Hgy0 Hgy].
  unfold CUDA.cuda_box_blur. rewrite Hn, Hout. cbv zeta.
  rewrite (Z.mod_small blockDim) by lia.
  destruct (Z.eqb_spec blockDim 0) as [|_]; [lia|].
  assert (CUDA.launch_accepted (CUDA.grid_dim width blockDim)
            (CUDA.grid_dim height blockDim) blockDim blockDim = false) as ->.
  { unfold CUDA.launch_accepted.
    set (gy := CUDA.grid_dim height blockDim) in *.
    assert (65535 < gy) as Hbig.
    { apply (Z.mul_lt_mono_pos_r blockDim); lia. }
    assert ((gy <=? 65535) = false) as -> by lia.
    by rewrite !andb_false_r. }
  cbn [mbind option_bind]. eexists. split; [reflexivity|]. split.
  - intros i Hi. unfold copy_bytes at 1.
    rewrite bool_decide_eq_true_2 by lia.
    replace (h_output + i - h_output) with i by lia.
    apply copy_bytes_frame. unfold disjoint in Hdisj. lia.
  - intros a Ha. by apply copy_bytes_frame.
Qed.

Lemma cuda_tall_image_witness :
  ∃ host', CUDA.cuda_box_blur [] (λ _, 7) (λ _, 0) 0 70000 0 70000
             1 70000 1 5 1 = Some host'
    ∧ (∀ i, 0 ≤ i < 1 * 70000 * 3 → host' (70000 + i) = 0)
    ∧ (∀ a, ¬ (70000 ≤ a < 70000 + 1 * 70000 * 3) → host' a = 7).
Proof.
  apply (cuda_tall_image [] (λ _, 7) (λ _, 0) 0 70000 0 70000 1 70000 1 5 1).
  - unfold valid_dims, INT_MAX. lia.
  - unfold disjoint. lia.
  - lia.
  - lia.
Defined.

(** * Further properties of the blur *)

(** ** Radii that cannot overflow *)

Lemma small_kernel_run m input out width height channels kernel_size :
  valid_dims width height channels →
  is_image m input (width * height * channels) →
  disjoint input (width * height * channels) out (width * height * 3) →
  0 ≤ kernel_size ÷ 2 ≤ 1450 →
  ∃ m', Serial.apply_box_blur_color m input out width height channels
          kernel_size = Some m'
    ∧ ∀ x y c, 0 ≤ x < width → 0 ≤ y < height → 0 ≤ c < 3 →
        m' (cell out width y x c)
        = box_average (load m input) width height channels x y (kernel_size ÷ 2) c
        ∧ 0 ≤ m' (cell out width y x c) ≤ 255.
Proof.
  intros Hdims Himg Hdisj Hr.
  assert (in_int kernel_size) as Hks.
  { unfold in_int, INT_MIN, INT_MAX. Z.to_euclidean_division_equations. lia. }
  destruct (serial_run m input out width height channels kernel_size)
    as (m' & Hrun & Hfill); [done|done|lia|done|].
  exists m'. split; [done|]. intros x y c Hx Hy Hc.
  rewrite (filled_values _ _ _ _ _ _ _ _ _ _ _ Hfill) by done.
  destruct (blur_byte_average m input width height channels x y
              (kernel_size ÷ 2) c) as [-> Hb]; [done|done|done|done|lia|done| |done].
  apply window_sum_fits; [done|done|lia|done|]. unfold INT_MAX. nia.
Qed.

(** For every radius up to 1450, so for the kernel size 5 that every
    [main] passes, the [int] accumulator cannot overflow: on every valid
    byte image the sequential blur stores at every pixel and channel
    exactly the truncated average over the valid neighbours, a byte. *)
Theorem small_kernel_exact m input out width height channels kernel_size :
  valid_dims width height channels →
  is_image m input (width * height * channels) →
  disjoint input (width * height * channels) out (width * height * 3) →
  0 ≤ kernel_size ÷ 2 ≤ 1450 →
  ∃ m', Serial.apply_box_blur_color m input out width height channels
          kernel_size = Some m'
    ∧ ∀ x y c, 0 ≤ x < width → 0 ≤ y < height → 0 ≤ c < 3 →
        m' (cell out width y x c)
        = box_average (load m input) width height channels x y (kernel_size ÷ 2) c
        ∧ 0 ≤ m' (cell out width y x c) ≤ 255.
Proof. apply small_kernel_run. Qed.

Lemma small_kernel_exact_witness :
  ∃ m', Serial.apply_box_blur_color (mem_of 0 0 scenario_input) 0 16 4 4 1 5
        = Some m'
    ∧ ∀ x y c, 0 ≤ x < 4 → 0 ≤ y < 4 → 0 ≤ c < 3 →
        m' (cell 16 4 y x c)
        = box_average (load (mem_of 0 0 scenario_input) 0) 4 4 1 x y (5 ÷ 2) c
        ∧ 0 ≤ m' (cell 16 4 y x c) ≤ 255.
Proof.
  apply (small_kernel_exact (mem_of 0 0 scenario_input) 0 16 4 4 1 5).
  - apply scenario_dims.
  - apply scenario_is_image.
  - unfold disjoint. lia.
  - by vm_compute.
Defined.

(** ** The blur stays between the extremes of its input *)

Lemma sumZ_between (f : Z * Z → Z) l lo hi :
  (∀ p, p ∈ l → lo ≤ f p ≤ hi) →
  lo * Z.of_nat (length l) ≤ sumZ (f <$> l) ≤ hi * Z.of_nat (length l).
Proof.
  induction l as [|p l IH]; intros Hl; [simpl; lia|].
  rewrite fmap_cons, sumZ_cons, length_cons, Nat2Z.inj_succ.
  pose proof (Hl p ltac:(left)).
  pose proof (IH (λ q Hq, Hl q ltac:(by right))). lia.
Qed.

Lemma box_average_between img width height channels x y radius c lo hi :
  0 ≤ x < width → 0 ≤ y < height → 0 ≤ radius → 0 ≤ lo →
  (∀ p, inside width height p → lo ≤ sample img width channels c p ≤ hi) →
  lo ≤ box_average img width height channels x y radius c ≤ hi.
Proof.
  intros Hx Hy Hr Hlo Hs. unfold box_average.
  pose proof (window_count_bounds width height x y radius Hx Hy Hr) as Hcnt.
  pose proof (sumZ_between (sample img width channels c)
                (valid_neighbors width height x y radius) lo hi) as Hsum.
  fold (window_sum img width height channels x y radius c) in Hsum.
  fold (window_count width height x y radius) in Hsum.
  specialize (Hsum (λ p Hp, Hs p (valid_neighbors_inside _ _ _ _ _ _ Hp))).
  rewrite Z.quot_div_nonneg by nia. split.
  - apply Z.div_le_lower_bound; lia.
  - apply Z.div_le_upper_bound; lia.
Qed.

(** Every output sample lies between the smallest and the largest input
    sample of its channel, at the border as well; a uniform image is
    therefore blurred to itself.  (Radius at most 1450, where the
    accumulator cannot overflow.) *)
Theorem blur_between_extremes m input out width height channels kernel_size
    c lo hi :
  valid_dims width height channels →
  is_image m input (width * height * channels) →
  disjoint input (width * height * channels) out (width * height * 3) →
  0 ≤ kernel_size ÷ 2 ≤ 1450 → 0 ≤ c < 3 → 0 ≤ lo →
  (∀ p, inside width height p →
     lo ≤ sample (load m input) width channels c p ≤ hi) →
  ∃ m', Serial.apply_box_blur_color m input out width height channels
          kernel_size = Some m'
    ∧ (∀ x y, 0 ≤ x < width → 0 ≤ y < height →
         lo ≤ m' (cell out width y x c) ≤ hi)
    ∧ (lo = hi → ∀ x y, 0 ≤ x < width → 0 ≤ y < height →
         m' (cell out width y x c) = sample (load m input) width channels c (x, y)).
Proof.
  intros Hdims Himg Hdisj Hr Hc Hlo Hs.
  destruct (small_kernel_run m input out width height channels kernel_size)
    as (m' & Hrun & Hval); [done..|].
  exists m'. split; [done|].
  assert (∀ x y, 0 ≤ x < width → 0 ≤ y < height →
            lo ≤ m' (cell out width y x c) ≤ hi) as Hbetween.
  { intros x y Hx Hy. destruct (Hval x y c Hx Hy Hc) as [-> _].
    apply box_average_between; (done || lia). }
  split; [done|]. intros -> x y Hx Hy.
  pose proof (Hbetween x y Hx Hy). pose proof (Hs (x, y) ltac:(by split)). lia.
Qed.

Lemma blur_between_extremes_witness :
  ∃ m', Serial.apply_box_blur_color (mem_of 0 0 scenario_input) 0 16 4 4 1 5
        = Some m'
    ∧ (∀ x y, 0 ≤ x < 4 → 0 ≤ y < 4 → 0 ≤ m' (cell 16 4 y x 0) ≤ 15)
    ∧ (0 = 15 → ∀ x y, 0 ≤ x < 4 → 0 ≤ y < 4 →
         m' (cell 16 4 y x 0)
         = sample (load (mem_of 0 0 scenario_input) 0) 4 1 0 (x, y)).
Proof.
  apply (blur_between_extremes (mem_of 0 0 scenario_input) 0 16 4 4 1 5 0 0 15).
  - apply scenario_dims.
  - apply scenario_is_image.
  - unfold disjoint. lia.
  - by vm_compute.
  - lia.
  - lia.
  - intros [p1 p2] [H1 H2]; simpl in H1, H2. unfold sample; simpl.
    rewrite scenario_load by lia. lia.
Defined.

(** ** Radius zero *)

Lemma valid_neighbors_radius_0 width height x y :
  0 ≤ x < width → 0 ≤ y < height →
  valid_neighbors width height x y 0 = [(x, y)].
Proof.
  intros Hx Hy. unfold valid_neighbors, neighbors, offsets, range_le.
  change (seqZ (- 0) (0 - - 0 + 1)) with [0]. cbn [mbind list_bind fmap list_fmap app].
  rewrite !Z.add_0_r, filter_cons, filter_nil.
  by rewrite decide_True by (by split).
Qed.

(** With a kernel size of -1, 0 or 1 the radius is 0 and the blur copies:
    every output sample is the input sample of its pixel and channel
    (channel 0 of a single-channel image); a fourth channel is
    dropped. *)
Theorem radius_zero_copies m input out width height channels kernel_size :
  valid_dims width height channels →
  is_image m input (width * height * channels) →
  disjoint input (width * height * channels) out (width * height * 3) →
  kernel_size ÷ 2 = 0 →
  ∃ m', Serial.apply_box_blur_color m input out width height channels
          kernel_size = Some m'
    ∧ ∀ x y c, 0 ≤ x < width → 0 ≤ y < height → 0 ≤ c < 3 →
        m' (cell out width y x c) = sample (load m input) width channels c (x, y).
Proof.
  intros Hdims Himg Hdisj Hr.
  destruct (small_kernel_run m input out width height channels kernel_size)
    as (m' & Hrun & Hval); [done|done|done|lia|].
  exists m'. split; [done|]. intros x y c Hx Hy Hc.
  destruct (Hval x y c Hx Hy Hc) as [-> _]. rewrite Hr.
  unfold box_average, window_sum, window_count.
  rewrite valid_neighbors_radius_0 by done. simpl.
  by rewrite Z.add_0_r, Z.quot_1_r.
Qed.

Lemma radius_zero_copies_witness :
  ∃ m', Serial.apply_box_blur_color (mem_of 0 0 rgba_a) 0 8 2 1 4 (-1) = Some m'
    ∧ ∀ x y c, 0 ≤ x < 2 → 0 ≤ y < 1 → 0 ≤ c < 3 →
        m' (cell 8 2 y x c) = sample (load (mem_of 0 0 rgba_a) 0) 2 4 c (x, y).
Proof.
  apply (radius_zero_copies (mem_of 0 0 rgba_a) 0 8 2 1 4 (-1)).
  - unfold valid_dims, INT_MAX. lia.
  - apply is_image_mem_of; [lia|]. unfold rgba_a. repeat constructor; lia.
  - unfold disjoint. lia.
  - by vm_compute.
Defined.

(** ** Degenerate calls *)

Lemma window_negative_radius mm input width height channels k x y c :
  -1073741824 ≤ k < 0 →
  Serial.window mm input width height channels k x y c = (0, 0).
Proof.
  intros Hk. rewrite serial_window_unfold.
  rewrite ineg_id by (unfold in_int, INT_MIN, INT_MAX; lia).
  unfold range_le. by rewrite seqZ_nil by lia.
Qed.

Lemma pixel_step_negative_radius input out width height channels k x y row mm :
  -1073741824 ≤ k < 0 →
  pixel_step input out width height channels k x y row mm = None.
Proof.
  intros Hk. unfold pixel_step. change (range_lt 0 3) with [0; 1; 2].
  cbn [for_eachM]. by rewrite window_negative_radius by lia.
Qed.

Lemma row_major_empty width row0 rows :
  width ≤ 0 ∨ rows ≤ 0 → row_major width row0 rows = [].
Proof.
  intros Hempty. unfold row_major, range_lt.
  destruct (Z_le_gt_dec rows 0) as [Hr|Hr].
  - by rewrite (seqZ_nil row0) by lia.
  - rewrite (seqZ_nil 0) by lia.
    induction (seqZ row0 (row0 + rows - row0)) as [|a l IH]; [done|].
    cbn [mbind list_bind]. cbn [mbind list_bind] in IH. by rewrite IH.
Qed.

(** An image without pixels and a row range without rows are no-ops: the
    memory is returned as it was, whatever the kernel size.  A kernel
    size of -2 or less makes the window loops empty, so on an image with
    at least one pixel the first division divides by zero. *)
Theorem degenerate_calls m input out width height channels kernel_size :
  (width ≤ 0 ∨ height ≤ 0 →
   Serial.apply_box_blur_color m input out width height channels kernel_size
   = Some m)
  ∧ (∀ start_row end_row, end_row ≤ start_row →
       MPI.apply_box_blur_mpi m input out width height channels kernel_size
         start_row end_row = Some m)
  ∧ (0 < width → 0 < height → in_int kernel_size → kernel_size ÷ 2 < 0 →
     Serial.apply_box_blur_color m input out width height channels kernel_size
     = None).
Proof.
  split; [|split].
  - intros Hempty. rewrite serial_shape, row_major_empty; [done|lia].
  - intros start_row end_row Hrows. unfold MPI.apply_box_blur_mpi, range_lt.
    by rewrite seqZ_nil by lia.
  - intros Hw Hh Hks Hr. destruct (idiv_2 kernel_size Hks) as [Hk Hkr].
    rewrite serial_shape. unfold row_major, range_lt.
    rewrite (seqZ_cons 0 (0 + height - 0)) by lia.
    cbn [mbind list_bind]. rewrite (seqZ_cons 0 (width - 0)) by lia.
    cbn [fmap list_fmap app for_eachM].
    by rewrite Hk, pixel_step_negative_radius by lia.
Qed.

Lemma degenerate_calls_witness :
  Serial.apply_box_blur_color (mem_of 0 0 scenario_input) 0 16 4 4 1 (-2) = None.
Proof.
  destruct (degenerate_calls (mem_of 0 0 scenario_input) 0 16 4 4 1 (-2))
    as (_ & _ & Htrap).
  apply Htrap.
  - lia.
  - lia.
  - unfold in_int, INT_MIN, INT_MAX. lia.
  - by vm_compute.
Defined.

(** ** Gray in, gray out *)

(** A single-channel image is blurred to a gray RGB image: the three
    output samples of every pixel are equal, for every radius, overflow
    or not. *)
Theorem gray_broadcast m input out width height kernel_size :
  valid_dims width height 1 →
  in_int kernel_size → 0 ≤ kernel_size ÷ 2 →
  disjoint input (width * height * 1) out (width * height * 3) →
  ∃ m', Serial.apply_box_blur_color m input out width height 1 kernel_size
        = Some m'
    ∧ ∀ x y, 0 ≤ x < width → 0 ≤ y < height →
        m' (cell out width y x 1) = m' (cell out width y x 0)
        ∧ m' (cell out width y x 2) = m' (cell out width y x 0).
Proof.
  intros Hdims Hks Hr Hdisj.
  destruct (serial_run m input out width height 1 kernel_size)
    as (m' & Hrun & Hfill); [done..|].
  exists m'. split; [done|]. intros x y Hx Hy.
  rewrite !(filled_values _ _ _ _ _ _ _ _ _ _ _ Hfill) by (done || lia).
  done.
Qed.

Lemma gray_broadcast_witness :
  ∃ m', Serial.apply_box_blur_color (mem_of 0 0 scenario_input) 0 16 4 4 1 5
        = Some m'
    ∧ ∀ x y, 0 ≤ x < 4 → 0 ≤ y < 4 →
        m' (cell 16 4 y x 1) = m' (cell 16 4 y x 0)
        ∧ m' (cell 16 4 y x 2) = m' (cell 16 4 y x 0).
Proof.
  apply (gray_broadcast (mem_of 0 0 scenario_input) 0 16 4 4 5).
  - apply scenario_dims.
  - unfold in_int, INT_MIN, INT_MAX. lia.
  - by vm_compute.
  - unfold disjoint. lia.
Defined.

(** * The proposal code and the utilities *)

(** ** Loop invariants *)

Lemma for_eachM_seqZ_inv {S} (P : Z → S → Prop) lo len
    (body : Z → S → option S) s :
  0 ≤ len → P lo s →
  (∀ i s, lo ≤ i < lo + len → P i s → ∃ s', body i s = Some s' ∧ P (i + 1) s') →
  ∃ s', for_eachM (seqZ lo len) body s = Some s' ∧ P (lo + len) s'.
Proof.
  intros Hlen. remember (Z.to_nat len) as n eqn:Hn. revert lo len s Hlen Hn.
  induction n as [|n IH]; intros lo len s Hlen Hn H0 Hstep.
  - assert (len = 0) as -> by lia. rewrite seqZ_nil by lia.
    exists s. by rewrite Z.add_0_r.
  - rewrite seqZ_cons by lia. cbn [for_eachM].
    destruct (Hstep lo s ltac:(lia) H0) as (s1 & -> & H1). cbn.
    destruct (IH (Z.succ lo) (Z.pred len) s1 ltac:(lia) ltac:(lia))
      as (s' & Hrun & HP).
    + by replace (Z.succ lo) with (lo + 1) by lia.
    + intros i s2 Hi. apply Hstep. lia.
    + exists s'. split; [done|].
      by replace (lo + len) with (Z.succ lo + Z.pred len) by lia.
Qed.

Lemma for_each_seqZ_inv {S} (P : Z → S → Prop) lo len (body : Z → S → S) s :
  0 ≤ len → P lo s →
  (∀ i s, lo ≤ i < lo + len → P i s → P (i + 1) (body i s)) →
  P (lo + len) (for_each (seqZ lo len) body s).
Proof.
  intros Hlen. remember (Z.to_nat len) as n eqn:Hn. revert lo len s Hlen Hn.
  induction n as [|n IH]; intros lo len s Hlen Hn H0 Hstep.
  - assert (len = 0) as -> by lia. rewrite seqZ_nil by lia.
    by rewrite Z.add_0_r.
  - rewrite seqZ_cons by lia. unfold for_each. cbn [foldl].
    replace (lo + len) with (Z.succ lo + Z.pred len) by lia.
    apply (IH (Z.succ lo) (Z.pred len)); [lia|lia| |].
    + replace (Z.succ lo) with (lo + 1) by lia. apply Hstep; [lia|done].
    + intros i s2 Hi. apply Hstep. lia.
Qed.

(** ** The 3x3 convolution of the proposal *)

Lemma in_array_true r c :
  0 ≤ r < 1024 → 0 ≤ c < 1024 → Proposal.in_array r c = true.
Proof.
  intros Hr Hc. unfold Proposal.in_array, Proposal.HEIGHT, Proposal.WIDTH.
  repeat (apply andb_true_intro; split); lia.
Qed.

Lemma tap (input : Proposal.image) i j ki kj sum :
  1 ≤ i ≤ 1022 → 1 ≤ j ≤ 1022 → 0 ≤ ki < 3 → 0 ≤ kj < 3 →
  in_int (input (i + (ki - 1)) (j + (kj - 1))) →
  (p ← Proposal.array_get input (isub (iadd i ki) 1) (isub (iadd j kj) 1);
   w ← Proposal.kernel_get ki kj;
   Some (iadd sum (imul p w)))
  = Some (wrap (sum + input (i + (ki - 1)) (j + (kj - 1)))).
Proof.
  intros Hi Hj Hki Hkj Hin.
  assert (isub (iadd i ki) 1 = i + (ki - 1)) as ->.
  { rewrite iadd_id, isub_id; unfold in_int, INT_MIN, INT_MAX; lia. }
  assert (isub (iadd j kj) 1 = j + (kj - 1)) as ->.
  { rewrite iadd_id, isub_id; unfold in_int, INT_MIN, INT_MAX; lia. }
  unfold Proposal.array_get. rewrite in_array_true by lia.
  assert (Proposal.kernel_get ki kj = Some 1) as ->.
  { assert (ki = 0 ∨ ki = 1 ∨ ki = 2) as [->|[->| ->]] by lia;
    assert (kj = 0 ∨ kj = 1 ∨ kj = 2) as [->|[->| ->]] by lia; reflexivity. }
  cbn [mbind option_bind]. rewrite imul_id by (by rewrite Z.mul_1_r).
  by rewrite Z.mul_1_r.
Qed.

Lemma neighbors_1 x y :
  neighbors x y 1
  = [(x + -1, y + -1); (x + 0, y + -1); (x + 1, y + -1);
     (x + -1, y + 0); (x + 0, y + 0); (x + 1, y + 0);
     (x + -1, y + 1); (x + 0, y + 1); (x + 1, y + 1)].
Proof. reflexivity. Qed.

Lemma taps (input : Proposal.image) i j :
  (∀ r c, 0 ≤ r < 1024 → 0 ≤ c < 1024 → in_int (input r c)) →
  1 ≤ i ≤ 1022 → 1 ≤ j ≤ 1022 →
  for_eachM (range_lt 0 Proposal.K_SIZE) (λ ki sum,
    for_eachM (range_lt 0 Proposal.K_SIZE) (λ kj sum,
      let r := isub (iadd i ki) 1 in
      let c := isub (iadd j kj) 1 in
      p ← Proposal.array_get input r c;
      w ← Proposal.kernel_get ki kj;
      Some (iadd sum (imul p w))) sum) 0
  = Some (wrap (nine input i j)).
Proof.
  intros Hin Hi Hj. change (range_lt 0 Proposal.K_SIZE) with [0; 1; 2].
  cbn [for_eachM].
  repeat (rewrite tap by (lia || (apply Hin; lia)); rewrite ?wrap_add_l;
          cbn [mbind option_bind]).
  do 2 f_equal. unfold nine. rewrite neighbors_1.
  cbn [fmap list_fmap sumZ foldr fst snd].
  change (0 - 1) with (-1). change (1 - 1) with 0. change (2 - 1) with 1. lia.
Qed.

Lemma quot_9_in_int a : in_int a → in_int (a ÷ 9).
Proof.
  unfold in_int, INT_MIN, INT_MAX. intros Ha.
  Z.to_euclidean_division_equations. lia.
Qed.

(** One output pixel of [serial_convolution]. *)
Lemma convolution_pixel (input out : Proposal.image) i j :
  (∀ r c, 0 ≤ r < 1024 → 0 ≤ c < 1024 → in_int (input r c)) →
  1 ≤ i ≤ 1022 → 1 ≤ j ≤ 1022 →
  (sum ← for_eachM (range_lt 0 Proposal.K_SIZE) (λ ki sum,
     for_eachM (range_lt 0 Proposal.K_SIZE) (λ kj sum,
       p ← Proposal.array_get input (isub (iadd i ki) 1) (isub (iadd j kj) 1);
       w ← Proposal.kernel_get ki kj;
       Some (iadd sum (imul p w))) sum) 0;
   if Proposal.kernel_factor =? 0 then None
   else Proposal.array_set out i j (idiv sum Proposal.kernel_factor))
  = Some (λ r' c', if bool_decide (r' = i ∧ c' = j)
                   then wrap (nine input i j) ÷ 9 else out r' c').
Proof.
  intros Hin Hi Hj. pose proof (taps input i j Hin Hi Hj) as Htaps.
  cbv zeta in Htaps. rewrite Htaps. cbn [mbind option_bind].
  change (Proposal.kernel_factor =? 0) with false. cbv iota.
  unfold Proposal.array_set. rewrite in_array_true by lia.
  change Proposal.kernel_factor with 9.
  by rewrite idiv_id by apply quot_9_in_int, wrap_range.
Qed.

Lemma convolution_row (input out0 : Proposal.image) i :
  (∀ r c, 0 ≤ r < 1024 → 0 ≤ c < 1024 → in_int (input r c)) →
  1 ≤ i ≤ 1022 →
  ∃ out, for_eachM (seqZ 1 1022) (λ j out,
      sum ← for_eachM (range_lt 0 Proposal.K_SIZE) (λ ki sum,
        for_eachM (range_lt 0 Proposal.K_SIZE) (λ kj sum,
          p ← Proposal.array_get input (isub (iadd i ki) 1) (isub (iadd j kj) 1);
          w ← Proposal.kernel_get ki kj;
          Some (iadd sum (imul p w))) sum) 0;
      if Proposal.kernel_factor =? 0 then None
      else Proposal.array_set out i j (idiv sum Proposal.kernel_factor)) out0
    = Some out
    ∧ (∀ c, 1 ≤ c ≤ 1022 → out i c = wrap (nine input i c) ÷ 9)
    ∧ (∀ r c, ¬ (r = i ∧ 1 ≤ c ≤ 1022) → out r c = out0 r c).
Proof.
  intros Hin Hi.
  destruct (for_eachM_seqZ_inv (λ j (out : Proposal.image),
      (∀ c, 1 ≤ c < j → out i c = wrap (nine input i c) ÷ 9)
      ∧ (∀ r c, ¬ (r = i ∧ 1 ≤ c < j) → out r c = out0 r c)) 1 1022
    (λ j out,
      sum ← for_eachM (range_lt 0 Proposal.K_SIZE) (λ ki sum,
        for_eachM (range_lt 0 Proposal.K_SIZE) (λ kj sum,
          p ← Proposal.array_get input (isub (iadd i ki) 1) (isub (iadd j kj) 1);
          w ← Proposal.kernel_get ki kj;
          Some (iadd sum (imul p w))) sum) 0;
      if Proposal.kernel_factor =? 0 then None
      else Proposal.array_set out i j (idiv sum Proposal.kernel_factor)) out0)
    as (out & Hrun & Hval & Hframe).
  - lia.
  - split; [intros; lia|done].
  - intros j out Hj [Hval Hframe]. eexists. split.
    { apply convolution_pixel; [done|lia|lia]. }
    cbv beta. split.
    + intros c Hc. case_bool_decide as Heq.
      * by destruct Heq as [_ ->].
      * apply Hval. lia.
    + intros r c Hrc. case_bool_decide as Heq; [lia|]. apply Hframe. lia.
  - exists out. split; [done|]. split.
    + intros c Hc. apply Hval. lia.
    + intros r c Hrc. apply Hframe. lia.
Qed.

Lemma convolution_run (input output : Proposal.image) :
  (∀ r c, 0 ≤ r < 1024 → 0 ≤ c < 1024 → in_int (input r c)) →
  ∃ out, Proposal.serial_convolution input output = Some out
    ∧ (∀ i j, 1 ≤ i ≤ 1022 → 1 ≤ j ≤ 1022 →
         out i j = wrap (nine input i j) ÷ 9)
    ∧ (∀ i j, ¬ (1 ≤ i ≤ 1022 ∧ 1 ≤ j ≤ 1022) → out i j = output i j).
Proof.
  intros Hin.
  destruct (for_eachM_seqZ_inv (λ i (out : Proposal.image),
      (∀ r c, 1 ≤ r < i → 1 ≤ c ≤ 1022 → out r c = wrap (nine input r c) ÷ 9)
      ∧ (∀ r c, ¬ (1 ≤ r < i ∧ 1 ≤ c ≤ 1022) → out r c = output r c)) 1 1022
    (λ i out, for_eachM (seqZ 1 1022) (λ j out,
      sum ← for_eachM (range_lt 0 Proposal.K_SIZE) (λ ki sum,
        for_eachM (range_lt 0 Proposal.K_SIZE) (λ kj sum,
          p ← Proposal.array_get input (isub (iadd i ki) 1) (isub (iadd j kj) 1);
          w ← Proposal.kernel_get ki kj;
          Some (iadd sum (imul p w))) sum) 0;
      if Proposal.kernel_factor =? 0 then None
      else Proposal.array_set out i j (idiv sum Proposal.kernel_factor)) out)
    output) as (out & Hrun & Hval & Hframe).
  - lia.
  - split; [intros; lia|done].
  - intros i out Hi [Hval Hframe].
    destruct (convolution_row input out i Hin ltac:(lia))
      as (out' & Hrow & Hval' & Hframe').
    exists out'. split; [done|]. split.
    + intros r c Hr Hc. destruct (decide (r = i)) as [->|Hne].
      * by apply Hval'.
      * rewrite Hframe' by lia. apply Hval; lia.
    + intros r c Hrc. rewrite Hframe' by lia. apply Hframe. lia.
  - exists out. split; [exact Hrun|]. split.
    + intros i j Hi Hj. apply Hval; lia.
    + intros i j Hij. apply Hframe. lia.
Qed.

(** [serial_convolution] never leaves its arrays.  Every pixel off the
    one-pixel border receives the sum of its nine neighbours, as the [int]
    accumulator holds it, divided by nine; the border of the output image
    is left as it was. *)
Theorem convolution_interior (input output : Proposal.image) :
  (∀ r c, 0 ≤ r < 1024 → 0 ≤ c < 1024 → in_int (input r c)) →
  ∃ out, Proposal.serial_convolution input output = Some out
    ∧ (∀ i j, 1 ≤ i ≤ 1022 → 1 ≤ j ≤ 1022 →
         out i j = wrap (nine input i j) ÷ 9)
    ∧ (∀ i j, ¬ (1 ≤ i ≤ 1022 ∧ 1 ≤ j ≤ 1022) → out i j = output i j).
Proof. apply convolution_run. Qed.

Lemma convolution_interior_witness :
  ∃ out, Proposal.serial_convolution (λ r c, r + c) Proposal.zeroed = Some out
    ∧ (∀ i j, 1 ≤ i ≤ 1022 → 1 ≤ j ≤ 1022 →
         out i j = wrap (nine (λ r c, r + c) i j) ÷ 9)
    ∧ (∀ i j, ¬ (1 ≤ i ≤ 1022 ∧ 1 ≤ j ≤ 1022) → out i j = Proposal.zeroed i j).
Proof.
  apply (convolution_interior (λ r c, r + c) Proposal.zeroed).
  intros r c Hr Hc. unfold in_int, INT_MIN, INT_MAX. lia.
Defined.

(** ** The proposal's [main] *)

Lemma for_eachM_seqZ_rule {S} (P : Z → S → Prop) (Q : S → Prop) lo len
    (body : Z → S → option S) s :
  0 ≤ len → P lo s →
  (∀ i s, lo ≤ i < lo + len → P i s → ∃ s', body i s = Some s' ∧ P (i + 1) s') →
  (∀ s', P (lo + len) s' → Q s') →
  ∃ s', for_eachM (seqZ lo len) body s = Some s' ∧ Q s'.
Proof.
  intros Hlen H0 Hstep HQ.
  destruct (for_eachM_seqZ_inv P lo len body s Hlen H0 Hstep) as (s' & Hrun & HP).
  exists s'. split; [done|]. by apply HQ.
Qed.

Lemma initialize_row (rand : Z → Z) (img0 : Proposal.image) i n :
  0 ≤ i < 1024 →
  ∃ st, for_eachM (seqZ 0 1024) (λ j '(img, calls),
      img' ← Proposal.array_set img i j (Z.rem (rand calls) 256);
      Some (img', calls + 1)) (img0, n) = Some st
    ∧ st.2 = n + 1024
    ∧ (∀ c, 0 ≤ c < 1024 → st.1 i c = Z.rem (rand (n + c)) 256)
    ∧ (∀ r c, ¬ (r = i ∧ 0 ≤ c < 1024) → st.1 r c = img0 r c).
Proof.
  intros Hi.
  apply (for_eachM_seqZ_rule (λ j (st : Proposal.image * Z),
      st.2 = n + j
      ∧ (∀ c, 0 ≤ c < j → st.1 i c = Z.rem (rand (n + c)) 256)
      ∧ (∀ r c, ¬ (r = i ∧ 0 ≤ c < j) → st.1 r c = img0 r c))).
  - lia.
  - simpl. split; [lia|]. split; [intros; lia|done].
  - intros j [img calls] Hj (Hcalls & Hval & Hframe). simpl in *.
    unfold Proposal.array_set. rewrite in_array_true by lia.
    eexists. split; [reflexivity|]. simpl. split; [lia|]. split.
    + intros c Hc. case_bool_decide as Heq.
      * destruct Heq as [_ ->]. by rewrite Hcalls.
      * apply Hval. lia.
    + intros r c Hrc. case_bool_decide as Heq; [lia|]. apply Hframe. lia.
  - intros st (Hcalls & Hval & Hframe). split; [done|]. split; [done|].
    intros r c Hrc. apply Hframe. lia.
Qed.

(** [initialize_image] stays inside the array and stores the values of
    [rand], reduced to their remainder by 256, in row-major order. *)
Lemma initialize_image_spec (rand : Z → Z) (img0 : Proposal.image) :
  ∃ img, Proposal.initialize_image rand img0 = Some img
    ∧ (∀ r c, 0 ≤ r < 1024 → 0 ≤ c < 1024 →
         img r c = Z.rem (rand (r * 1024 + c)) 256)
    ∧ (∀ r c, ¬ (0 ≤ r < 1024 ∧ 0 ≤ c < 1024) → img r c = img0 r c).
Proof.
  unfold Proposal.initialize_image.
  change (range_lt 0 Proposal.HEIGHT) with (seqZ 0 1024).
  change (range_lt 0 Proposal.WIDTH) with (seqZ 0 1024).
  destruct (for_eachM_seqZ_rule (λ i (st : Proposal.image * Z),
      st.2 = i * 1024
      ∧ (∀ r c, 0 ≤ r < i → 0 ≤ c < 1024 →
           st.1 r c = Z.rem (rand (r * 1024 + c)) 256)
      ∧ (∀ r c, ¬ (0 ≤ r < i ∧ 0 ≤ c < 1024) → st.1 r c = img0 r c))
    (λ st : Proposal.image * Z,
      (∀ r c, 0 ≤ r < 1024 → 0 ≤ c < 1024 →
           st.1 r c = Z.rem (rand (r * 1024 + c)) 256)
      ∧ (∀ r c, ¬ (0 ≤ r < 1024 ∧ 0 ≤ c < 1024) → st.1 r c = img0 r c))
    0 1024
    (λ i st, for_eachM (seqZ 0 1024) (λ j '(img, calls),
      img' ← Proposal.array_set img i j (Z.rem (rand calls) 256);
      Some (img', calls + 1)) st) (img0, 0)) as (st & Hrun & Hval & Hframe).
  - lia.
  - cbn [fst snd]. split; [lia|]. split; [intros; lia|done].
  - intros i [img calls] Hi (Hcalls & Hval & Hframe). cbn [fst snd] in *.
    destruct (initialize_row rand img i calls ltac:(lia))
      as (st & Hrow & Hcalls' & Hval' & Hframe').
    exists st. split; [done|]. split; [lia|]. split.
    + intros r c Hr Hc. destruct (decide (r = i)) as [->|Hne].
      * rewrite Hval' by done. by rewrite Hcalls.
      * rewrite Hframe' by lia. apply Hval; lia.
    + intros r c Hrc. rewrite Hframe' by lia. apply Hframe. lia.
  - intros st (_ & Hval & Hframe). split; [done|].
    intros r c Hrc. apply Hframe. lia.
  - exists st.1. rewrite Hrun. clear Hrun.
    split; [reflexivity|]. split; assumption.
Qed.

Lemma nine_ext (a b : Z → Z → Z) i j :
  (∀ r c, i - 1 ≤ r ≤ i + 1 → j - 1 ≤ c ≤ j + 1 → a r c = b r c) →
  nine a i j = nine b i j.
Proof.
  intros Hab. unfold nine. rewrite neighbors_1.
  cbn [fmap list_fmap fst snd]. by rewrite !Hab by lia.
Qed.

Lemma nine_between (a : Z → Z → Z) i j lo hi :
  (∀ r c, i - 1 ≤ r ≤ i + 1 → j - 1 ≤ c ≤ j + 1 → lo ≤ a r c ≤ hi) →
  9 * lo ≤ nine a i j ≤ 9 * hi.
Proof.
  intros Ha. unfold nine. rewrite neighbors_1.
  cbn [fmap list_fmap sumZ foldr fst snd].
  pose proof (Ha (i + -1) (j + -1) ltac:(lia) ltac:(lia)).
  pose proof (Ha (i + -1) (j + 0) ltac:(lia) ltac:(lia)).
  pose proof (Ha (i + -1) (j + 1) ltac:(lia) ltac:(lia)).
  pose proof (Ha (i + 0) (j + -1) ltac:(lia) ltac:(lia)).
  pose proof (Ha (i + 0) (j + 0) ltac:(lia) ltac:(lia)).
  pose proof (Ha (i + 0) (j + 1) ltac:(lia) ltac:(lia)).
  pose proof (Ha (i + 1) (j + -1) ltac:(lia) ltac:(lia)).
  pose proof (Ha (i + 1) (j + 0) ltac:(lia) ltac:(lia)).
  pose proof (Ha (i + 1) (j + 1) ltac:(lia) ltac:(lia)).
  lia.
Qed.

(** The proposal's program runs to completion for every sequence of
    non-negative values of [rand]: no array is accessed out of bounds and
    nothing overflows.  Each output pixel off the border is the average of
    the nine random bytes around it, a value in 0..255; the border of the
    output stays zero. *)
Theorem proposal_main_runs (rand : Z → Z) :
  (∀ k, 0 ≤ k → 0 ≤ rand k) →
  ∃ out, Proposal.main rand = Some out
    ∧ (∀ i j, 1 ≤ i ≤ 1022 → 1 ≤ j ≤ 1022 →
         out i j = nine (λ r c, rand (r * 1024 + c) `mod` 256) i j ÷ 9
         ∧ 0 ≤ out i j ≤ 255)
    ∧ (∀ i j, ¬ (1 ≤ i ≤ 1022 ∧ 1 ≤ j ≤ 1022) → out i j = 0).
Proof.
  intros Hrand. unfold Proposal.main.
  destruct (initialize_image_spec rand Proposal.zeroed) as (img & -> & Himg & _).
  cbn [mbind option_bind].
  assert (∀ r c, 0 ≤ r < 1024 → 0 ≤ c < 1024 →
            img r c = rand (r * 1024 + c) `mod` 256 ∧ 0 ≤ img r c ≤ 255) as Hbyte.
  { intros r c Hr Hc. rewrite Himg by done.
    rewrite Z.rem_mod_nonneg by (lia || (apply Hrand; lia)).
    pose proof (Z.mod_pos_bound (rand (r * 1024 + c)) 256). lia. }
  destruct (convolution_run img Proposal.zeroed) as (out & Hrun & Hval & Hframe).
  { intros r c Hr Hc. destruct (Hbyte r c Hr Hc) as [_ Hb].
    unfold in_int, INT_MIN, INT_MAX. lia. }
  exists out. split; [exact Hrun|]. clear Hrun. split; [|exact Hframe].
  intros i j Hi Hj. rewrite Hval by assumption.
  assert (9 * 0 ≤ nine img i j ≤ 9 * 255) as Hsum.
  { apply nine_between. intros r c Hr Hc. apply Hbyte; lia. }
  rewrite wrap_id by (unfold in_int, INT_MIN, INT_MAX; lia).
  rewrite <- (nine_ext img (λ r c, rand (r * 1024 + c) `mod` 256)).
  2: { intros r c Hr Hc. apply Hbyte; lia. }
  split; [reflexivity|]. Z.to_euclidean_division_equations. lia.
Qed.

Lemma proposal_main_runs_witness :
  ∃ out, Proposal.main (λ k, 7 * k) = Some out
    ∧ (∀ i j, 1 ≤ i ≤ 1022 → 1 ≤ j ≤ 1022 →
         out i j = nine (λ r c, (7 * (r * 1024 + c)) `mod` 256) i j ÷ 9
         ∧ 0 ≤ out i j ≤ 255)
    ∧ (∀ i j, ¬ (1 ≤ i ≤ 1022 ∧ 1 ≤ j ≤ 1022) → out i j = 0).
Proof.
  apply (proposal_main_runs (λ k, 7 * k)). intros k Hk. lia.
Defined.

(** ** The proposal against the blur that replaced it *)

Lemma valid_neighbors_interior width height x y :
  1 ≤ x → x + 1 < width → 1 ≤ y → y + 1 < height →
  valid_neighbors width height x y 1 = neighbors x y 1.
Proof.
  intros Hx Hx' Hy Hy'. unfold valid_neighbors. rewrite neighbors_1.
  rewrite !filter_cons_True by (unfold inside; cbn [fst snd]; lia).
  by rewrite filter_nil.
Qed.

Lemma dims_1024 : valid_dims 1024 1024 1.
Proof. unfold valid_dims, INT_MAX. lia. Qed.

Lemma proposal_image (m : mem) input (a : Proposal.image) :
  (∀ r c, 0 ≤ r < 1024 → 0 ≤ c < 1024 →
     load m input (r * 1024 + c) = a r c ∧ 0 ≤ a r c ≤ 255) →
  is_image m input (1024 * 1024 * 1).
Proof.
  intros Ha idx Hidx.
  destruct (Ha (idx `div` 1024) (idx `mod` 1024)) as [Heq Hb].
  - Z.to_euclidean_division_equations. lia.
  - Z.to_euclidean_division_equations. lia.
  - replace (idx `div` 1024 * 1024 + idx `mod` 1024) with idx in Heq
      by (Z.to_euclidean_division_equations; lia).
    by rewrite Heq.
Qed.

Lemma window_sum_nine (m : mem) input (a : Proposal.image) i j c :
  (∀ r c, 0 ≤ r < 1024 → 0 ≤ c < 1024 →
     load m input (r * 1024 + c) = a r c ∧ 0 ≤ a r c ≤ 255) →
  1 ≤ i ≤ 1022 → 1 ≤ j ≤ 1022 →
  window_sum (load m input) 1024 1024 1 j i 1 c = nine a i j.
Proof.
  intros Ha Hi Hj. unfold window_sum, nine.
  rewrite valid_neighbors_interior by lia. f_equal.
  apply list_fmap_ext. intros k [x y] Hk.
  assert ((x, y) ∈ neighbors j i 1) as Hin by (by eapply list_elem_of_lookup_2).
  rewrite <- (valid_neighbors_interior 1024 1024) in Hin by lia.
  apply valid_neighbors_inside in Hin. destruct Hin as [Hx Hy].
  cbn [fst snd] in *. unfold sample. cbn [fst snd].
  change (1 =? 1) with true. cbv iota.
  replace ((y * 1024 + x) * 1 + 0) with (y * 1024 + x) by lia.
  by destruct (Ha y x Hy Hx) as [-> _].
Qed.

(** On the 1024x1024 single-channel image the proposal works on, the blur
    with a 3x3 kernel stores, in each of the three channels of every pixel
    off the border, the value [serial_convolution] computes for it.  (On
    the border the proposal writes nothing, the blur averages the
    neighbours that exist.) *)
Theorem proposal_matches_blur (m : mem) input out (a output : Proposal.image) :
  (∀ r c, 0 ≤ r < 1024 → 0 ≤ c < 1024 →
     load m input (r * 1024 + c) = a r c ∧ 0 ≤ a r c ≤ 255) →
  disjoint input (1024 * 1024 * 1) out (1024 * 1024 * 3) →
  ∃ conv m',
    Proposal.serial_convolution a output = Some conv
    ∧ Serial.apply_box_blur_color m input out 1024 1024 1 3 = Some m'
    ∧ ∀ i j c, 1 ≤ i ≤ 1022 → 1 ≤ j ≤ 1022 → 0 ≤ c < 3 →
        m' (cell out 1024 i j c) = conv i j.
Proof.
  intros Ha Hdisj.
  destruct (convolution_run a output) as (conv & Hconv & Hval & _).
  { intros r c Hr Hc. destruct (Ha r c Hr Hc) as [_ Hb].
    unfold in_int, INT_MIN, INT_MAX. lia. }
  destruct (serial_run m input out 1024 1024 1 3 dims_1024) as (m' & Hrun & Hfill).
  { unfold in_int, INT_MIN, INT_MAX. lia. }
  { by vm_compute. }
  { exact Hdisj. }
  exists conv, m'. split; [exact Hconv|]. split; [exact Hrun|].
  clear Hconv Hrun. intros i j c Hi Hj Hc.
  rewrite (filled_values _ _ _ _ _ _ _ _ _ _ _ Hfill) by lia.
  change (3 ÷ 2) with 1.
  pose proof (proposal_image m input a Ha) as Himg.
  pose proof (window_sum_nine m input a i j c Ha Hi Hj) as Hsum.
  assert (9 * 0 ≤ nine a i j ≤ 9 * 255) as Hnine.
  { apply nine_between. intros r c' Hr Hc'. apply Ha; lia. }
  destruct (blur_byte_average m input 1024 1024 1 j i 1 c dims_1024 Himg)
    as [-> _]; [lia..| |].
  { rewrite Hsum. unfold INT_MAX. lia. }
  unfold box_average. rewrite Hsum, Hval by lia.
  rewrite wrap_id by (unfold in_int, INT_MIN, INT_MAX; lia).
  unfold window_count. by rewrite valid_neighbors_interior by lia.
Qed.

Lemma proposal_matches_blur_witness :
  ∃ conv m',
    Proposal.serial_convolution (λ _ _, 7) Proposal.zeroed = Some conv
    ∧ Serial.apply_box_blur_color (λ _, 7) 0 1048576 1024 1024 1 3 = Some m'
    ∧ ∀ i j c, 1 ≤ i ≤ 1022 → 1 ≤ j ≤ 1022 → 0 ≤ c < 3 →
        m' (cell 1048576 1024 i j c) = conv i j.
Proof.
  apply (proposal_matches_blur (λ _, 7) 0 1048576 (λ _ _, 7) Proposal.zeroed).
  - intros r c Hr Hc. unfold load. lia.
  - unfold disjoint. lia.
Defined.

(** ** The test image generators *)

Lemma for_each_ext {S} (l : list Z) (f g : Z → S → S) s :
  (∀ i s, i ∈ l → f i s = g i s) → for_each l f s = for_each l g s.
Proof.
  unfold for_each. revert s. induction l as [|i l IH]; intros s Hfg; [done|].
  cbn [foldl]. rewrite Hfg by left. apply IH. intros. apply Hfg. by right.
Qed.

Lemma for_eachM_pure {S} (l : list Z) (f : Z → S → S) s :
  for_eachM l (λ i s, Some (f i s)) s = Some (for_each l f s).
Proof.
  unfold for_each. revert s. induction l as [|i l IH]; intros s; [done|].
  cbn [for_eachM foldl mbind option_bind]. apply IH.
Qed.

Lemma pixel_index width height i j :
  0 < width → 0 < height → width * height ≤ INT_MAX →
  0 ≤ i < height → 0 ≤ j < width →
  iadd (imul i width) j = i * width + j ∧ 0 ≤ i * width + j < width * height.
Proof.
  intros Hw Hh Hfit Hi Hj.
  assert (0 ≤ i * width ∧ i * width + width ≤ width * height) as Hrow by nia.
  rewrite imul_id, iadd_id; unfold in_int, INT_MIN, INT_MAX in *; lia.
Qed.

(** Two nested loops that store a value [v i j] at index [i * width + j]:
    the shape of every generator. *)
Lemma fill_rows (v : Z → Z → Z) (m : mem) image width height :
  0 < width → 0 < height → width * height ≤ INT_MAX →
  let m' := for_each (range_lt 0 height) (λ i m,
              for_each (range_lt 0 width) (λ j m,
                store m image (iadd (imul i width) j) (v i j)) m) m in
  (∀ i j, 0 ≤ i < height → 0 ≤ j < width →
     m' (image + (i * width + j)) = uchar (v i j))
  ∧ (∀ a, ¬ (image ≤ a < image + width * height) → m' a = m a).
Proof.
  intros Hw Hh Hfit. cbv zeta. unfold range_lt. rewrite !Z.sub_0_r.
  assert (∀ i m0, 0 ≤ i < height →
    let m1 := for_each (seqZ 0 width) (λ j m,
                store m image (iadd (imul i width) j) (v i j)) m0 in
    (∀ c, 0 ≤ c < width → m1 (image + (i * width + c)) = uchar (v i c))
    ∧ (∀ a, ¬ (image + i * width ≤ a < image + i * width + width) →
         m1 a = m0 a)) as Hrow.
  { intros i m0 Hi. cbv zeta.
    pose proof (for_each_seqZ_inv (λ j (m1 : mem),
      (∀ c, 0 ≤ c < j → m1 (image + (i * width + c)) = uchar (v i c))
      ∧ (∀ a, ¬ (image + i * width ≤ a < image + i * width + j) →
           m1 a = m0 a)) 0 width
      (λ j m, store m image (iadd (imul i width) j) (v i j)) m0) as Hinv.
    apply Hinv; clear Hinv.
    - lia.
    - split; [intros; lia|done].
    - intros j m1 Hj [Hval Hframe].
      destruct (pixel_index width height i j) as [-> _]; [lia..|].
      unfold store. split.
      + intros c Hc. case_bool_decide as Heq.
        * by replace c with j by lia.
        * apply Hval. lia.
      + intros a Ha. case_bool_decide as Heq; [lia|]. apply Hframe. lia. }
  pose proof (for_each_seqZ_inv (λ i (m1 : mem),
      (∀ r c, 0 ≤ r < i → 0 ≤ c < width →
         m1 (image + (r * width + c)) = uchar (v r c))
      ∧ (∀ a, ¬ (image ≤ a < image + i * width) → m1 a = m a)) 0 height
      (λ i m, for_each (seqZ 0 width) (λ j m,
                store m image (iadd (imul i width) j) (v i j)) m) m) as Hinv.
  cbv beta in Hinv. rewrite Z.add_0_l in Hinv.
  destruct Hinv as [Hval Hframe].
  - lia.
  - split; [intros; lia|done].
  - intros i m1 Hi [Hval Hframe].
    destruct (Hrow i m1 ltac:(lia)) as [Hval' Hframe']. split.
    + intros r c Hr Hc. destruct (decide (r = i)) as [->|Hne].
      * by apply Hval'.
      * rewrite Hframe' by nia. apply Hval; lia.
    + intros a Ha. rewrite Hframe' by nia. apply Hframe. nia.
  - split; [intros; apply Hval; lia|].
    intros a Ha. apply Hframe. lia.
Qed.

Lemma row_plus_column width height i j :
  0 < width → 0 < height → width * height ≤ INT_MAX →
  0 ≤ i < height → 0 ≤ j < width → 0 ≤ i + j < INT_MAX.
Proof. unfold INT_MAX. intros. nia. Qed.

(** [generate_gradient] writes the [width * height] bytes of the image and
    nothing else; the sample in row [i], column [j] is [(i + j) mod 256],
    so the image is constant along its anti-diagonals. *)
Theorem gradient_image (m : mem) image width height :
  0 < width → 0 < height → width * height ≤ INT_MAX →
  let m' := Generate.generate_gradient m image width height in
  (∀ i j, 0 ≤ i < height → 0 ≤ j < width →
     m' (image + (i * width + j)) = (i + j) `mod` 256)
  ∧ (∀ i j, 0 ≤ i → i + 1 < height → 1 ≤ j < width →
       m' (image + ((i + 1) * width + (j - 1))) = m' (image + (i * width + j)))
  ∧ (∀ a, ¬ (image ≤ a < image + width * height) → m' a = m a).
Proof.
  intros Hw Hh Hfit. cbv zeta.
  destruct (fill_rows (λ i j, Z.rem (iadd i j) 256) m image width height
              Hw Hh Hfit) as [Hval Hframe].
  fold (Generate.generate_gradient m image width height) in Hval, Hframe.
  assert (∀ i j, 0 ≤ i < height → 0 ≤ j < width →
     Generate.generate_gradient m image width height (image + (i * width + j))
     = (i + j) `mod` 256) as Hpix.
  { intros i j Hi Hj. rewrite Hval by done.
    pose proof (row_plus_column width height i j Hw Hh Hfit Hi Hj) as Hij.
    rewrite iadd_id by (unfold in_int, INT_MIN, INT_MAX in *; lia).
    rewrite Z.rem_mod_nonneg by lia. unfold uchar. by rewrite Z.mod_mod. }
  split; [exact Hpix|]. split; [|exact Hframe].
  intros i j Hi Hi' Hj. rewrite !Hpix by lia. f_equal. lia.
Qed.

Lemma gradient_image_witness :
  let m' := Generate.generate_gradient (λ _, 0) 0 256 256 in
  (∀ i j, 0 ≤ i < 256 → 0 ≤ j < 256 →
     m' (0 + (i * 256 + j)) = (i + j) `mod` 256)
  ∧ (∀ i j, 0 ≤ i → i + 1 < 256 → 1 ≤ j < 256 →
       m' (0 + ((i + 1) * 256 + (j - 1))) = m' (0 + (i * 256 + j)))
  ∧ (∀ a, ¬ (0 ≤ a < 0 + 256 * 256) → m' a = 0).
Proof.
  apply (gradient_image (λ _, 0) 0 256 256).
  - lia.
  - lia.
  - unfold INT_MAX. lia.
Defined.

Lemma for_eachM_trap {S} (l : list Z) (body : Z → S → option S) s :
  l ≠ [] → (∀ i s, body i s = None) → for_eachM l body s = None.
Proof.
  intros Hl Hbody. destruct l as [|i l]; [done|].
  cbn [for_eachM]. by rewrite Hbody.
Qed.

Lemma range_lt_nonempty hi : 0 < hi → range_lt 0 hi ≠ [].
Proof. intros Hhi. unfold range_lt. by rewrite seqZ_cons by lia. Qed.

Lemma rem_2_even z : (Z.rem z 2 =? 0) = Z.even z.
Proof.
  destruct (Z.even z) eqn:He.
  - apply Z.even_spec in He. destruct He as [k ->].
    rewrite Z.mul_comm, Z.rem_mul by lia. done.
  - rewrite <- Z.negb_odd in He. apply negb_false_iff, Z.odd_spec in He.
    destruct He as [k ->]. apply Z.eqb_neq.
    Z.to_euclidean_division_equations. lia.
Qed.

Lemma quot_small i s : 0 ≤ i → s ≠ 0 → - i ≤ i ÷ s ≤ i.
Proof. intros Hi Hs. Z.to_euclidean_division_equations. nia. Qed.

(** [generate_checkerboard] divides by the square size: a size of 0 traps
    on the first pixel.  For any other size it writes the [width * height]
    bytes of the image and nothing else; a sample is 255 where the sum of
    the two square indices is even and 0 where it is odd, so for a positive
    size the sample one square further down is the opposite one. *)
Theorem checkerboard_image (m : mem) image width height square_size :
  0 < width → 0 < height → width * height ≤ INT_MAX →
  (square_size = 0 →
   Generate.generate_checkerboard m image width height square_size = None)
  ∧ (square_size ≠ 0 →
     ∃ m', Generate.generate_checkerboard m image width height square_size
           = Some m'
       ∧ (∀ i j, 0 ≤ i < height → 0 ≤ j < width →
            m' (image + (i * width + j))
            = if Z.even (i ÷ square_size + j ÷ square_size) then 255 else 0)
       ∧ (0 < square_size →
          ∀ i j, 0 ≤ i → i + square_size < height → 0 ≤ j < width →
            m' (image + ((i + square_size) * width + j))
            = 255 - m' (image + (i * width + j)))
       ∧ (∀ a, ¬ (image ≤ a < image + width * height) → m' a = m a)).
Proof.
  intros Hw Hh Hfit. split.
  - intros ->. unfold Generate.generate_checkerboard.
    apply for_eachM_trap; [by apply range_lt_nonempty|]. intros i s.
    apply for_eachM_trap; [by apply range_lt_nonempty|]. done.
  - intros Hs.
    destruct (fill_rows
      (λ i j, if Z.even (i ÷ square_size + j ÷ square_size) then 255 else 0)
      m image width height Hw Hh Hfit) as [Hval Hframe].
    exists (for_each (range_lt 0 height) (λ i m,
        for_each (range_lt 0 width) (λ j m,
          store m image (iadd (imul i width) j)
            (if Z.even (i ÷ square_size + j ÷ square_size) then 255 else 0)) m) m).
    split.
    { unfold Generate.generate_checkerboard.
      rewrite <- for_eachM_pure. apply for_eachM_ext. intros i s Hi.
      rewrite <- for_eachM_pure. apply for_eachM_ext. intros j s' Hj.
      apply elem_of_seqZ in Hi, Hj.
      destruct (Z.eqb_spec square_size 0) as [|_]; [done|].
      assert (0 ≤ i < height ∧ 0 ≤ j < width) as [Hi2 Hj2] by lia.
      pose proof (row_plus_column width height i j Hw Hh Hfit Hi2 Hj2) as Hij.
      pose proof (quot_small i square_size ltac:(lia) Hs).
      pose proof (quot_small j square_size ltac:(lia) Hs).
      rewrite !idiv_id by (unfold in_int, INT_MIN, INT_MAX in *; lia).
      rewrite rem_2_even.
      rewrite iadd_id by (unfold in_int, INT_MIN, INT_MAX in *; lia).
      by destruct (Z.even _). }
    assert (∀ i j, 0 ≤ i < height → 0 ≤ j < width →
      for_each (range_lt 0 height) (λ i m,
        for_each (range_lt 0 width) (λ j m,
          store m image (iadd (imul i width) j)
            (if Z.even (i ÷ square_size + j ÷ square_size) then 255 else 0)) m) m
        (image + (i * width + j))
      = if Z.even (i ÷ square_size + j ÷ square_size) then 255 else 0) as Hpix.
    { intros i j Hi Hj. rewrite Hval by done. by destruct (Z.even _). }
    split; [exact Hpix|]. split; [|exact Hframe].
    intros Hpos i j Hi Hi' Hj. rewrite !Hpix by lia.
    replace ((i + square_size) ÷ square_size) with (i ÷ square_size + 1).
    2: { rewrite !Z.quot_div_nonneg by lia.
         replace (i + square_size) with (i + 1 * square_size) by lia.
         by rewrite Z.div_add by lia. }
    replace (i ÷ square_size + 1 + j ÷ square_size)
      with (Z.succ (i ÷ square_size + j ÷ square_size)) by lia.
    rewrite Z.even_succ, <- Z.negb_even. by destruct (Z.even _).
Qed.

Lemma checkerboard_image_witness :
  (32 = 0 → Generate.generate_checkerboard (λ _, 0) 0 256 256 32 = None)
  ∧ (32 ≠ 0 →
     ∃ m', Generate.generate_checkerboard (λ _, 0) 0 256 256 32 = Some m'
       ∧ (∀ i j, 0 ≤ i < 256 → 0 ≤ j < 256 →
            m' (0 + (i * 256 + j))
            = if Z.even (i ÷ 32 + j ÷ 32) then 255 else 0)
       ∧ (0 < 32 →
          ∀ i j, 0 ≤ i → i + 32 < 256 → 0 ≤ j < 256 →
            m' (0 + ((i + 32) * 256 + j)) = 255 - m' (0 + (i * 256 + j)))
       ∧ (∀ a, ¬ (0 ≤ a < 0 + 256 * 256) → m' a = 0)).
Proof.
  apply (checkerboard_image (λ _, 0) 0 256 256 32).
  - lia.
  - lia.
  - unfold INT_MAX. lia.
Defined.

Lemma square_bound a b : - b ≤ a ≤ b → 0 ≤ a * a ≤ b * b.
Proof. intros Ha. nia. Qed.

Lemma circle_test width height i j :
  0 < width → 0 < height → width * width + height * height ≤ INT_MAX →
  0 ≤ i < height → 0 ≤ j < width →
  (iadd (imul (isub j (idiv width 2)) (isub j (idiv width 2)))
        (imul (isub i (idiv height 2)) (isub i (idiv height 2)))
   <? imul (idiv (if width <? height then width else height) 3)
           (idiv (if width <? height then width else height) 3))
  = bool_decide ((j - width ÷ 2) * (j - width ÷ 2)
                 + (i - height ÷ 2) * (i - height ÷ 2)
                 < (Z.min width height ÷ 3) * (Z.min width height ÷ 3)).
Proof.
  intros Hw Hh Hfit Hi Hj.
  assert (0 ≤ width * width ∧ 0 ≤ height * height) as [Hww Hhh] by nia.
  assert (width ≤ width * width ∧ height ≤ height * height) as [Hw1 Hh1] by nia.
  replace (if width <? height then width else height) with (Z.min width height).
  2: { destruct (Z.ltb_spec width height); lia. }
  assert (0 ≤ width ÷ 2 ≤ width) as Hcx
    by (Z.to_euclidean_division_equations; lia).
  assert (0 ≤ height ÷ 2 ≤ height) as Hcy
    by (Z.to_euclidean_division_equations; lia).
  assert (0 ≤ Z.min width height ÷ 3 ≤ width) as Hr
    by (Z.to_euclidean_division_equations; lia).
  pose proof (square_bound (j - width ÷ 2) width ltac:(lia)) as Hdx.
  pose proof (square_bound (i - height ÷ 2) height ltac:(lia)) as Hdy.
  pose proof (square_bound (Z.min width height ÷ 3) width ltac:(lia)) as Hrr.
  unfold INT_MAX in Hfit.
  rewrite !idiv_id by (unfold in_int, INT_MIN, INT_MAX; lia).
  rewrite !isub_id by (unfold in_int, INT_MIN, INT_MAX; lia).
  rewrite !imul_id by (unfold in_int, INT_MIN, INT_MAX; lia).
  rewrite iadd_id by (unfold in_int, INT_MIN, INT_MAX; lia).
  destruct (Z.ltb_spec
    ((j - width ÷ 2) * (j - width ÷ 2) + (i - height ÷ 2) * (i - height ÷ 2))
    (Z.min width height ÷ 3 * (Z.min width height ÷ 3))).
  - by rewrite bool_decide_eq_true_2.
  - rewrite bool_decide_eq_false_2; [done|lia].
Qed.

(** [generate_circle] writes the [width * height] bytes of the image and
    nothing else: 255 strictly inside the circle of radius
    [min(width, height) / 3] around [(width / 2, height / 2)], 50
    elsewhere.  The top-left corner is always 50; an image narrower or
    lower than 3 pixels has radius 0 and holds no circle at all, a larger
    one has a white centre. *)
Theorem circle_image (m : mem) image width height :
  0 < width → 0 < height → width * width + height * height ≤ INT_MAX →
  let m' := Generate.generate_circle m image width height in
  (∀ i j, 0 ≤ i < height → 0 ≤ j < width →
     m' (image + (i * width + j))
     = if bool_decide ((j - width ÷ 2) * (j - width ÷ 2)
                       + (i - height ÷ 2) * (i - height ÷ 2)
                       < (Z.min width height ÷ 3) * (Z.min width height ÷ 3))
       then 255 else 50)
  ∧ m' (image + (0 * width + 0)) = 50
  ∧ (Z.min width height < 3 →
     ∀ i j, 0 ≤ i < height → 0 ≤ j < width → m' (image + (i * width + j)) = 50)
  ∧ (3 ≤ Z.min width height →
     m' (image + (height ÷ 2 * width + width ÷ 2)) = 255)
  ∧ (∀ a, ¬ (image ≤ a < image + width * height) → m' a = m a).
Proof.
  intros Hw Hh Hfit. cbv zeta.
  assert (width * height ≤ INT_MAX) as Hfit' by (unfold INT_MAX in *; nia).
  destruct (fill_rows (λ i j,
      if iadd (imul (isub j (idiv width 2)) (isub j (idiv width 2)))
              (imul (isub i (idiv height 2)) (isub i (idiv height 2)))
         <? imul (idiv (if width <? height then width else height) 3)
                 (idiv (if width <? height then width else height) 3)
      then 255 else 50) m image width height Hw Hh Hfit') as [Hval Hframe].
  assert (Generate.generate_circle m image width height
    = for_each (range_lt 0 height) (λ i m,
        for_each (range_lt 0 width) (λ j m,
          store m image (iadd (imul i width) j)
            (if iadd (imul (isub j (idiv width 2)) (isub j (idiv width 2)))
                     (imul (isub i (idiv height 2)) (isub i (idiv height 2)))
                <? imul (idiv (if width <? height then width else height) 3)
                        (idiv (if width <? height then width else height) 3)
             then 255 else 50)) m) m) as Hshape.
  { unfold Generate.generate_circle. cbv zeta.
    apply for_each_ext. intros i s _. apply for_each_ext. intros j s' _.
    match goal with |- (if ?b then _ else _) = _ => by destruct b end. }
  rewrite Hshape.
  assert (∀ i j, 0 ≤ i < height → 0 ≤ j < width →
    for_each (range_lt 0 height) (λ i m,
        for_each (range_lt 0 width) (λ j m,
          store m image (iadd (imul i width) j)
            (if iadd (imul (isub j (idiv width 2)) (isub j (idiv width 2)))
                     (imul (isub i (idiv height 2)) (isub i (idiv height 2)))
                <? imul (idiv (if width <? height then width else height) 3)
                        (idiv (if width <? height then width else height) 3)
             then 255 else 50)) m) m (image + (i * width + j))
    = if bool_decide ((j - width ÷ 2) * (j - width ÷ 2)
                       + (i - height ÷ 2) * (i - height ÷ 2)
                       < (Z.min width height ÷ 3) * (Z.min width height ÷ 3))
       then 255 else 50) as Hpix.
  { intros i j Hi Hj. rewrite Hval by done.
    rewrite circle_test by done. by destruct (bool_decide _). }
  assert (0 ≤ width ÷ 2 < width ∧ 0 ≤ height ÷ 2 < height) as [Hcx Hcy]
    by (Z.to_euclidean_division_equations; lia).
  split; [exact Hpix|]. split; [|split; [|split; [|exact Hframe]]].
  - rewrite Hpix by lia. rewrite bool_decide_eq_false_2; [done|].
    assert (0 ≤ Z.min width height ÷ 3 ≤ width ÷ 2) as Hr
      by (Z.to_euclidean_division_equations; lia).
    pose proof (square_bound (Z.min width height ÷ 3) (width ÷ 2) ltac:(lia)).
    pose proof (square_bound 0 (height ÷ 2) ltac:(lia)). lia.
  - intros Hsmall i j Hi Hj. rewrite Hpix by done.
    assert (Z.min width height ÷ 3 = 0) as ->
      by (Z.to_euclidean_division_equations; lia).
    rewrite bool_decide_eq_false_2; [done|].
    pose proof (square_bound 0 (j - width ÷ 2)).
    pose proof (square_bound 0 (i - height ÷ 2)). nia.
  - intros Hbig. rewrite Hpix by lia. rewrite bool_decide_eq_true_2; [done|].
    assert (1 ≤ Z.min width height ÷ 3) as Hr
      by (Z.to_euclidean_division_equations; lia).
    rewrite !Z.sub_diag. nia.
Qed.

Lemma circle_image_witness :
  let m' := Generate.generate_circle (λ _, 0) 0 256 256 in
  (∀ i j, 0 ≤ i < 256 → 0 ≤ j < 256 →
     m' (0 + (i * 256 + j))
     = if bool_decide ((j - 256 ÷ 2) * (j - 256 ÷ 2)
                       + (i - 256 ÷ 2) * (i - 256 ÷ 2)
                       < (Z.min 256 256 ÷ 3) * (Z.min 256 256 ÷ 3))
       then 255 else 50)
  ∧ m' (0 + (0 * 256 + 0)) = 50
  ∧ (Z.min 256 256 < 3 →
     ∀ i j, 0 ≤ i < 256 → 0 ≤ j < 256 → m' (0 + (i * 256 + j)) = 50)
  ∧ (3 ≤ Z.min 256 256 → m' (0 + (256 ÷ 2 * 256 + 256 ÷ 2)) = 255)
  ∧ (∀ a, ¬ (0 ≤ a < 0 + 256 * 256) → m' a = 0).
Proof.
  apply (circle_image (λ _, 0) 0 256 256).
  - lia.
  - lia.
  - unfold INT_MAX. lia.
Defined.

Lemma uchar_rem x : uchar (Z.rem x 256) = x `mod` 256.
Proof. unfold uchar. Z.to_euclidean_division_equations. lia. Qed.

Lemma noise_row (rand : Z → Z) (m0 : mem) n image width height i :
  0 < width → 0 < height → width * height ≤ INT_MAX → 0 ≤ i < height →
  let st := for_each (seqZ 0 width) (λ j '(m, calls),
              (store m image (iadd (imul i width) j) (Z.rem (rand calls) 256),
               calls + 1)) (m0, n) in
  st.2 = n + width
  ∧ (∀ c, 0 ≤ c < width →
       st.1 (image + (i * width + c)) = rand (n + c) `mod` 256)
  ∧ (∀ a, ¬ (image + i * width ≤ a < image + i * width + width) →
       st.1 a = m0 a).
Proof.
  intros Hw Hh Hfit Hi. cbv zeta.
  pose proof (for_each_seqZ_inv (λ j (st : mem * Z),
      st.2 = n + j
      ∧ (∀ c, 0 ≤ c < j →
           st.1 (image + (i * width + c)) = rand (n + c) `mod` 256)
      ∧ (∀ a, ¬ (image + i * width ≤ a < image + i * width + j) →
           st.1 a = m0 a)) 0 width
    (λ j '(m, calls),
       (store m image (iadd (imul i width) j) (Z.rem (rand calls) 256),
        calls + 1)) (m0, n)) as Hinv.
  apply Hinv; clear Hinv.
  - lia.
  - cbn [fst snd]. split; [lia|]. split; [intros; lia|done].
  - intros j [m1 calls] Hj (Hcalls & Hval & Hframe). cbn [fst snd] in *.
    destruct (pixel_index width height i j) as [-> _]; [lia..|].
    unfold store. split; [lia|]. split.
    + intros c Hc. case_bool_decide as Heq.
      * replace c with j by lia. by rewrite uchar_rem, Hcalls.
      * apply Hval. lia.
    + intros a Ha. case_bool_decide as Heq; [lia|]. apply Hframe. lia.
Qed.

(** [generate_noise] writes the [width * height] bytes of the image and
    nothing else, and consumes one value of [rand] per pixel in row-major
    order: the sample in row [i], column [j] is the low byte of call
    number [i * width + j]. *)
Theorem noise_image (rand : Z → Z) (m : mem) image width height :
  0 < width → 0 < height → width * height ≤ INT_MAX →
  let m' := Generate.generate_noise rand m image width height in
  (∀ i j, 0 ≤ i < height → 0 ≤ j < width →
     m' (image + (i * width + j)) = rand (i * width + j) `mod` 256)
  ∧ (∀ a, ¬ (image ≤ a < image + width * height) → m' a = m a).
Proof.
  intros Hw Hh Hfit. cbv zeta. unfold Generate.generate_noise, range_lt.
  rewrite !Z.sub_0_r.
  pose proof (for_each_seqZ_inv (λ i (st : mem * Z),
      st.2 = i * width
      ∧ (∀ r c, 0 ≤ r < i → 0 ≤ c < width →
           st.1 (image + (r * width + c)) = rand (r * width + c) `mod` 256)
      ∧ (∀ a, ¬ (image ≤ a < image + i * width) → st.1 a = m a)) 0 height
    (λ i st, for_each (seqZ 0 width) (λ j '(m, calls),
       (store m image (iadd (imul i width) j) (Z.rem (rand calls) 256),
        calls + 1)) st) (m, 0)) as Hinv.
  cbv beta in Hinv. rewrite Z.add_0_l in Hinv.
  destruct Hinv as (_ & Hval & Hframe).
  - lia.
  - cbn [fst snd]. split; [lia|]. split; [intros; lia|done].
  - intros i [m1 calls] Hi (Hcalls & Hval & Hframe). cbn [fst snd] in *.
    destruct (noise_row rand m1 calls image width height i Hw Hh Hfit
                ltac:(lia)) as (Hcalls' & Hval' & Hframe').
    split; [lia|]. split.
    + intros r c Hr Hc. destruct (decide (r = i)) as [->|Hne].
      * rewrite Hval' by done. by rewrite Hcalls.
      * rewrite Hframe' by nia. apply Hval; lia.
    + intros a Ha. rewrite Hframe' by nia. apply Hframe. nia.
  - split; [intros; apply Hval; lia|].
    intros a Ha. apply Hframe. lia.
Qed.

Lemma noise_image_witness :
  let m' := Generate.generate_noise (λ k, 7 * k) (λ _, 0) 0 256 256 in
  (∀ i j, 0 ≤ i < 256 → 0 ≤ j < 256 →
     m' (0 + (i * 256 + j)) = (7 * (i * 256 + j)) `mod` 256)
  ∧ (∀ a, ¬ (0 ≤ a < 0 + 256 * 256) → m' a = 0).
Proof.
  apply (noise_image (λ k, 7 * k) (λ _, 0) 0 256 256).
  - lia.
  - lia.
  - unfold INT_MAX. lia.
Defined.

(** ** BMP files: integers and rows *)

Lemma le_bytes_2 v :
  BMP.le_bytes 2 v = [(v ≫ 0) `mod` 256; (v ≫ 8) `mod` 256].
Proof. reflexivity. Qed.

Lemma le_bytes_4 v :
  BMP.le_bytes 4 v
  = [(v ≫ 0) `mod` 256; (v ≫ 8) `mod` 256; (v ≫ 16) `mod` 256;
     (v ≫ 24) `mod` 256].
Proof. reflexivity. Qed.

Lemma le_value_bytes_4 v :
  BMP.le_value (BMP.le_bytes 4 v) = v `mod` 4294967296.
Proof.
  rewrite le_bytes_4. cbn [BMP.le_value foldr].
  rewrite !Z.shiftr_div_pow2 by lia.
  change (2 ^ 0) with 1. change (2 ^ 8) with 256.
  change (2 ^ 16) with 65536. change (2 ^ 24) with 16777216.
  Z.to_euclidean_division_equations. lia.
Qed.

(** An [int32_t] field written and read back. *)
Lemma signed_bytes_4 v : in_int v → wrap (BMP.le_value (BMP.le_bytes 4 v)) = v.
Proof.
  unfold in_int, INT_MIN, INT_MAX. intros Hv.
  rewrite le_value_bytes_4. unfold wrap.
  Z.to_euclidean_division_equations. lia.
Qed.

(** Rounding up to a multiple of four. *)
Lemma row_size_of_spec width :
  0 ≤ width ≤ INT_MAX - 3 →
  BMP.row_size_of width = 4 * ((width + 3) `div` 4)
  ∧ width ≤ BMP.row_size_of width ≤ width + 3.
Proof.
  unfold INT_MAX. intros Hw. unfold BMP.row_size_of.
  rewrite iadd_id by (unfold in_int, INT_MIN, INT_MAX; lia).
  replace (Z.land (width + 3) (Z.lnot 3)) with (Z.ldiff (width + 3) (Z.ones 2))
    by (by rewrite Z.ldiff_land).
  rewrite Z.ldiff_ones_r by lia.
  rewrite Z.shiftl_mul_pow2, Z.shiftr_div_pow2 by lia.
  change (2 ^ 2) with 4. split; [lia|].
  Z.to_euclidean_division_equations. lia.
Qed.

Lemma rows_down_eq height :
  0 ≤ height ≤ INT_MAX → BMP.rows_down height = reverse (seqZ 0 height).
Proof.
  unfold INT_MAX. intros Hh. unfold BMP.rows_down, range_le.
  rewrite isub_id by (unfold in_int, INT_MIN, INT_MAX; lia).
  do 2 f_equal. lia.
Qed.

Lemma rows_down_succ n :
  0 ≤ n → reverse (seqZ 0 (n + 1)) = n :: reverse (seqZ 0 n).
Proof.
  intros Hn. rewrite seqZ_app by lia. rewrite reverse_app.
  rewrite Z.add_0_l. by rewrite (seqZ_cons n 1), seqZ_nil by lia.
Qed.

Lemma length_fread file pos n :
  0 ≤ pos → 0 ≤ n →
  (Z.of_nat (length (BMP.fread file pos n)) = n
   ↔ n = 0 ∨ pos + n ≤ Z.of_nat (length file))
  ∧ Z.of_nat (length (BMP.fread file pos n)) ≤ n.
Proof.
  intros Hpos Hn. unfold BMP.fread. rewrite length_take, length_drop. lia.
Qed.

Lemma lookup_fread file pos n j :
  0 ≤ pos → 0 ≤ j < n →
  BMP.fread file pos n !! Z.to_nat j = file !! Z.to_nat (pos + j).
Proof.
  intros Hpos Hj. unfold BMP.fread.
  rewrite lookup_take_lt by lia. rewrite lookup_drop. f_equal. lia.
Qed.

Lemma write_buf_inside (m : mem) p l j :
  0 ≤ j < Z.of_nat (length l) →
  l !! Z.to_nat j = Some (BMP.write_buf m p l (p + j)).
Proof.
  intros Hj. unfold BMP.write_buf. rewrite bool_decide_eq_true_2 by lia.
  replace (p + j - p) with j by lia.
  destruct (l !! Z.to_nat j) as [b|] eqn:Hb; [done|].
  apply lookup_ge_None in Hb. lia.
Qed.

Lemma write_buf_outside (m : mem) p l a :
  ¬ (p ≤ a < p + Z.of_nat (length l)) → BMP.write_buf m p l a = m a.
Proof. intros Ha. unfold BMP.write_buf. by rewrite bool_decide_eq_false_2. Qed.

(** The row loop of [read_image] on any file: it writes inside the
    [n * width] bytes at [image] only, and when it reports success every
    row came from its place in the file, last row first. *)
Lemma read_rows_spec file image width row_size (n : nat) p (m : mem) :
  0 ≤ width → width ≤ row_size ≤ INT_MAX →
  Z.of_nat n * width ≤ INT_MAX → 0 ≤ p →
  ∃ ok m',
    BMP.read_rows file image width row_size (reverse (seqZ 0 (Z.of_nat n))) p m
    = Some (ok, m')
    ∧ (ok = true ↔
       n = 0%nat ∨ width = 0
       ∨ p + (Z.of_nat n - 1) * row_size + width ≤ Z.of_nat (length file))
    ∧ (∀ a, ¬ (image ≤ a < image + Z.of_nat n * width) → m' a = m a)
    ∧ (ok = true → ∀ i j, 0 ≤ i < Z.of_nat n → 0 ≤ j < width →
         file !! Z.to_nat (p + (Z.of_nat n - 1 - i) * row_size + j)
         = Some (m' (image + (i * width + j)))).
Proof.
  intros Hw Hrs. revert p m.
  induction n as [|n IH]; intros p m Hfit Hp.
  - exists true, m. split; [done|]. split; [by split; [left|]|].
    split; [done|]. intros _ i j Hi. lia.
  - rewrite Nat2Z.inj_succ, <- Z.add_1_r in *.
    rewrite rows_down_succ by lia. cbn [BMP.read_rows].
    destruct (Z.ltb_spec width 0) as [|_]; [lia|]. cbv zeta.
    assert (0 ≤ Z.of_nat n * width ∧ 0 ≤ Z.of_nat n * row_size) as [Hnw Hnr]
      by nia.
    rewrite imul_id by (unfold in_int, INT_MIN, INT_MAX in *; lia).
    rewrite isub_id by (unfold in_int, INT_MIN, INT_MAX in *; lia).
    destruct (length_fread file p width Hp Hw) as [Hlen Hle].
    case_bool_decide as Hgot.
    + exists false, (BMP.write_buf m (image + Z.of_nat n * width)
                       (BMP.fread file p width)).
      split; [done|]. split; [|split; [|done]].
      * split; [done|]. intros Hok. exfalso. apply Hgot, Hlen. lia.
      * intros a Ha. apply write_buf_outside. lia.
    + destruct (IH (p + width + (row_size - width))
                  (BMP.write_buf m (image + Z.of_nat n * width)
                     (BMP.fread file p width)) ltac:(lia) ltac:(lia))
        as (ok & m' & Hrun & Hok & Hframe & Hdata).
      exists ok, m'. split; [exact Hrun|]. clear Hrun.
      split; [|split].
      * rewrite Hok. apply Hlen in Hgot. lia.
      * intros a Ha. rewrite Hframe by lia. apply write_buf_outside. lia.
      * intros Htrue i j Hi Hj. destruct (decide (i = Z.of_nat n)) as [->|Hne].
        -- rewrite Hframe by lia.
           replace (p + (Z.of_nat n + 1 - 1 - Z.of_nat n) * row_size + j)
             with (p + j) by lia.
           rewrite <- (lookup_fread file p width) by lia.
           replace (image + (Z.of_nat n * width + j))
             with (image + Z.of_nat n * width + j) by lia.
           apply write_buf_inside. lia.
        -- rewrite <- (Hdata Htrue i j) by lia. do 2 f_equal. lia.
Qed.

(** ** Reading a BMP file *)

Lemma fread_short file pos n :
  0 ≤ pos → 0 ≤ n →
  (Z.of_nat (length (BMP.fread file pos n)) <? n) = true
  ↔ ¬ (n = 0 ∨ pos + n ≤ Z.of_nat (length file)).
Proof.
  intros Hpos Hn. destruct (length_fread file pos n Hpos Hn) as [Hlen Hle].
  rewrite Z.ltb_lt. lia.
Qed.

Lemma read_image_correct file (malloc : Z → Z) (m : mem) w0 h0 width height :
  BMP.info_width (BMP.info_of file 14) = width →
  BMP.info_height (BMP.info_of file 14) = height →
  0 ≤ width ≤ INT_MAX - 3 → 0 ≤ height → width * height ≤ INT_MAX →
  ∃ r, BMP.read_image (Some file) malloc m w0 h0 = Some r
    ∧ (∀ a, ¬ (malloc (width * height) ≤ a
                < malloc (width * height) + width * height) →
         BMP.memory r a = m a)
    ∧ (BMP.returned r ≠ BMP.NULL ↔
       54 ≤ Z.of_nat (length file)
       ∧ BMP.unsigned_at file 0 2 = 19778
       ∧ BMP.unsigned_at file 28 2 = 8
       ∧ malloc (width * height) ≠ BMP.NULL
       ∧ (height = 0 ∨ width = 0
          ∨ 1078 + (height - 1) * BMP.row_size_of width + width
            ≤ Z.of_nat (length file)))
    ∧ (BMP.returned r ≠ BMP.NULL →
       BMP.returned r = malloc (width * height)
       ∧ BMP.width_out r = width ∧ BMP.height_out r = height
       ∧ ∀ i j, 0 ≤ i < height → 0 ≤ j < width →
           file !! Z.to_nat (1078 + (height - 1 - i) * BMP.row_size_of width + j)
           = Some (BMP.memory r (BMP.returned r + (i * width + j)))).
Proof.
  intros Hwidth Hheight Hw Hh Hfit. unfold BMP.read_image.
  destruct (Z.ltb_spec (Z.of_nat (length (BMP.fread file 0 14))) 14) as [H14|H14].
  { apply Z.ltb_lt, fread_short in H14; [|lia..].
    eexists. split; [reflexivity|]. cbn. split; [done|]. split; [|done].
    split; [done|]. intros (? & _). lia. }
  assert (14 ≤ Z.of_nat (length file)) as Hlen14.
  { destruct (length_fread file 0 14) as [Hiff Hle]; [lia..|]. lia. }
  cbv zeta. change (BMP.header_type (BMP.header_of file 0))
    with (BMP.unsigned_at file 0 2).
  case_bool_decide as Hmagic.
  { eexists. split; [reflexivity|]. cbn. split; [done|]. split; [|done].
    split; [done|]. intros (_ & ? & _). done. }
  destruct (Z.ltb_spec (Z.of_nat (length (BMP.fread file 14 40))) 40) as [H40|H40].
  { apply Z.ltb_lt, fread_short in H40; [|lia..].
    eexists. split; [reflexivity|]. cbn. split; [done|]. split; [|done].
    split; [done|]. intros (? & _). lia. }
  assert (54 ≤ Z.of_nat (length file)) as Hlen54.
  { destruct (length_fread file 14 40) as [Hiff Hle]; [lia..|]. lia. }
  rewrite Hwidth, Hheight.
  change (BMP.info_bits_per_pixel (BMP.info_of file 14))
    with (BMP.unsigned_at file 28 2).
  case_bool_decide as Hbpp.
  { eexists. split; [reflexivity|]. cbn. split; [done|]. split; [|done].
    split; [done|]. intros (_ & _ & ? & _). done. }
  assert (0 ≤ width * height) as Hprod by nia.
  rewrite imul_id by (unfold in_int, INT_MIN, INT_MAX in *; lia).
  case_bool_decide as Hmalloc.
  { eexists. split; [reflexivity|]. cbn. split; [done|]. split; [|done].
    split; [done|]. intros (_ & _ & _ & ? & _). done. }
  destruct (row_size_of_spec width Hw) as [_ Hrs].
  assert (in_int height) as Hint by (rewrite <- Hheight; apply wrap_range).
  rewrite rows_down_eq by (unfold in_int in Hint; lia).
  destruct (read_rows_spec file (malloc (width * height)) width
              (BMP.row_size_of width) (Z.to_nat height) (54 + 256 * 4) m)
    as (ok & m' & Hrun & Hok & Hframe & Hdata);
    [lia|unfold INT_MAX in *; lia|rewrite Z2Nat.id by lia; lia|lia|].
  rewrite Z2Nat.id in * by lia. rewrite Hrun. clear Hrun.
  eexists. split; [reflexivity|]. cbn [BMP.memory BMP.returned BMP.width_out
                                        BMP.height_out].
  split; [intros a Ha; apply Hframe; lia|].
  assert ((if ok then malloc (width * height) else BMP.NULL) ≠ BMP.NULL
          ↔ ok = true) as Hret.
  { destruct ok; [done|]. split; [done|]. discriminate. }
  split.
  - rewrite Hret, Hok. change (54 + 256 * 4) with 1078.
    split.
    + intros Hcase. do 4 (split; [done|]). lia.
    + intros (_ & _ & _ & _ & Hcase). lia.
  - intros Hnot. apply Hret in Hnot. subst ok.
    split; [done|]. split; [done|]. split; [done|].
    intros i j Hi Hj. by apply Hdata.
Qed.

(** [read_image] on any file whose info header declares a width in
    [0, INT_MAX - 3] and a height at least 0 with [width * height] an
    [int]: the call returns, it changes no byte outside the block it
    allocated, and it returns that block exactly when the file has both
    headers, the magic number, 8 bits per pixel and all the rows, and
    [malloc] succeeded.  The byte of row [i], column [j] of the image then
    is the file's byte at [1078 + (height - 1 - i) * row_size + j]. *)
Theorem read_image_spec file (malloc : Z → Z) (m : mem) w0 h0 width height :
  BMP.info_width (BMP.info_of file 14) = width →
  BMP.info_height (BMP.info_of file 14) = height →
  0 ≤ width ≤ INT_MAX - 3 → 0 ≤ height → width * height ≤ INT_MAX →
  ∃ r, BMP.read_image (Some file) malloc m w0 h0 = Some r
    ∧ (∀ a, ¬ (malloc (width * height) ≤ a
                < malloc (width * height) + width * height) →
         BMP.memory r a = m a)
    ∧ (BMP.returned r ≠ BMP.NULL ↔
       54 ≤ Z.of_nat (length file)
       ∧ BMP.unsigned_at file 0 2 = 19778
       ∧ BMP.unsigned_at file 28 2 = 8
       ∧ malloc (width * height) ≠ BMP.NULL
       ∧ (height = 0 ∨ width = 0
          ∨ 1078 + (height - 1) * BMP.row_size_of width + width
            ≤ Z.of_nat (length file)))
    ∧ (BMP.returned r ≠ BMP.NULL →
       BMP.returned r = malloc (width * height)
       ∧ BMP.width_out r = width ∧ BMP.height_out r = height
       ∧ ∀ i j, 0 ≤ i < height → 0 ≤ j < width →
           file !! Z.to_nat (1078 + (height - 1 - i) * BMP.row_size_of width + j)
           = Some (BMP.memory r (BMP.returned r + (i * width + j)))).
Proof. apply read_image_correct. Qed.

Lemma read_image_spec_witness :
  ∃ r, BMP.read_image (Some four_pixels_bmp) (λ _, 4096) (λ _, 0) 0 0 = Some r
    ∧ (∀ a, ¬ (4096 ≤ a < 4096 + 2 * 2) → BMP.memory r a = 0)
    ∧ (BMP.returned r ≠ BMP.NULL ↔
       54 ≤ Z.of_nat (length four_pixels_bmp)
       ∧ BMP.unsigned_at four_pixels_bmp 0 2 = 19778
       ∧ BMP.unsigned_at four_pixels_bmp 28 2 = 8
       ∧ 4096 ≠ BMP.NULL
       ∧ (2 = 0 ∨ 2 = 0
          ∨ 1078 + (2 - 1) * BMP.row_size_of 2 + 2
            ≤ Z.of_nat (length four_pixels_bmp)))
    ∧ (BMP.returned r ≠ BMP.NULL →
       BMP.returned r = 4096
       ∧ BMP.width_out r = 2 ∧ BMP.height_out r = 2
       ∧ ∀ i j, 0 ≤ i < 2 → 0 ≤ j < 2 →
           four_pixels_bmp !! Z.to_nat (1078 + (2 - 1 - i) * BMP.row_size_of 2 + j)
           = Some (BMP.memory r (BMP.returned r + (i * 2 + j)))).
Proof.
  apply (read_image_spec four_pixels_bmp (λ _, 4096) (λ _, 0) 0 0 2 2).
  - by vm_compute.
  - by vm_compute.
  - unfold INT_MAX. lia.
  - lia.
  - unfold INT_MAX. lia.
Defined.

(** ** Writing a BMP file *)

Lemma for_each_append (l : list Z) (g : Z → list Z) (file : list Z) :
  for_each l (λ i file, file ++ g i) file = file ++ (i ← l; g i).
Proof.
  unfold for_each. revert file. induction l as [|i l IH]; intros file.
  - by rewrite app_nil_r.
  - cbn [foldl mbind list_bind]. rewrite IH. by rewrite <- app_assoc.
Qed.

Lemma for_eachM_append (l : list Z) (g : Z → list Z)
    (body : Z → list Z → option (list Z)) (file : list Z) :
  (∀ i f, i ∈ l → body i f = Some (f ++ g i)) →
  for_eachM l body file = Some (file ++ (i ← l; g i)).
Proof.
  revert file. induction l as [|i l IH]; intros file Hbody.
  - by rewrite app_nil_r.
  - cbn [for_eachM mbind list_bind]. rewrite Hbody by left.
    cbn [mbind option_bind]. rewrite IH.
    + by rewrite <- app_assoc.
    + intros. apply Hbody. by right.
Qed.

(** [write_image] produces [bmp_file]. *)
Lemma write_image_shape (m : mem) image width height :
  0 ≤ width ≤ INT_MAX - 3 → 0 ≤ height → width * height ≤ INT_MAX →
  in_int height →
  BMP.write_image true m image width height
  = Some (0, Some (bmp_file m image width height)).
Proof.
  intros Hw Hh Hfit Hint. unfold BMP.write_image. cbn [negb]. cbv zeta.
  destruct (row_size_of_spec width Hw) as [_ Hrs].
  rewrite for_each_append.
  rewrite rows_down_eq by (unfold in_int in Hint; lia).
  rewrite (for_eachM_append _ (bmp_row m image width)).
  - cbn [mbind option_bind]. unfold bmp_file, bmp_headers, bmp_palette.
    by rewrite <- !app_assoc.
  - intros i f Hi. apply elem_of_reverse, elem_of_seqZ in Hi.
    destruct (Z.ltb_spec width 0) as [|_]; [lia|].
    assert (0 ≤ i * width ≤ width * height) as Hiw by nia.
    rewrite imul_id by (unfold in_int, INT_MIN, INT_MAX in *; lia).
    rewrite isub_id by (unfold in_int, INT_MIN, INT_MAX in *; lia).
    unfold bmp_row. rewrite app_assoc.
    destruct (Z.ltb_spec 0 (BMP.row_size_of width - width)) as [Hpad|Hpad].
    + destruct (Z.ltb_spec 3 (BMP.row_size_of width - width)); [lia|done].
    + replace (BMP.row_size_of width - width) with 0 by lia.
      by rewrite app_nil_r.
Qed.

(** A list of rows of one length, looked up by row and column. *)
Lemma lookup_bind_rows (L : list Z) (row : Z → list Z) (len k x : nat) i :
  (∀ i, length (row i) = len) → L !! k = Some i → (x < len)%nat →
  (i ← L; row i) !! (k * len + x)%nat = row i !! x.
Proof.
  intros Hlen. revert k. induction L as [|i0 L IH]; intros k Hk Hx; [done|].
  cbn [mbind list_bind]. destruct k as [|k].
  - injection Hk as ->. rewrite lookup_app_l by (rewrite Hlen; lia).
    f_equal.
  - rewrite lookup_app_r by (rewrite Hlen; lia). rewrite Hlen.
    replace (S k * len + x - len)%nat with (k * len + x)%nat by lia.
    by apply IH.
Qed.

Lemma length_bind_rows (L : list Z) (row : Z → list Z) (len : nat) :
  (∀ i, length (row i) = len) →
  length (i ← L; row i) = (length L * len)%nat.
Proof.
  intros Hlen. induction L as [|i0 L IH]; [done|].
  cbn [mbind list_bind]. rewrite length_app, Hlen, IH. simpl. lia.
Qed.

Lemma lookup_rows_down height i :
  0 ≤ i < height →
  reverse (seqZ 0 height) !! Z.to_nat (height - 1 - i) = Some i.
Proof.
  intros Hi. rewrite reverse_lookup by (rewrite length_seqZ; lia).
  rewrite length_seqZ.
  replace (Z.to_nat height - S (Z.to_nat (height - 1 - i)))%nat
    with (Z.to_nat i) by lia.
  rewrite lookup_seqZ. split; [lia|lia].
Qed.

Lemma length_bmp_row (m : mem) image width i :
  0 ≤ width ≤ INT_MAX - 3 →
  length (bmp_row m image width i) = Z.to_nat (BMP.row_size_of width).
Proof.
  intros Hw. destruct (row_size_of_spec width Hw) as [_ Hrs].
  unfold bmp_row, read_buf.
  rewrite length_app, length_fmap, length_seqZ, length_replicate. lia.
Qed.

Lemma lookup_bmp_row (m : mem) image width i x :
  0 ≤ width ≤ INT_MAX - 3 → 0 ≤ x < BMP.row_size_of width →
  bmp_row m image width i !! Z.to_nat x
  = Some (if bool_decide (x < width) then load m image (i * width + x) else 0).
Proof.
  intros Hw Hx. unfold bmp_row. case_bool_decide as Hlt.
  - rewrite lookup_app_l
      by (unfold read_buf; rewrite length_fmap, length_seqZ; lia).
    unfold read_buf. rewrite list_lookup_fmap.
    rewrite (proj2 (lookup_seqZ 0 width (Z.to_nat x) x)) by lia.
    cbn. unfold load. do 2 f_equal. lia.
  - rewrite lookup_app_r
      by (unfold read_buf; rewrite length_fmap, length_seqZ; lia).
    apply lookup_replicate_2. unfold read_buf.
    rewrite length_fmap, length_seqZ. lia.
Qed.

Lemma le_value_bytes_2 v : BMP.le_value (BMP.le_bytes 2 v) = v `mod` 65536.
Proof.
  rewrite le_bytes_2. cbn [BMP.le_value foldr].
  rewrite !Z.shiftr_div_pow2 by lia.
  change (2 ^ 0) with 1. change (2 ^ 8) with 256.
  Z.to_euclidean_division_equations. lia.
Qed.

(** The packed structs written and read back. *)
Lemma header_of_bytes h i rest :
  BMP.header_of (BMP.header_bytes h ++ BMP.info_bytes i ++ rest) 0
  = BMP.Header (BMP.le_value (BMP.le_bytes 2 (BMP.header_type h)))
               (BMP.le_value (BMP.le_bytes 4 (BMP.header_size h)))
               (BMP.le_value (BMP.le_bytes 2 (BMP.header_reserved1 h)))
               (BMP.le_value (BMP.le_bytes 2 (BMP.header_reserved2 h)))
               (BMP.le_value (BMP.le_bytes 4 (BMP.header_offset h))).
Proof. destruct h, i. reflexivity. Qed.

Lemma info_of_bytes h i rest :
  BMP.info_of (BMP.header_bytes h ++ BMP.info_bytes i ++ rest) 14
  = BMP.Info (BMP.le_value (BMP.le_bytes 4 (BMP.info_size i)))
             (wrap (BMP.le_value (BMP.le_bytes 4 (BMP.info_width i))))
             (wrap (BMP.le_value (BMP.le_bytes 4 (BMP.info_height i))))
             (BMP.le_value (BMP.le_bytes 2 (BMP.info_planes i)))
             (BMP.le_value (BMP.le_bytes 2 (BMP.info_bits_per_pixel i)))
             (BMP.le_value (BMP.le_bytes 4 (BMP.info_compression i)))
             (BMP.le_value (BMP.le_bytes 4 (BMP.info_image_size i)))
             (wrap (BMP.le_value (BMP.le_bytes 4 (BMP.info_x_pixels_per_meter i))))
             (wrap (BMP.le_value (BMP.le_bytes 4 (BMP.info_y_pixels_per_meter i))))
             (BMP.le_value (BMP.le_bytes 4 (BMP.info_colors_used i)))
             (BMP.le_value (BMP.le_bytes 4 (BMP.info_important_colors i))).
Proof. destruct h, i. reflexivity. Qed.

Lemma wrap_mod z : wrap z `mod` 4294967296 = z `mod` 4294967296.
Proof. unfold wrap. Z.to_euclidean_division_equations. lia. Qed.

Lemma file_size_mod rs height :
  iadd (iadd 54 (imul 256 4)) (imul rs height) `mod` 4294967296
  = (1078 + rs * height) `mod` 4294967296.
Proof.
  change (iadd 54 (imul 256 4)) with 1078. unfold iadd, imul.
  rewrite wrap_mod. rewrite Z.add_mod by lia. rewrite wrap_mod.
  by rewrite <- Z.add_mod by lia.
Qed.

Lemma length_bmp_headers width height :
  length (bmp_headers width height) = 54%nat.
Proof. reflexivity. Qed.

Lemma length_bmp_palette : length bmp_palette = 1024%nat.
Proof. by vm_compute. Qed.

Lemma bmp_file_headers (m : mem) image width height :
  0 ≤ width ≤ INT_MAX - 3 → 0 ≤ height ≤ INT_MAX →
  BMP.header_of (bmp_file m image width height) 0
  = BMP.Header 19778 ((1078 + BMP.row_size_of width * height) `mod` 4294967296)
               0 0 1078
  ∧ BMP.info_of (bmp_file m image width height) 14
    = BMP.Info 40 width height 1 8 0
               ((BMP.row_size_of width * height) `mod` 4294967296)
               2835 2835 256 256.
Proof.
  intros Hw Hh. unfold bmp_file, bmp_headers. cbv zeta.
  rewrite <- !app_assoc. rewrite header_of_bytes, info_of_bytes.
  cbn [BMP.header_type BMP.header_size BMP.header_reserved1
       BMP.header_reserved2 BMP.header_offset BMP.info_size BMP.info_width
       BMP.info_height BMP.info_planes BMP.info_bits_per_pixel
       BMP.info_compression BMP.info_image_size BMP.info_x_pixels_per_meter
       BMP.info_y_pixels_per_meter BMP.info_colors_used
       BMP.info_important_colors].
  rewrite !signed_bytes_4 by (unfold in_int, INT_MIN, INT_MAX in *; lia).
  rewrite !le_value_bytes_4, !le_value_bytes_2.
  rewrite file_size_mod. unfold imul. rewrite wrap_mod.
  rewrite !Z.mod_mod by lia. split; reflexivity.
Qed.

Lemma lookup_bmp_palette i c :
  0 ≤ i < 256 → 0 ≤ c < 4 →
  bmp_palette !! Z.to_nat (4 * i + c)
  = Some (if bool_decide (c = 3) then 0 else i).
Proof.
  intros Hi Hc. unfold bmp_palette.
  replace (Z.to_nat (4 * i + c)) with (Z.to_nat i * 4 + Z.to_nat c)%nat by lia.
  rewrite (lookup_bind_rows _ _ 4 _ _ i); [|done| |lia].
  - unfold uchar. rewrite Z.mod_small by lia.
    assert (c = 0 ∨ c = 1 ∨ c = 2 ∨ c = 3) as [->|[->|[->| ->]]] by lia; done.
  - unfold range_lt. apply lookup_seqZ. lia.
Qed.

Lemma lookup_bmp_file_pixel (m : mem) image width height i x :
  0 ≤ width ≤ INT_MAX - 3 → 0 ≤ i < height → 0 ≤ x < BMP.row_size_of width →
  bmp_file m image width height
    !! Z.to_nat (1078 + (height - 1 - i) * BMP.row_size_of width + x)
  = Some (if bool_decide (x < width) then load m image (i * width + x) else 0).
Proof.
  intros Hw Hi Hx. unfold bmp_file.
  assert (0 ≤ (height - 1 - i) * BMP.row_size_of width) as Hpos by nia.
  rewrite lookup_app_r by (rewrite length_bmp_headers; lia).
  rewrite lookup_app_r by (rewrite length_bmp_headers, length_bmp_palette; lia).
  rewrite length_bmp_headers, length_bmp_palette.
  replace (Z.to_nat (1078 + (height - 1 - i) * BMP.row_size_of width + x)
           - 54 - 1024)%nat
    with (Z.to_nat (height - 1 - i) * Z.to_nat (BMP.row_size_of width)
          + Z.to_nat x)%nat.
  2: { rewrite <- Z2Nat.inj_mul by lia. lia. }
  rewrite (lookup_bind_rows _ _ _ _ _ i).
  - by apply lookup_bmp_row.
  - intros i'. by apply length_bmp_row.
  - by apply lookup_rows_down.
  - lia.
Qed.

Lemma length_bmp_file (m : mem) image width height :
  0 ≤ width ≤ INT_MAX - 3 → 0 ≤ height →
  Z.of_nat (length (bmp_file m image width height))
  = 1078 + BMP.row_size_of width * height.
Proof.
  intros Hw Hh. destruct (row_size_of_spec width Hw) as [_ Hrs].
  unfold bmp_file.
  rewrite !length_app, length_bmp_headers, length_bmp_palette.
  rewrite (length_bind_rows _ _ (Z.to_nat (BMP.row_size_of width)))
    by (intros; by apply length_bmp_row).
  rewrite length_reverse, length_seqZ.
  rewrite !Nat2Z.inj_add, Nat2Z.inj_mul, !Z2Nat.id by lia. lia.
Qed.

(** The file [write_image] leaves behind: 1078 bytes of headers and
    palette, then [height] rows of [row_size] bytes, where [row_size] is
    [width] rounded up to a multiple of four.  The size fields hold the
    sizes modulo [2^32] even when the [int] that computed them overflowed;
    the palette is the gray ramp; the sample of row [i], column [j] sits
    at [1078 + (height - 1 - i) * row_size + j] (rows bottom-up), and the
    rest of each row is zero. *)
Theorem write_image_layout (m : mem) image width height :
  0 ≤ width ≤ INT_MAX - 3 → 0 ≤ height ≤ INT_MAX → width * height ≤ INT_MAX →
  ∃ file,
    BMP.write_image true m image width height = Some (0, Some file)
    ∧ BMP.row_size_of width = 4 * ((width + 3) `div` 4)
    ∧ Z.of_nat (length file) = 1078 + BMP.row_size_of width * height
    ∧ BMP.header_of file 0
      = BMP.Header 19778
          ((1078 + BMP.row_size_of width * height) `mod` 4294967296) 0 0 1078
    ∧ BMP.info_of file 14
      = BMP.Info 40 width height 1 8 0
          ((BMP.row_size_of width * height) `mod` 4294967296)
          2835 2835 256 256
    ∧ (∀ i c, 0 ≤ i < 256 → 0 ≤ c < 4 →
         file !! Z.to_nat (54 + 4 * i + c)
         = Some (if bool_decide (c = 3) then 0 else i))
    ∧ (∀ i x, 0 ≤ i < height → 0 ≤ x < BMP.row_size_of width →
         file !! Z.to_nat (1078 + (height - 1 - i) * BMP.row_size_of width + x)
         = Some (if bool_decide (x < width)
                 then load m image (i * width + x) else 0)).
Proof.
  intros Hw Hh Hfit. exists (bmp_file m image width height).
  split.
  { apply write_image_shape; [done|lia|done|].
    unfold in_int, INT_MIN, INT_MAX in *. lia. }
  split; [by apply row_size_of_spec|].
  split; [apply length_bmp_file; lia|].
  destruct (bmp_file_headers m image width height Hw Hh) as [Hhdr Hinfo].
  split; [exact Hhdr|]. split; [exact Hinfo|]. split.
  - intros i c Hi Hc. unfold bmp_file.
    rewrite lookup_app_r by (rewrite length_bmp_headers; lia).
    rewrite lookup_app_l by (rewrite length_bmp_headers, length_bmp_palette; lia).
    rewrite length_bmp_headers.
    replace (Z.to_nat (54 + 4 * i + c) - 54)%nat with (Z.to_nat (4 * i + c))
      by lia.
    by apply lookup_bmp_palette.
  - intros i x Hi Hx. by apply lookup_bmp_file_pixel.
Qed.

Lemma write_image_layout_witness :
  ∃ file,
    BMP.write_image true four_pixels 0 2 2 = Some (0, Some file)
    ∧ BMP.row_size_of 2 = 4 * ((2 + 3) `div` 4)
    ∧ Z.of_nat (length file) = 1078 + BMP.row_size_of 2 * 2
    ∧ BMP.header_of file 0
      = BMP.Header 19778 ((1078 + BMP.row_size_of 2 * 2) `mod` 4294967296)
                   0 0 1078
    ∧ BMP.info_of file 14
      = BMP.Info 40 2 2 1 8 0 ((BMP.row_size_of 2 * 2) `mod` 4294967296)
                 2835 2835 256 256
    ∧ (∀ i c, 0 ≤ i < 256 → 0 ≤ c < 4 →
         file !! Z.to_nat (54 + 4 * i + c)
         = Some (if bool_decide (c = 3) then 0 else i))
    ∧ (∀ i x, 0 ≤ i < 2 → 0 ≤ x < BMP.row_size_of 2 →
         file !! Z.to_nat (1078 + (2 - 1 - i) * BMP.row_size_of 2 + x)
         = Some (if bool_decide (x < 2)
                 then load four_pixels 0 (i * 2 + x) else 0)).
Proof.
  apply (write_image_layout four_pixels 0 2 2).
  - unfold INT_MAX. lia.
  - unfold INT_MAX. lia.
  - unfold INT_MAX. lia.
Defined.

(** ** Written, then read *)

(** An image written by [write_image] and read by [read_image] comes back
    with its width, its height and its [width * height] samples, in a
    block of [malloc]; no other byte of the reader's memory changes. *)
Theorem bmp_round_trip (m : mem) image width height
    (malloc : Z → Z) (m2 : mem) w0 h0 :
  0 ≤ width ≤ INT_MAX - 3 → 0 ≤ height ≤ INT_MAX → width * height ≤ INT_MAX →
  malloc (width * height) ≠ BMP.NULL →
  ∃ file r,
    BMP.write_image true m image width height = Some (0, Some file)
    ∧ BMP.read_image (Some file) malloc m2 w0 h0 = Some r
    ∧ BMP.returned r = malloc (width * height)
    ∧ BMP.width_out r = width ∧ BMP.height_out r = height
    ∧ (∀ i j, 0 ≤ i < height → 0 ≤ j < width →
         load (BMP.memory r) (BMP.returned r) (i * width + j)
         = load m image (i * width + j))
    ∧ (∀ a, ¬ (BMP.returned r ≤ a < BMP.returned r + width * height) →
         BMP.memory r a = m2 a).
Proof.
  intros Hw Hh Hfit Hmalloc.
  pose (file := bmp_file m image width height).
  assert (BMP.write_image true m image width height = Some (0, Some file))
    as Hwrite.
  { apply write_image_shape; [done|lia|done|].
    unfold in_int, INT_MIN, INT_MAX in *. lia. }
  pose proof (length_bmp_file m image width height Hw ltac:(lia)) as Hlen.
  destruct (bmp_file_headers m image width height Hw Hh) as [Hhdr Hinfo].
  pose proof (λ i x, lookup_bmp_file_pixel m image width height i x Hw) as Hpix.
  fold file in Hlen, Hhdr, Hinfo, Hpix. clearbody file.
  destruct (row_size_of_spec width Hw) as [_ Hrs].
  destruct (read_image_correct file malloc m2 w0 h0 width height)
    as (r & Hread & Hframe & Hok & Hdata); [by rewrite Hinfo..|done|lia|done|].
  assert (BMP.returned r ≠ BMP.NULL) as Hret.
  { assert (0 ≤ BMP.row_size_of width * height) as Hsz by nia.
    apply Hok. split; [lia|].
    change (BMP.unsigned_at file 0 2)
      with (BMP.header_type (BMP.header_of file 0)).
    change (BMP.unsigned_at file 28 2)
      with (BMP.info_bits_per_pixel (BMP.info_of file 14)).
    rewrite Hhdr, Hinfo. split; [done|]. split; [done|]. split; [done|].
    destruct (decide (height = 0)) as [|Hne]; [by left|]. right. right.
    rewrite Hlen. nia. }
  destruct (Hdata Hret) as (Hptr & Hwo & Hho & Hbytes).
  exists file, r. split; [exact Hwrite|]. split; [exact Hread|].
  clear Hwrite Hread.
  split; [done|]. split; [done|]. split; [done|]. split.
  - intros i j Hi Hj. specialize (Hbytes i j Hi Hj).
    rewrite (Hpix i j) in Hbytes by lia.
    rewrite bool_decide_eq_true_2 in Hbytes by lia.
    unfold load at 1. by injection Hbytes as <-.
  - intros a Ha. apply Hframe. by rewrite <- Hptr.
Qed.

Lemma bmp_round_trip_witness :
  ∃ file r,
    BMP.write_image true four_pixels 0 2 2 = Some (0, Some file)
    ∧ BMP.read_image (Some file) (λ _, 4096) (λ _, 0) 0 0 = Some r
    ∧ BMP.returned r = 4096
    ∧ BMP.width_out r = 2 ∧ BMP.height_out r = 2
    ∧ (∀ i j, 0 ≤ i < 2 → 0 ≤ j < 2 →
         load (BMP.memory r) (BMP.returned r) (i * 2 + j)
         = load four_pixels 0 (i * 2 + j))
    ∧ (∀ a, ¬ (BMP.returned r ≤ a < BMP.returned r + 2 * 2) →
         BMP.memory r a = 0).
Proof.
  apply (bmp_round_trip four_pixels 0 2 2 (λ _, 4096) (λ _, 0) 0 0).
  - unfold INT_MAX. lia.
  - unfold INT_MAX. lia.
  - unfold INT_MAX. lia.
  - by vm_compute.
Defined.

(** ** The output format *)

(** The serial program and the parallel programs pick the same encoder
    for every output name without an upper-case or [.jpeg] suffix.  In
    general they need not: whenever the parallel programs write a PNG so
    does the serial one, whenever the serial one writes a BMP so do the
    parallel ones, but a name with [.jpeg] and none of the other suffixes
    is a JPEG for the serial program and a BMP for the parallel ones. *)
Theorem encoders_agree (name : string) :
  (strstr name ".PNG" = false → strstr name ".JPG" = false →
   strstr name ".jpeg" = false → strstr name ".JPEG" = false →
   serial_encoder name = parallel_encoder name)
  ∧ (parallel_encoder name = stbi_write_png →
     serial_encoder name = stbi_write_png)
  ∧ (serial_encoder name = stbi_write_bmp →
     parallel_encoder name = stbi_write_bmp)
  ∧ (strstr name ".jpeg" = true → strstr name ".png" = false →
     strstr name ".PNG" = false → strstr name ".jpg" = false →
     serial_encoder name = stbi_write_jpg
     ∧ parallel_encoder name = stbi_write_bmp).
Proof.
  unfold serial_encoder, parallel_encoder.
  destruct (strstr name ".png"), (strstr name ".PNG"), (strstr name ".jpg"),
    (strstr name ".JPG"), (strstr name ".jpeg"), (strstr name ".JPEG");
    cbn; repeat split; congruence.
Qed.

Lemma encoders_agree_witness :
  serial_encoder "out/photo.jpeg" = stbi_write_jpg
  ∧ parallel_encoder "out/photo.jpeg" = stbi_write_bmp.
Proof.
  destruct (encoders_agree "out/photo.jpeg") as (_ & _ & _ & Hjpeg).
  apply Hjpeg; reflexivity.
Defined.

(** ** Channels that hold the same samples *)

(** Two channels of a colour image that hold the same sample at every
    pixel are blurred to the same output samples: a gray RGB image, such
    as the converter produces, stays gray.  This holds for every radius,
    overflow or not. *)
Theorem equal_channels_stay_equal m input out width height channels
    kernel_size c c' :
  valid_dims width height channels →
  in_int kernel_size → 0 ≤ kernel_size ÷ 2 →
  disjoint input (width * height * channels) out (width * height * 3) →
  channels ≠ 1 → 0 ≤ c < 3 → 0 ≤ c' < 3 →
  (∀ i, 0 ≤ i < width * height →
     load m input (i * channels + c) = load m input (i * channels + c')) →
  ∃ m', Serial.apply_box_blur_color m input out width height channels
          kernel_size = Some m'
    ∧ ∀ x y, 0 ≤ x < width → 0 ≤ y < height →
        m' (cell out width y x c) = m' (cell out width y x c').
Proof.
  intros Hdims Hks Hr Hdisj Hch Hc Hc' Hsame.
  destruct (serial_run m input out width height channels kernel_size)
    as (m' & Hrun & Hfill); [done..|].
  exists m'. split; [exact Hrun|]. clear Hrun. intros x y Hx Hy.
  rewrite !(filled_values _ _ _ _ _ _ _ _ _ _ _ Hfill) by done.
  unfold blur_byte, window_sum.
  assert (sample (load m input) width channels c
            <$> valid_neighbors width height x y (kernel_size ÷ 2)
          = sample (load m input) width channels c'
            <$> valid_neighbors width height x y (kernel_size ÷ 2)) as ->; [|done].
  apply list_fmap_ext. intros _ p Hp%list_elem_of_lookup_2.
  apply valid_neighbors_inside in Hp as [Hp1 Hp2]. unfold sample.
  destruct (Z.eqb_spec channels 1) as [|_]; [done|].
  apply Hsame. destruct Hdims as (Hw & Hh & _). nia.
Qed.

Lemma equal_channels_stay_equal_witness :
  ∃ m', Serial.apply_box_blur_color (λ _, 7) 0 12 2 2 3 5 = Some m'
    ∧ ∀ x y, 0 ≤ x < 2 → 0 ≤ y < 2 →
        m' (cell 12 2 y x 0) = m' (cell 12 2 y x 2).
Proof.
  apply (equal_channels_stay_equal (λ _, 7) 0 12 2 2 3 5 0 2).
  - unfold valid_dims, INT_MAX. lia.
  - unfold in_int, INT_MIN, INT_MAX. lia.
  - by vm_compute.
  - unfold disjoint. lia.
  - lia.
  - lia.
  - lia.
  - intros i Hi. reflexivity.
Defined.

(** ** PGM files *)

(** No file that [write_image] of the PGM unit produces can be read back
    by its [read_image]: the reader's comparisons with ['\\n'] never
    succeed, the comment line of the writer is therefore not skipped, and
    the header scan stops at its [#].  The reader returns [NULL] and
    leaves [*width], [*height] and the memory as they were. *)
Theorem pgm_round_trip_fails (m : mem) image width height
    (malloc : Z → Z) (m2 : mem) w0 h0 :
  0 ≤ width * height ≤ INT_MAX →
  ∃ file,
    PGM.write_image true m image width height = Some (0, Some file)
    ∧ PGM.read_image (Some file) malloc m2 w0 h0
      = Some (PGM.Result PGM.NULL w0 h0 m2).
Proof.
  intros Hfit. unfold PGM.write_image. cbn [negb]. cbv zeta.
  rewrite imul_id by (unfold in_int, INT_MIN, INT_MAX in *; lia).
  destruct (Z.ltb_spec (width * height) 0) as [|_]; [lia|].
  eexists. split; [reflexivity|]. reflexivity.
Qed.

Lemma pgm_round_trip_fails_witness :
  ∃ file,
    PGM.write_image true four_pixels 0 2 2 = Some (0, Some file)
    ∧ PGM.read_image (Some file) (λ _, 4096) (λ _, 0) 0 0
      = Some (PGM.Result PGM.NULL 0 0 (λ _, 0)).
Proof.
  apply (pgm_round_trip_fails four_pixels 0 2 2 (λ _, 4096) (λ _, 0) 0 0).
  unfold INT_MAX. lia.
Defined.

Lemma skip_comment_bytes tail ch :
  0 ≤ ch ≤ 255 → Forall (λ b, 0 ≤ b ≤ 255) tail →
  PGM.skip_comment tail ch = (PGM.EOF, []).
Proof.
  intros Hch Htail. revert ch Hch.
  induction Htail as [|c tail Hc Htail IH]; intros ch Hch.
  - cbn [PGM.skip_comment].
    destruct (Z.eqb_spec ch PGM.backslash_n) as [Heq|_];
      [unfold PGM.backslash_n in Heq; lia|].
    destruct (Z.eqb_spec ch PGM.EOF) as [Heq|_];
      [unfold PGM.EOF in Heq; lia|]. done.
  - cbn [PGM.skip_comment].
    destruct (Z.eqb_spec ch PGM.backslash_n) as [Heq|_];
      [unfold PGM.backslash_n in Heq; lia|].
    destruct (Z.eqb_spec ch PGM.EOF) as [Heq|_];
      [unfold PGM.EOF in Heq; lia|]. cbn [orb negb]. by apply IH.
Qed.

Lemma skip_space_comment ws tail :
  Forall (λ c, PGM.isspace c = true) ws →
  PGM.skip_space (ws ++ 35 :: tail) = 35 :: tail.
Proof.
  induction 1 as [|c ws Hc Hws IH]; [done|].
  cbn [app PGM.skip_space]. by rewrite Hc.
Qed.

Lemma scan_int_comment ws tail :
  Forall (λ c, PGM.isspace c = true) ws →
  PGM.scan_int (ws ++ 35 :: tail) = PGM.Mismatch.
Proof.
  intros Hws. unfold PGM.scan_int. by rewrite skip_space_comment.
Qed.

(** The [do ... while] loop in front of a comment: either it runs into
    the [#] and then to the end of the file, or it stops at the first
    white space that is not a blank; the scan that follows fails. *)
Lemma skip_header_comment ws tail fuel :
  Forall (λ c, PGM.isspace c = true) ws →
  Forall (λ b, 0 ≤ b ≤ 255) tail →
  (length ws < fuel)%nat →
  ∃ ch s', PGM.skip_header fuel (ws ++ 35 :: tail) = Some (ch, s')
    ∧ PGM.scan_int (if ch =? PGM.EOF then s' else ch :: s') = PGM.Mismatch.
Proof.
  intros Hws Htail. revert fuel.
  induction Hws as [|c ws Hc Hws IH]; intros fuel Hfuel.
  - destruct fuel as [|fuel]; [simpl in Hfuel; lia|].
    cbn [app PGM.skip_header]. change (35 =? 35) with true. cbv iota.
    rewrite skip_comment_bytes by (done || lia).
    exists PGM.EOF, []. by split.
  - destruct fuel as [|fuel]; [simpl in Hfuel; lia|].
    cbn [app PGM.skip_header].
    assert (c = 32 ∨ 9 ≤ c ≤ 13) as Hcase.
    { unfold PGM.isspace in Hc. destruct (Z.eqb_spec c 32); [by left|].
      right. cbn [orb] in Hc. apply andb_true_iff in Hc. lia. }
    assert ((c =? 35) = false) as Hne by (apply Z.eqb_neq; lia).
    cbv beta iota. rewrite Hne. cbv beta iota. rewrite ?Hne.
    destruct Hcase as [->|Hc'].
    + cbn [Z.eqb Pos.eqb orb]. apply IH. simpl in Hfuel. lia.
    + destruct (Z.eqb_spec c 32) as [|_]; [lia|].
      destruct (Z.eqb_spec c PGM.backslash_t) as [Heq|_];
        [unfold PGM.backslash_t in Heq; lia|].
      destruct (Z.eqb_spec c PGM.backslash_n) as [Heq|_];
        [unfold PGM.backslash_n in Heq; lia|].
      destruct (Z.eqb_spec c PGM.backslash_r) as [Heq|_];
        [unfold PGM.backslash_r in Heq; lia|].
      exists c, (ws ++ 35 :: tail). split; [reflexivity|].
      destruct (Z.eqb_spec c PGM.EOF) as [Heq|_];
        [unfold PGM.EOF in Heq; lia|].
      apply (scan_int_comment (c :: ws)). by constructor.
Qed.

(** [read_image] of the PGM unit rejects every file with a comment after
    the magic number, whatever follows: it returns [NULL] and leaves
    [*width], [*height] and the memory as they were. *)
Theorem pgm_comment_rejected magic ws tail (malloc : Z → Z) (m : mem) w0 h0 :
  magic = PGM.bytes "P5" ∨ magic = PGM.bytes "P2" →
  Forall (λ c, PGM.isspace c = true) ws →
  Forall (λ b, 0 ≤ b ≤ 255) tail →
  PGM.read_image (Some (magic ++ ws ++ 35 :: tail)) malloc m w0 h0
  = Some (PGM.Result PGM.NULL w0 h0 m).
Proof.
  intros Hmagic Hws Htail.
  destruct (skip_header_comment ws tail (S (length (ws ++ 35 :: tail))) Hws Htail)
    as (ch & s' & Hskip & Hscan).
  { rewrite length_app. lia. }
  destruct Hmagic as [-> | ->].
  - unfold PGM.read_image.
    change (PGM.take_word 2 (PGM.skip_space (PGM.bytes "P5" ++ ws ++ 35 :: tail)))
      with ([80; 53], ws ++ 35 :: tail).
    cbv beta iota. rewrite Hskip. by rewrite Hscan.
  - unfold PGM.read_image.
    change (PGM.take_word 2 (PGM.skip_space (PGM.bytes "P2" ++ ws ++ 35 :: tail)))
      with ([80; 50], ws ++ 35 :: tail).
    cbv beta iota. rewrite Hskip. by rewrite Hscan.
Qed.

Lemma pgm_comment_rejected_witness :
  PGM.read_image
    (Some (PGM.bytes "P2" ++ [32; 10] ++ 35 :: PGM.bytes " a comment"))
    (λ _, 4096) (λ _, 0) 0 0
  = Some (PGM.Result PGM.NULL 0 0 (λ _, 0)).
Proof.
  apply (pgm_comment_rejected (PGM.bytes "P2") [32; 10] (PGM.bytes " a comment")).
  - by right.
  - repeat constructor.
  - repeat (constructor; [by vm_compute|]). constructor.
Defined.

(** *** Printed integers scan back *)

Lemma print_digits_head fuel n :
  0 ≤ n → (0 < fuel)%nat →
  ∃ d l, PGM.print_digits fuel n = d :: l ∧ 48 ≤ d ≤ 57.
Proof.
  revert n. induction fuel as [|fuel IH]; intros n Hn Hfuel; [lia|].
  cbn [PGM.print_digits]. destruct (Z.ltb_spec n 10) as [Hlt|Hge].
  - exists (48 + n `mod` 10), []. split; [done|].
    rewrite Z.mod_small by lia. lia.
  - destruct fuel as [|fuel].
    + exists (48 + n `mod` 10), []. split; [done|].
      pose proof (Z.mod_pos_bound n 10). lia.
    + destruct (IH (n `div` 10)) as (d & l & -> & Hd); [|lia|].
      { apply Z.div_pos; lia. }
      by exists d, (l ++ [48 + n `mod` 10]).
Qed.

Lemma scan_print_digits fuel n rest :
  0 ≤ n < 10 ^ Z.of_nat fuel → (0 < fuel)%nat →
  PGM.scan_digits (PGM.print_digits fuel n ++ rest) 0 = PGM.scan_digits rest n.
Proof.
  revert n rest. induction fuel as [|fuel IH]; intros n rest Hn Hfuel; [lia|].
  cbn [PGM.print_digits].
  assert (PGM.isdigit (48 + n `mod` 10) = true) as Hdigit.
  { pose proof (Z.mod_pos_bound n 10). unfold PGM.isdigit.
    apply andb_true_intro. split; lia. }
  destruct (Z.ltb_spec n 10) as [Hlt|Hge].
  - cbn [app PGM.scan_digits]. rewrite Hdigit. f_equal.
    rewrite Z.mod_small by lia. lia.
  - rewrite Nat2Z.inj_succ, Z.pow_succ_r in Hn by lia.
    rewrite <- app_assoc. cbn [app].
    rewrite IH.
    + cbn [PGM.scan_digits]. rewrite Hdigit. f_equal.
      Z.to_euclidean_division_equations. lia.
    + split; [apply Z.div_pos; lia|]. apply Z.div_lt_upper_bound; lia.
    + destruct fuel; [|lia]. simpl in Hn. lia.
Qed.

Lemma skip_space_ws ws s :
  Forall (λ c, PGM.isspace c = true) ws →
  PGM.skip_space (ws ++ s) = PGM.skip_space s.
Proof.
  induction 1 as [|c ws Hc Hws IH]; [done|].
  cbn [app PGM.skip_space]. by rewrite Hc.
Qed.

(** [%d] of [fscanf] reads what [%d] of [fprintf] wrote. *)
Lemma scan_int_print ws n c rest :
  Forall (λ c, PGM.isspace c = true) ws →
  0 ≤ n ≤ INT_MAX → PGM.isdigit c = false →
  PGM.scan_int (ws ++ PGM.print_int n ++ c :: rest) = PGM.Matched n (c :: rest).
Proof.
  intros Hws Hn Hc. unfold PGM.scan_int, PGM.print_int.
  destruct (Z.ltb_spec n 0) as [|_]; [lia|].
  rewrite skip_space_ws by done.
  pose proof (scan_print_digits 10 n (c :: rest)) as Hscan.
  destruct (print_digits_head 10 n) as (d & l & Hhead & Hd); [lia|lia|].
  rewrite Hhead in *. cbn [app PGM.skip_space].
  assert (PGM.isspace d = false) as ->.
  { unfold PGM.isspace. apply orb_false_intro; [lia|].
    apply andb_false_intro2. lia. }
  assert ((d =? 45) = false) as -> by lia.
  assert ((d =? 43) = false) as -> by lia.
  assert (PGM.isdigit d = true) as ->.
  { unfold PGM.isdigit. apply andb_true_intro. split; lia. }
  cbn [app] in Hscan. rewrite Hscan.
  - cbn [PGM.scan_digits]. rewrite Hc.
    rewrite bool_decide_eq_true_2; [done|].
    unfold in_int, INT_MIN, INT_MAX in *. lia.
  - unfold INT_MAX in Hn. change (10 ^ Z.of_nat 10) with 10000000000. lia.
  - lia.
Qed.

Lemma pgm_write_buf_inside (m : mem) p l j :
  0 ≤ j < Z.of_nat (length l) →
  l !! Z.to_nat j = Some (PGM.write_buf m p l (p + j)).
Proof.
  intros Hj. unfold PGM.write_buf. rewrite bool_decide_eq_true_2 by lia.
  replace (p + j - p) with j by lia.
  destruct (l !! Z.to_nat j) as [b|] eqn:Hb; [done|].
  apply lookup_ge_None in Hb. lia.
Qed.

(** Without the comment line the reader works: a binary PGM file with the
    header [write_image] prints and [width * height] bytes of data is read
    into a block of [malloc] in the order of the file, and nothing else
    changes. *)
Theorem pgm_reads_plain (data : list Z) width height
    (malloc : Z → Z) (m : mem) w0 h0 :
  0 ≤ width ≤ INT_MAX → 0 ≤ height ≤ INT_MAX → width * height ≤ INT_MAX →
  Z.of_nat (length data) = width * height →
  malloc (width * height) ≠ PGM.NULL →
  ∃ r, PGM.read_image (Some (plain_pgm width height data)) malloc m w0 h0
       = Some r
    ∧ PGM.returned r = malloc (width * height)
    ∧ PGM.width_out r = width ∧ PGM.height_out r = height
    ∧ (∀ i, 0 ≤ i < width * height →
         data !! Z.to_nat i = Some (PGM.memory r (PGM.returned r + i)))
    ∧ (∀ a, ¬ (PGM.returned r ≤ a < PGM.returned r + width * height) →
         PGM.memory r a = m a).
Proof.
  intros Hw Hh Hfit Hlen Hmalloc.
  assert (0 ≤ width * height) as Hprod by nia.
  pose proof (scan_int_print [10] width 32
                (PGM.print_int height ++ 10 :: PGM.bytes "255" ++ 10 :: data))
    as Hscan1.
  pose proof (scan_int_print [32] height 10 (PGM.bytes "255" ++ 10 :: data))
    as Hscan2.
  cbn [app] in Hscan1, Hscan2.
  unfold PGM.read_image, plain_pgm.
  change (PGM.take_word 2 (PGM.skip_space (PGM.bytes "P5" ++ ?s)))
    with ([80; 53], s).
  cbv beta iota.
  change (bool_decide ([80; 53] = [])
          || negb (bool_decide (PGM.c_string [80; 53] = PGM.bytes "P5"))
             && negb (bool_decide (PGM.c_string [80; 53] = PGM.bytes "P2")))
    with false.
  cbv beta iota. cbn [PGM.skip_header].
  change (10 =? 35) with false. cbv beta iota.
  change ((10 =? 32) || (10 =? PGM.backslash_t) || (10 =? PGM.backslash_n)
          || (10 =? PGM.backslash_r) || (10 =? 35)) with false.
  cbv beta iota. change (10 =? PGM.EOF) with false. cbv beta iota.
  rewrite Hscan1 by (done || by repeat constructor).
  rewrite Hscan2 by (done || by repeat constructor).
  change (PGM.scan_int (10 :: PGM.bytes "255" ++ 10 :: data))
    with (PGM.Matched 255 (10 :: data)).
  cbv beta iota. change (negb (255 =? 255)) with false.
  cbv beta iota zeta. cbn [PGM.skip_line]. change (10 =? 10) with true.
  cbv beta iota.
  rewrite imul_id by (unfold in_int, INT_MIN, INT_MAX in *; lia).
  destruct (Z.eqb_spec (malloc (width * height)) PGM.NULL) as [|_]; [done|].
  change (bool_decide (PGM.c_string [80; 53] = PGM.bytes "P5")) with true.
  cbv beta iota.
  destruct (Z.ltb_spec (width * height) 0) as [|_]; [lia|].
  rewrite take_ge by lia.
  rewrite bool_decide_eq_false_2 by (intros Hne; by apply Hne).
  eexists. split; [reflexivity|].
  cbn [PGM.returned PGM.width_out PGM.height_out PGM.memory].
  split; [done|]. split; [done|]. split; [done|]. split.
  - intros i Hi. apply pgm_write_buf_inside. lia.
  - intros a Ha. unfold PGM.write_buf. rewrite bool_decide_eq_false_2; [done|lia].
Qed.

Lemma pgm_reads_plain_witness :
  ∃ r, PGM.read_image (Some (plain_pgm 2 2 [10; 20; 30; 40])) (λ _, 4096)
         (λ _, 0) 0 0 = Some r
    ∧ PGM.returned r = 4096
    ∧ PGM.width_out r = 2 ∧ PGM.height_out r = 2
    ∧ (∀ i, 0 ≤ i < 2 * 2 →
         [10; 20; 30; 40] !! Z.to_nat i
         = Some (PGM.memory r (PGM.returned r + i)))
    ∧ (∀ a, ¬ (PGM.returned r ≤ a < PGM.returned r + 2 * 2) →
         PGM.memory r a = 0).
Proof.
  apply (pgm_reads_plain [10; 20; 30; 40] 2 2 (λ _, 4096) (λ _, 0) 0 0).
  - unfold INT_MAX. lia.
  - unfold INT_MAX. lia.
  - unfold INT_MAX. lia.
  - reflexivity.
  - by vm_compute.
Defined.

(** ** A window that covers the whole image *)

Lemma filter_none {A} (P : A → Prop) `{∀ a, Decision (P a)} (l : list A) :
  Forall (λ a, ¬ P a) l → filter P l = [].
Proof.
  induction 1 as [|a l Ha Hl IH]; [done|]. by rewrite filter_cons_False.
Qed.

Lemma filter_all {A} (P : A → Prop) `{∀ a, Decision (P a)} (l : list A) :
  Forall P l → filter P l = l.
Proof.
  induction 1 as [|a l Ha Hl IH]; [done|].
  rewrite filter_cons_True by done. by rewrite IH.
Qed.

(** With a radius of at least [extent - 1] the offsets that stay inside
    reach every coordinate. *)
Lemma span_full extent base radius :
  0 ≤ base < extent → extent - 1 ≤ radius →
  (λ d, base + d) <$> filter (in_span 0 extent base) (offsets radius)
  = seqZ 0 extent.
Proof.
  intros Hb Hr. unfold offsets, range_le.
  replace (radius - - radius + 1)
    with ((radius - base) + (extent + (radius - extent + base + 1))) by lia.
  rewrite seqZ_app by lia. rewrite (seqZ_app _ extent) by lia.
  rewrite !filter_app.
  rewrite (filter_none _ (seqZ (- radius) _)).
  2: { apply Forall_seqZ. intros d Hd. unfold in_span. lia. }
  rewrite (filter_none _ (seqZ (- radius + (radius - base) + extent) _)).
  2: { apply Forall_seqZ. intros d Hd. unfold in_span. lia. }
  rewrite filter_all.
  2: { apply Forall_seqZ. intros d Hd. unfold in_span. lia. }
  rewrite app_nil_l, app_nil_r.
  rewrite (fmap_add_seqZ base). f_equal. lia.
Qed.

(** The valid neighbours, as a rectangle of coordinates. *)
Lemma valid_neighbors_rect width height x y (ms ns : list Z) :
  filter (inside width height) (m ← ms; (λ n, (x + n, y + m)) <$> ns)
  = yy ← ((λ m, y + m) <$> filter (in_span 0 height y) ms);
    (λ xx, (xx, yy)) <$> ((λ n, x + n) <$> filter (in_span 0 width x) ns).
Proof.
  induction ms as [|m ms IH]; [done|].
  cbn [mbind list_bind]. rewrite filter_app, IH, row_filter.
  rewrite (filter_cons (in_span 0 height y)).
  destruct (decide (0 ≤ y + m < height)) as [Hm|Hm].
  - rewrite decide_True by done. cbn [fmap list_fmap mbind list_bind].
    f_equal. by rewrite <- list_fmap_compose.
  - by rewrite decide_False by done.
Qed.

Lemma valid_neighbors_full width height x y radius :
  0 ≤ x < width → 0 ≤ y < height →
  width - 1 ≤ radius → height - 1 ≤ radius →
  valid_neighbors width height x y radius
  = yy ← seqZ 0 height; (λ xx, (xx, yy)) <$> seqZ 0 width.
Proof.
  intros Hx Hy Hrw Hrh. unfold valid_neighbors, neighbors.
  rewrite valid_neighbors_rect. by rewrite !span_full by done.
Qed.

(** A kernel whose radius reaches across the whole image averages, at
    every pixel, all the samples of the channel: the output image is one
    colour.  This holds whether or not the accumulator overflows. *)
Theorem whole_image_window m input out width height channels kernel_size :
  valid_dims width height channels →
  in_int kernel_size →
  width - 1 ≤ kernel_size ÷ 2 → height - 1 ≤ kernel_size ÷ 2 →
  disjoint input (width * height * channels) out (width * height * 3) →
  ∃ m', Serial.apply_box_blur_color m input out width height channels
          kernel_size = Some m'
    ∧ ∀ x y x' y' c, 0 ≤ x < width → 0 ≤ y < height →
        0 ≤ x' < width → 0 ≤ y' < height → 0 ≤ c < 3 →
        m' (cell out width y x c) = m' (cell out width y' x' c).
Proof.
  intros Hdims Hks Hrw Hrh Hdisj.
  assert (0 ≤ kernel_size ÷ 2) as Hr by (destruct Hdims as (? & _); lia).
  destruct (serial_run m input out width height channels kernel_size)
    as (m' & Hrun & Hfill); [done..|].
  exists m'. split; [exact Hrun|]. clear Hrun.
  intros x y x' y' c Hx Hy Hx' Hy' Hc.
  rewrite !(filled_values _ _ _ _ _ _ _ _ _ _ _ Hfill) by done.
  unfold blur_byte, window_sum, window_count.
  by rewrite !valid_neighbors_full by done.
Qed.

Lemma whole_image_window_witness :
  ∃ m', Serial.apply_box_blur_color (mem_of 0 0 scenario_input) 0 16 4 4 1 7
        = Some m'
    ∧ ∀ x y x' y' c, 0 ≤ x < 4 → 0 ≤ y < 4 → 0 ≤ x' < 4 → 0 ≤ y' < 4 →
        0 ≤ c < 3 → m' (cell 16 4 y x c) = m' (cell 16 4 y' x' c).
Proof.
  apply (whole_image_window (mem_of 0 0 scenario_input) 0 16 4 4 1 7).
  - apply scenario_dims.
  - unfold in_int, INT_MIN, INT_MAX. lia.
  - by vm_compute.
  - by vm_compute.
  - unfold disjoint. lia.
Defined.
